(** * A record store over a spreadsheet grid

    Shallow embedding of [Desktop/10x/libs/common10x/DB.js]: the class [DB]
    that treats a sheet (rows by named columns) as a table of records, with
    schema discovery, record materialization, chunked update and delete,
    point update with a control check, and a three-way merge.

    Conventions of the embedding.
    - A JavaScript object is modelled by its own enumerable properties;
      names inherited from a prototype are not part of the model.
    - A record ([DBItem] or a plain data object) is a finite map from
      property names to values; [row] is an ordinary property of it.
    - An object whose enumeration order is observable (the field schema,
      a [DBItemsObject]) is an association list in insertion order.
    - A number is an integer or NaN.
    - A callback is a function of its arguments: it reads the records it
      is given and has no other effect. [updateCB] and [itemCB], which
      change a record in place, return the record as they leave it.
    - The store is modelled at the constructor defaults
      [dataColumnFirst = 1], [dataColumnsNum = undefined] and
      [formats = undefined].
    - A thrown exception is the [Err] branch of [result]. *)

From stdpp Require Import gmap strings list fin_maps pretty sorting.
From Stdlib Require Import Ascii QArith.QArith_base.

Local Open Scope string_scope.
Local Open Scope nat_scope.
Local Open Scope list_scope.

(** ** JavaScript values *)

Inductive value : Type :=
  | VUndef
  | VNull
  | VBool (b : bool)
  | VNum (z : Z)
  | VStr (s : string)
  | VNaN.

#[global] Instance value_eq_dec : EqDecision value.
Proof. solve_decision. Defined.

#[global] Instance value_inhabited : Inhabited value := populate VUndef.

(** The empty string, the content of a blank cell. *)
Definition blank : value := VStr EmptyString.

(** [a === b]: NaN is equal to nothing, itself included. *)
Definition strict_eq (a b : value) : bool :=
  match a with
  | VNaN => false
  | _ => bool_decide (a = b)
  end.

(** ToString, as used for property keys, [+=] on strings and template
    literals. *)
Definition to_string (v : value) : string :=
  match v with
  | VUndef => "undefined"
  | VNull => "null"
  | VBool true => "true"
  | VBool false => "false"
  | VNum z => pretty z
  | VStr s => s
  | VNaN => "NaN"
  end.

(** Truthiness, as tested by [if (value)]. *)
Definition truthy (v : value) : bool :=
  match v with
  | VUndef | VNull => false
  | VBool b => b
  | VNum z => negb (Z.eqb z 0)
  | VStr s => negb (bool_decide (s = EmptyString))
  | VNaN => false
  end.

(** StringToNumber on the integer literals: an optional sign followed by
    decimal digits; the empty string converts to 0. Any other text gives
    [None], a number equal to no integer: that is what the code gets for
    text that is no numeric literal, and it is not what the code gets for
    the other numeric literals (white space around the digits, a decimal
    point, an exponent, a hexadecimal, octal or binary literal). A
    statement that depends on the comparison of a number or a boolean
    with a text assumes [integer_text] of the text. *)
Definition digit_of (a : ascii) : option Z :=
  let n := nat_of_ascii a in
  if (48 <=? n) && (n <=? 57) then Some (Z.of_nat (n - 48)) else None.

Fixpoint digits_to_Z (acc : Z) (s : string) : option Z :=
  match s with
  | EmptyString => Some acc
  | String a rest =>
      match digit_of a with
      | Some d => digits_to_Z (acc * 10 + d)%Z rest
      | None => None
      end
  end.

Definition string_to_number (s : string) : option Z :=
  match s with
  | EmptyString => Some 0%Z
  | String "-"%char (String a rest) => Z.opp <$> digits_to_Z 0 (String a rest)
  | String "+"%char (String a rest) => digits_to_Z 0 (String a rest)
  | _ => digits_to_Z 0 s
  end.

(** The texts [string_to_number] converts as the code does: the empty
    string, or an optional sign followed by one to fifteen decimal digits
    (an integer of so many digits is a number without rounding). *)
Definition integer_text (s : string) : bool :=
  match s with
  | EmptyString => true
  | String "-"%char (String a rest) | String "+"%char (String a rest) =>
      bool_decide (is_Some (digits_to_Z 0 (String a rest)))
      && (String.length (String a rest) <=? 15)
  | _ => bool_decide (is_Some (digits_to_Z 0 s)) && (String.length s <=? 15)
  end.

(** [a == b], the abstract equality comparison; NaN is equal to nothing. *)
Definition loose_eq (a b : value) : bool :=
  match a, b with
  | VUndef, VUndef | VUndef, VNull | VNull, VUndef | VNull, VNull => true
  | VBool x, VBool y => bool_decide (x = y)
  | VNum x, VNum y => Z.eqb x y
  | VStr x, VStr y => bool_decide (x = y)
  | VNum x, VStr s | VStr s, VNum x =>
      match string_to_number s with Some y => Z.eqb x y | None => false end
  | VBool x, VNum y | VNum y, VBool x => Z.eqb (Z.b2z x) y
  | VBool x, VStr s | VStr s, VBool x =>
      match string_to_number s with Some y => Z.eqb (Z.b2z x) y | None => false end
  | _, _ => false
  end.

(** [a != b] *)
Definition loose_neq (a b : value) : bool := negb (loose_eq a b).

(** A pair of values on which [loose_eq] is the comparison of the code:
    when one is a number or a boolean and the other a text, the text is an
    integer literal. *)
Definition comparable (a b : value) : bool :=
  match a, b with
  | VNum _, VStr s | VStr s, VNum _ | VBool _, VStr s | VStr s, VBool _ => integer_text s
  | _, _ => true
  end.

(** ** Exceptions *)

Inductive error : Type :=
  | ErrWrongColumn (n : nat)
  | ErrNoKeys
  | ErrKeysEmpty
  | ErrKeysNotUnique
  | ErrKeyNotNumber (key : string)
  | ErrKeyNegative (key : string)
  | ErrKeysImmutable
  | ErrNoSuchKey (key : string)
  | ErrInvalidKeys
  | ErrHashExists (hash : string)
  | ErrTypeError
  | ErrRange
  | ErrSortDirection (direction : string).

Inductive result (A : Type) : Type :=
  | Ok (a : A)
  | Err (e : error).
Arguments Ok {A} a.
Arguments Err {A} e.

Definition is_ok {A} (r : result A) : bool :=
  match r with Ok _ => true | Err _ => false end.

Definition rbind {A B} (r : result A) (f : A -> result B) : result B :=
  match r with Ok a => f a | Err e => Err e end.

(** ** Objects with observable enumeration order *)

Section Obj.
Context {A : Type}.

(** [obj[k]] *)
Fixpoint obj_get (k : string) (o : list (string * A)) : option A :=
  match o with
  | [] => None
  | (k', a) :: o' => if decide (k = k') then Some a else obj_get k o'
  end.

(** [k in obj] *)
Definition obj_has (k : string) (o : list (string * A)) : bool :=
  match obj_get k o with Some _ => true | None => false end.

(** [obj[k] = a]: an existing property keeps its place, a new one goes
    last. *)
Fixpoint obj_set (k : string) (a : A) (o : list (string * A)) : list (string * A) :=
  match o with
  | [] => [(k, a)]
  | (k', a') :: o' =>
      if decide (k = k') then (k', a) :: o' else (k', a') :: obj_set k a o'
  end.

(** [Object.values(obj)] *)
Definition obj_values (o : list (string * A)) : list A := o.*2.

(** [Object.keys(obj)] *)
Definition obj_keys (o : list (string * A)) : list string := o.*1.
End Obj.

(** ** Column letters *)

(** [String.fromCharCode(64 + n)] *)
Definition fromCharCode64 (n : nat) : ascii := ascii_of_nat (64 + n).

(** The [do ... while (columnNumber > 0)] loop of [letter]. The quotient
    by 26 of a positive number is smaller than the number, so fuel equal to
    the number is never exhausted. *)
Fixpoint letter_loop (fuel columnNumber : nat) (str : string) : string :=
  match fuel with
  | 0 => str
  | S fuel' =>
      let remain := columnNumber mod 26 in
      let columnNumber' := columnNumber / 26 in
      let str' := String (fromCharCode64 remain) str in
      if 0 <? columnNumber' then letter_loop fuel' columnNumber' str' else str'
  end.

Definition letter (columnNumber : nat) : result string :=
  if columnNumber <? 1 then Err (ErrWrongColumn columnNumber)
  else if columnNumber <? 27
       then Ok (String (fromCharCode64 columnNumber) EmptyString)
       else Ok (letter_loop columnNumber columnNumber EmptyString).

(** The spreadsheet's own column label: bijective base 26 over A..Z. It is
    the reference against which [letter] is compared. *)
Fixpoint column_label_go (fuel n : nat) (acc : string) : string :=
  match fuel with
  | 0 => acc
  | S fuel' =>
      match n with
      | 0 => acc
      | S m => column_label_go fuel' (m / 26) (String (ascii_of_nat (65 + m mod 26)) acc)
      end
  end.

Definition column_label (n : nat) : string := column_label_go n n EmptyString.

(** The number a column label stands for in A1 notation; [None] when the
    text is not a label. *)
Definition a1_digit (a : ascii) : option nat :=
  let n := nat_of_ascii a in
  if (65 <=? n) && (n <=? 90) then Some (n - 64) else None.

Fixpoint a1_column_go (acc : nat) (s : string) : option nat :=
  match s with
  | EmptyString => Some acc
  | String a rest =>
      match a1_digit a with
      | Some d => a1_column_go (acc * 26 + d) rest
      | None => None
      end
  end.

Definition a1_column (s : string) : option nat :=
  match s with
  | EmptyString => None
  | _ => a1_column_go 0 s
  end.

(** ** Field schema given explicitly *)

(** What a caller may put as an offset in an explicit mapping: a finite
    number, NaN, or a value whose [typeof] is not [number]. *)
Inductive offset_value : Type :=
  | OffNum (q : Q)
  | OffNaN
  | OffNotNumber.

(** [typeof v != 'number'] *)
Definition not_a_number_type (v : offset_value) : bool :=
  match v with OffNotNumber => true | _ => false end.

(** [v < 0]; any comparison with NaN is false. *)
Definition below_zero (v : offset_value) : bool :=
  match v with OffNum q => negb (Qle_bool 0 q) | _ => false end.

(** The [keys] constructor parameter: an array of names or a mapping. *)
Inductive keys_input : Type :=
  | KeysArray (names : list string)
  | KeysObject (mapping : list (string * offset_value)).

(** The [for] loop over an array of names: position becomes offset. *)
Fixpoint keys_of_array (i : nat) (names : list string)
    (keysObject : list (string * offset_value)) : result (list (string * offset_value)) :=
  match names with
  | [] => Ok keysObject
  | name :: rest =>
      if obj_has name keysObject then Err ErrKeysNotUnique
      else keys_of_array (S i) rest
             (obj_set name (OffNum (inject_Z (Z.of_nat i))) keysObject)
  end.

(** The [for (key in keys)] loop over a mapping. *)
Fixpoint check_mapping (mapping : list (string * offset_value)) : result unit :=
  match mapping with
  | [] => Ok tt
  | (key, v) :: rest =>
      if not_a_number_type v then Err (ErrKeyNotNumber key)
      else if below_zero v then Err (ErrKeyNegative key)
      else check_mapping rest
  end.

(** [_validateAndSetKeys]: the result is the object installed as the
    read-only [keys] property. *)
Definition _validateAndSetKeys (keys : keys_input) : result (list (string * offset_value)) :=
  match keys with
  | KeysArray names =>
      match names with
      | [] => Err ErrKeysEmpty
      | _ => keys_of_array 0 names []
      end
  | KeysObject mapping =>
      match mapping with
      | [] => Err ErrKeysEmpty
      | _ => rbind (check_mapping mapping) (fun _ => Ok mapping)
      end
  end.

(** An offset is a non-negative integer. *)
Definition nonneg_integer (v : offset_value) : Prop :=
  match v with
  | OffNum q => exists n : nat, (q == inject_Z (Z.of_nat n))%Q
  | _ => False
  end.

(** An offset is of number type and not below zero. *)
Definition number_not_negative (v : offset_value) : Prop :=
  match v with
  | OffNum q => (0 <= q)%Q
  | OffNaN => True
  | OffNotNumber => False
  end.

(** [letter] agrees with the spreadsheet's label at [n]. *)
Definition letter_agrees (n : nat) : bool :=
  match letter n with
  | Ok s => bool_decide (s = column_label n)
  | Err _ => false
  end.

(** ** The hosting medium *)

(** Mutating calls a sheet receives. *)
Inductive medium_call : Type :=
  | SetValues (row col : nat) (values : list (list value))
  | InsertRowsAfter (row count : nat)
  | InsertRowsBefore (row count : nat)
  | DeleteRows (row count : nat).

(** Modelled from the spec: the hosting grid medium (the Apps Script
    [Sheet]) is an external collaborator whose code is not part of the
    repository. Per the boundary contract, cells are addressed by 1-based
    row and column, a write overwrites the addressed block, rows can be
    inserted and deleted, and an absent value is represented by the empty
    string. [cells r] lists the cells of row [r] from column 1; a cell
    beyond the end of the list is blank. [calls] records the mutating
    calls received, oldest first. *)
Record sheet : Type := mkSheet {
  maxRows : nat;
  cells : nat -> list value;
  calls : list medium_call;
}.

(** What a read reports for a stored cell: absent values read as the empty
    string. *)
Definition cell_norm (v : value) : value :=
  match v with
  | VUndef | VNull => blank
  | _ => v
  end.

Definition read_cell (sh : sheet) (r c : nat) : value :=
  match c with
  | 0 => blank
  | S j => cell_norm (default blank (cells sh r !! j))
  end.

(** [getSheetValues(row, col, numRows, numCols)] *)
Definition getSheetValues (sh : sheet) (row col numRows numCols : nat) : list (list value) :=
  (fun r => (fun c => read_cell sh r c) <$> seq col numCols) <$> seq row numRows.

Definition row_has_content (cs : list value) : bool :=
  existsb (fun v => negb (strict_eq (cell_norm v) blank)) cs.

Fixpoint find_last_row (sh : sheet) (n : nat) : nat :=
  match n with
  | 0 => 0
  | S k => if row_has_content (cells sh (S k)) then S k else find_last_row sh k
  end.

(** [getLastRow()]: the last row that has content, 0 on a blank sheet. *)
Definition getLastRow (sh : sheet) : nat := find_last_row sh (maxRows sh).

(** Overwrite [vs] into a row of cells, starting at 0-based position [j]. *)
Definition overwrite_cells (j : nat) (vs cs : list value) : list value :=
  take j (cs ++ replicate (j - length cs) blank) ++ vs ++ drop (j + length vs) cs.

(** [getRange(row, col, h, w).setValues(values)] *)
Definition setValues (sh : sheet) (row col : nat) (values : list (list value)) : sheet :=
  {| maxRows := maxRows sh;
     cells := fun r =>
       if (row <=? r) && (r <? row + length values)
       then overwrite_cells (col - 1) (default [] (values !! (r - row))) (cells sh r)
       else cells sh r;
     calls := calls sh ++ [SetValues row col values] |}.

(** [insertRowsAfter(row, count)] *)
Definition insertRowsAfter (sh : sheet) (row count : nat) : sheet :=
  {| maxRows := maxRows sh + count;
     cells := fun r =>
       if r <=? row then cells sh r
       else if r <=? row + count then []
       else cells sh (r - count);
     calls := calls sh ++ [InsertRowsAfter row count] |}.

(** [insertRowsBefore(row, count)] *)
Definition insertRowsBefore (sh : sheet) (row count : nat) : sheet :=
  {| maxRows := maxRows sh + count;
     cells := fun r =>
       if r <? row then cells sh r
       else if r <? row + count then []
       else cells sh (r - count);
     calls := calls sh ++ [InsertRowsBefore row count] |}.

(** [deleteRows(row, count)] *)
Definition deleteRows (sh : sheet) (row count : nat) : sheet :=
  {| maxRows := maxRows sh - count;
     cells := fun r => if r <? row then cells sh r else cells sh (r + count);
     calls := calls sh ++ [DeleteRows row count] |}.

(** A direct edit of one row by somebody else (for instance of the header
    row); it is not a call of the store. *)
Definition edit_row (sh : sheet) (row : nat) (cs : list value) : sheet :=
  {| maxRows := maxRows sh;
     cells := fun r => if decide (r = row) then cs else cells sh r;
     calls := calls sh |}.

(** ** Records and the store *)

(** A record: own properties by name. *)
Abbreviation item := (gmap string value).

(** The field schema ([this.keys]): field name to zero-based offset, in
    enumeration order. *)
Abbreviation keymap := (list (string * nat)).

(** [item[key]]; a missing property reads as [undefined]. *)
Definition prop (it : item) (key : string) : value := default VUndef (it !! key).

(** [key in item] *)
Definition has_prop (it : item) (key : string) : bool := bool_decide (is_Some (it !! key)).

(** The [row] property as a number, when it is one. *)
Definition item_row (it : item) : option Z :=
  match it !! "row" with
  | Some (VNum z) => Some z
  | _ => None
  end.

(** [new DBItem()] *)
Definition new_DBItem : item := {[ "row" := VUndef ]}.

(** A store instance. [frozen_keys] is the [keys] property installed by
    [_initOnce] when the constructor received explicit keys (together with
    the throwing [resetKeys]); [_keys] and [_values] are the lazily filled
    caches behind the getters [keys] and [values]. The caches [_dbItems]
    and [_rowsEmptyStatuses] are filled from [values] and dropped together
    with it, so they are computed from [_values] wherever they are read. *)
Record store : Type := mkStore {
  keysRow : nat;
  dataRowFirst : nat;
  frozen_keys : option keymap;
  _keys : option keymap;
  _values : option (list (list value));
  the_sheet : sheet;
}.

Definition with_keys (st : store) (k : option keymap) : store :=
  {| keysRow := keysRow st; dataRowFirst := dataRowFirst st;
     frozen_keys := frozen_keys st; _keys := k; _values := _values st;
     the_sheet := the_sheet st |}.

Definition with_values (st : store) (v : option (list (list value))) : store :=
  {| keysRow := keysRow st; dataRowFirst := dataRowFirst st;
     frozen_keys := frozen_keys st; _keys := _keys st; _values := v;
     the_sheet := the_sheet st |}.

Definition with_sheet (st : store) (sh : sheet) : store :=
  {| keysRow := keysRow st; dataRowFirst := dataRowFirst st;
     frozen_keys := frozen_keys st; _keys := _keys st; _values := _values st;
     the_sheet := sh |}.

(** Methods of the store: they may throw, and they may change the store;
    what a method changed before it threw stays changed. *)
Definition M (A : Type) : Type := store -> result A * store.

#[global] Instance M_ret : MRet M := fun A a st => (Ok a, st).
#[global] Instance M_bind : MBind M := fun A B f m st =>
  match m st with
  | (Ok a, st') => f a st'
  | (Err e, st') => (Err e, st')
  end.

Definition throw {A} (e : error) : M A := fun st => (Err e, st).
Definition lift {A} (r : result A) : M A := fun st => (r, st).
Definition get_store : M store := fun st => (Ok st, st).
Definition fill_values (v : list (list value)) : M unit :=
  fun st => (Ok tt, with_values st (Some v)).
Definition on_sheet (f : sheet -> sheet) : M unit :=
  fun st => (Ok tt, with_sheet st (f (the_sheet st))).

(** *** Schema discovery *)

(** The [reduce] over the header row: a truthy cell names a field at its
    index. *)
Fixpoint header_reduce (index : nat) (cs : list value) (acc : keymap) : keymap :=
  match cs with
  | [] => acc
  | v :: rest =>
      header_reduce (S index) rest
        (if truthy v then obj_set (to_string v) index acc else acc)
  end.

(** [_isItemHasData] on a schema object, whose values are indices and so
    never null: some property other than [row] exists. *)
Definition _isItemHasData_keys (km : keymap) : bool :=
  existsb (fun kv => negb (bool_decide (kv.1 = "row"))) km.

(** [_getKeysFromSheet] *)
Definition _getKeysFromSheet (st : store) : result keymap :=
  let header := cell_norm <$> cells (the_sheet st) (keysRow st) in
  let keys := header_reduce 0 header [] in
  if _isItemHasData_keys keys then Ok keys else Err ErrNoKeys.

(** The getter [keys]. *)
Definition keys : M keymap := fun st =>
  match frozen_keys st with
  | Some km => (Ok km, st)
  | None =>
      match _keys st with
      | Some km => (Ok km, st)
      | None =>
          match _getKeysFromSheet st with
          | Ok km => (Ok km, with_keys st (Some km))
          | Err e => (Err e, st)
          end
      end
  end.

(** The schema of a store is resolved to [km]: installed by the
    constructor, or discovered and cached. *)
Definition resolved (st : store) (km : keymap) : Prop :=
  frozen_keys st = Some km \/ (frozen_keys st = None /\ _keys st = Some km).

(** [resetKeys]: replaced by a throwing function once explicit keys are
    installed. *)
Definition resetKeys : M unit := fun st =>
  match frozen_keys st with
  | Some _ => (Err ErrKeysImmutable, st)
  | None => (Ok tt, with_keys st None)
  end.

(** [resetCache] *)
Definition resetCache : M unit := fun st => (Ok tt, with_values st None).

(** [lastDataColumn]: the largest [keysColumns] entry, offset plus one. *)
Definition lastDataColumn_of (km : keymap) : nat :=
  foldr Nat.max 0 ((fun kv => S kv.2) <$> km).

(** [_filterKeysFrom(ignoreKeys)] *)
Definition _filterKeysFrom (km : keymap) (ignoreKeys : list string) : keymap :=
  filter (fun kv => kv.1 ∉ ignoreKeys) km.

(** [_checkKeys] on one name and on an array of names. *)
Definition check_key (km : keymap) (key : string) : result unit :=
  if obj_has key km then Ok tt else Err (ErrNoSuchKey key).

Fixpoint check_key_list (km : keymap) (ks : list string) : result unit :=
  match ks with
  | [] => Ok tt
  | key :: rest => rbind (check_key km key) (fun _ => check_key_list km rest)
  end.

(** The [useKeys] argument: a name or an array of names. *)
Inductive use_keys : Type :=
  | UseKey (key : string)
  | UseKeyArray (ks : list string).

Definition _checkKeys (km : keymap) (u : use_keys) : result unit :=
  match u with
  | UseKey key => check_key km key
  | UseKeyArray [] => Err ErrInvalidKeys
  | UseKeyArray ks => check_key_list km ks
  end.

(** [[useKeys].flat()] *)
Definition use_keys_flat (u : use_keys) : list string :=
  match u with UseKey key => [key] | UseKeyArray ks => ks end.

(** The hash of a record over several fields: the first value, then each
    further value appended after a bar. *)
Definition hash_concat (it : item) (k0 : string) (rest : list string) : value :=
  VStr (foldl (fun hash key => hash +:+ "|" +:+ to_string (prop it key))
              (to_string (prop it k0)) rest).

(** [_getKeysHashFunction] *)
Definition _getKeysHashFunction (km : keymap) (u : use_keys) : result (item -> value) :=
  rbind (_checkKeys km u) (fun _ =>
    match u with
    | UseKey key => Ok (fun it => prop it key)
    | UseKeyArray [key] => Ok (fun it => prop it key)
    | UseKeyArray (k0 :: rest) => Ok (fun it => hash_concat it k0 rest)
    | UseKeyArray [] => Err ErrInvalidKeys
    end).

(** *** Materialization *)

(** The getter [values]: one read of the region from [dataRowFirst] down,
    between the columns named by [letter]. *)
Definition values : M (list (list value)) := fun st =>
  match _values st with
  | Some v => (Ok v, st)
  | None =>
      (km ← keys;
       first ← lift (letter 1);
       last ← lift (letter (lastDataColumn_of km));
       match a1_column first, a1_column last with
       | Some c1, Some c2 =>
           st' ← get_store;
           let v := getSheetValues (the_sheet st') (dataRowFirst st') c1
                      (S (maxRows (the_sheet st')) - dataRowFirst st') (S c2 - c1) in
           fill_values v;;
           mret v
       | _, _ => throw ErrRange
       end) st
  end.

(** The loop [for (key in keys) item[key] = values[keys[key]]]. *)
Definition fill_item (km : keymap) (cs : list value) (it : item) : item :=
  foldl (fun acc kv => <[kv.1 := default VUndef (cs !! kv.2)]> acc) it km.

(** One element of [dbItems]. *)
Definition dbItem_of (km : keymap) (firstRow i : nat) (cs : list value) : item :=
  <["row" := VNum (Z.of_nat (i + firstRow))]> (fill_item km cs new_DBItem).

(** The array built by the getter [dbItems] from [values]. *)
Definition dbItems_of (km : keymap) (firstRow : nat) (vals : list (list value)) : list item :=
  imap (dbItem_of km firstRow) vals.

(** [_rowsEmptyStatuses] *)
Definition rowsEmptyStatuses_of (vals : list (list value)) : list bool :=
  (fun row => forallb (fun v => strict_eq v blank) row) <$> vals.

(** The getter [dbItems]. *)
Definition dbItems : M (list item) :=
  vals ← values;
  km ← keys;
  st ← get_store;
  mret (dbItems_of km (dataRowFirst st) vals).

(** [_parseRowValuesToItem] *)
Definition _parseRowValuesToItem (cs : list value) (row : nat) (km : keymap) : item :=
  <["row" := VNum (Z.of_nat row)]>
    (foldl (fun acc kv =>
              let v := default VUndef (cs !! kv.2) in
              <[kv.1 := if strict_eq v blank then VNull else v]> acc)
           new_DBItem km).

(** *** Reading records *)

(** The options shared by the readers. [keyCB] and [itemCB] receive the
    hash as the hash function returned it. *)
Record read_options : Type := mkReadOptions {
  filterCB : option (item -> bool);
  itemCB : option (item -> value -> item);
  keyCB : option (value -> value);
  ignoreKeys : option (list string);
}.

Definition no_read_options : read_options :=
  {| filterCB := None; itemCB := None; keyCB := None; ignoreKeys := None |}.

(** The record handed out for a cached [dbItem]: a copy of it, or, when
    [ignoreKeys] is given, a new record with the remaining fields and the
    row. *)
Definition output_item (km : keymap) (ignore : option (list string)) (dbItem : item) : item :=
  match ignore with
  | None => dbItem
  | Some ig =>
      <["row" := prop dbItem "row"]>
        (foldl (fun acc kv => <[kv.1 := prop dbItem kv.1]> acc) new_DBItem
               (_filterKeysFrom km ig))
  end.

Definition apply_keyCB (cb : option (value -> value)) (h : value) : value :=
  match cb with Some f => f h | None => h end.

(** The body of the loop of [getDataItemsObject] for one row. *)
Definition getDataItemsObject_step (km : keymap) (opts : read_options)
    (hashFunction : item -> value) (items : list (string * item))
    (entry : bool * item) : list (string * item) :=
  let '(rowEmpty, dbItem) := entry in
  if rowEmpty then items
  else if match filterCB opts with Some f => negb (f dbItem) | None => false end
  then items
  else
    let hashKey := apply_keyCB (keyCB opts) (hashFunction dbItem) in
    let it := output_item km (ignoreKeys opts) dbItem in
    let it' := match itemCB opts with Some f => f it hashKey | None => it end in
    obj_set (to_string hashKey) it' items.

(** The loop of [getDataItemsObject] over the cached rows. *)
Definition getDataItemsObject_from (km : keymap) (firstRow : nat)
    (vals : list (list value)) (opts : read_options)
    (hashFunction : item -> value) : list (string * item) :=
  foldl (getDataItemsObject_step km opts hashFunction) []
        (zip (rowsEmptyStatuses_of vals) (dbItems_of km firstRow vals)).

(** [getDataItemsObject] *)
Definition getDataItemsObject (useKeys : use_keys) (opts : read_options)
    : M (list (string * item)) :=
  km ← keys;
  vals ← values;
  st ← get_store;
  hashFunction ← lift (_getKeysHashFunction km useKeys);
  mret (getDataItemsObject_from km (dataRowFirst st) vals opts hashFunction).

(** [getDataItemsArray] *)
Definition getDataItemsArray (opts : read_options) : M (list item) :=
  km ← keys;
  vals ← values;
  st ← get_store;
  mret (omap (fun entry : bool * item =>
                let '(rowEmpty, dbItem) := entry in
                if rowEmpty then None
                else if match filterCB opts with Some f => negb (f dbItem) | None => false end
                then None
                else
                  let it := output_item km (ignoreKeys opts) dbItem in
                  Some (match itemCB opts with Some f => f it VUndef | None => it end))
             (zip (rowsEmptyStatuses_of vals) (dbItems_of km (dataRowFirst st) vals))).

(** [getDataItemByRow]: a direct read of one row. *)
Definition getDataItemByRow (row : nat) : M item :=
  km ← keys;
  st ← get_store;
  let cs := default [] (getSheetValues (the_sheet st) row 1 1 (lastDataColumn_of km) !! 0) in
  mret (_parseRowValuesToItem cs row km).

(** The loop of [_parseDataItemsArrayToObject]. *)
Fixpoint parse_items (hashFunction : item -> value) (cb : option (value -> value))
    (dataItems : list item) (dataItemsObject : list (string * item))
    : result (list (string * item)) :=
  match dataItems with
  | [] => Ok dataItemsObject
  | it :: rest =>
      let hashKey := to_string (apply_keyCB cb (hashFunction it)) in
      if obj_has hashKey dataItemsObject then Err (ErrHashExists hashKey)
      else parse_items hashFunction cb rest (obj_set hashKey it dataItemsObject)
  end.

(** [_parseDataItemsArrayToObject] *)
Definition _parseDataItemsArrayToObject (km : keymap) (dataItems : list item)
    (useKeys : use_keys) (cb : option (value -> value)) : result (list (string * item)) :=
  rbind (_getKeysHashFunction km useKeys) (fun hashFunction =>
    parse_items hashFunction cb dataItems []).

(** *** Writing records *)

(** A collection of records as the callers pass it: an array, or an object
    keyed by hash. *)
Inductive data_items : Type :=
  | ItemsArray (l : list item)
  | ItemsObject (o : list (string * item)).

(** The records of a collection, in enumeration order. *)
Definition items_list (d : data_items) : list item :=
  match d with ItemsArray l => l | ItemsObject o => obj_values o end.

(** One row of [_parseDataToArray]: a row of [defaultValue] with the fields
    the record has written at their offsets. Every offset of the schema is
    below [lastDataColumn], so no write falls outside the row. *)
Definition row_of_item (km : keymap) (defaultValue : value) (it : item) : list value :=
  foldl (fun row kv => if has_prop it kv.1 then <[kv.2 := prop it kv.1]> row else row)
        (replicate (lastDataColumn_of km) defaultValue) km.

(** [_parseDataToArray] *)
Definition _parseDataToArray (km : keymap) (dataItems : data_items) (defaultValue : value)
    : list (list value) :=
  row_of_item km defaultValue <$> items_list dataItems.

(** [_setValues]: nothing is written when the block has no row or no
    column. *)
Definition _setValues (row col : nat) (vals : list (list value)) : M bool :=
  match vals with
  | [] => mret false
  | [] :: _ => mret false
  | _ => on_sheet (fun sh => setValues sh row col vals);; mret true
  end.

(** The sort of JavaScript arrays with a comparator, as a stable insertion
    sort. When the comparator orders the elements strictly, every sorting
    algorithm returns this list. *)
Section Sort.
Context {A : Type} (cmp : A -> A -> Z).

Fixpoint sort_insert (x : A) (l : list A) : list A :=
  match l with
  | [] => [x]
  | y :: l' => if (cmp x y <=? 0)%Z then x :: y :: l' else y :: sort_insert x l'
  end.

Definition js_sort (l : list A) : list A := foldr sort_insert [] l.
End Sort.

(** A run of rows, as both chunked writers build it. *)
Record chunk : Type := mkChunk {
  firstRow : Z;
  lastRow : Z;
  indexes : list nat;
}.

(** The rows of an array of records; [None] when some record has no
    numeric row. *)
Definition rows_of (itemsArray : list item) : option (list Z) :=
  mapM item_row itemsArray.

(** The rows of the records that come before the first record whose row
    is not a number. Such a record opens a chunk of its own, since no
    difference with its row is 1, and the medium refuses the row of that
    chunk: the chunks before it are complete and are the chunks of these
    rows. *)
Fixpoint rows_while (itemsArray : list item) : list Z :=
  match itemsArray with
  | [] => []
  | it :: rest =>
      match item_row it with
      | Some z => z :: rows_while rest
      | None => []
      end
  end.

(** The loop of [_updateDataItemsByChunks] from index [i] on: [c] is the
    index of the chunk being extended. *)
Fixpoint update_chunks_loop (i : nat) (rows : list Z) (chunks : list chunk) (c : nat)
    : list chunk :=
  match rows with
  | [] => chunks
  | row :: rest =>
      let cur := default (mkChunk 0 0 []) (chunks !! c) in
      if negb (row - lastRow cur =? 1)%Z
      then update_chunks_loop (S i) rest (chunks ++ [mkChunk row row [i]]) (S c)
      else update_chunks_loop (S i) rest
             (<[c := mkChunk (firstRow cur) row (indexes cur ++ [i])]> chunks) c
  end.

Definition update_chunks (rows : list Z) : list chunk :=
  match rows with
  | [] => []
  | row0 :: rest => update_chunks_loop 1 rest [mkChunk row0 row0 [0]] 0
  end.

(** The second loop of [_updateDataItemsByChunks]: one write per chunk. *)
Fixpoint write_chunks (km : keymap) (itemsArray : list item) (chunks : list chunk) : M unit :=
  match chunks with
  | [] => mret tt
  | ch :: rest =>
      let chunkItems := omap (fun i => itemsArray !! i) (indexes ch) in
      let chunkItemsArray := _parseDataToArray km (ItemsArray chunkItems) VNull in
      _setValues (Z.to_nat (firstRow ch)) 1 chunkItemsArray;;
      write_chunks km itemsArray rest
  end.

(** [_updateDataItemsByChunks]; reading [itemsArray[0].row] of an empty
    array throws. When some record has no numeric row, the chunks before
    it are written and the write of its own chunk fails. *)
Definition _updateDataItemsByChunks (itemsArray : list item) : M unit :=
  match itemsArray with
  | [] => throw ErrTypeError
  | _ =>
      let rows := rows_while itemsArray in
      km ← keys;
      write_chunks km itemsArray (update_chunks rows);;
      if length rows <? length itemsArray then throw ErrTypeError else mret tt
  end.

(** The loop of [_deleteDataItemsByChunks], which walks the array from its
    end: [rows] are the rows still to visit, last visited first. *)
Fixpoint delete_chunks_loop (rows : list Z) (chunks : list chunk) (c : nat) : list chunk :=
  match rows with
  | [] => chunks
  | row :: rest =>
      let cur := default (mkChunk 0 0 []) (chunks !! c) in
      if negb (firstRow cur - row =? 1)%Z
      then delete_chunks_loop rest (chunks ++ [mkChunk row row []]) (S c)
      else delete_chunks_loop rest (<[c := mkChunk row (lastRow cur) []]> chunks) c
  end.

Definition delete_chunks (rows : list Z) : list chunk :=
  match reverse rows with
  | [] => []
  | row0 :: rest => delete_chunks_loop rest [mkChunk row0 row0 []] 0
  end.

(** The call issued for one chunk. *)
Definition delete_call (ch : chunk) : medium_call :=
  DeleteRows (Z.to_nat (firstRow ch)) (Z.to_nat (lastRow ch - firstRow ch + 1)).

Definition issue_delete (ch : chunk) : M unit :=
  on_sheet (fun sh => deleteRows sh (Z.to_nat (firstRow ch))
                        (Z.to_nat (lastRow ch - firstRow ch + 1))).

(** [_deleteDataItemsByChunks]; the array is walked from its end, so when
    some record has no numeric row, the chunks of the records after the
    last such record are deleted and the deletion of its own chunk
    fails. *)
Definition _deleteDataItemsByChunks (itemsArray : list item) : M unit :=
  match itemsArray with
  | [] => throw ErrTypeError
  | _ =>
      let rows := reverse (rows_while (reverse itemsArray)) in
      mapM issue_delete (delete_chunks rows);;
      if length rows <? length itemsArray then throw ErrTypeError else mret tt
  end.

(** The comparator [(a, b) => a.row > b.row ? 1 : -1]. *)
Definition cmp_row_gt (a b : item) : Z :=
  match item_row a, item_row b with
  | Some x, Some y => if (y <? x)%Z then 1%Z else (-1)%Z
  | _, _ => (-1)%Z
  end.

(** The comparator [(a, b) => a.row - b.row]; a non-numeric difference is
    NaN, which a sort treats as 0. *)
Definition cmp_row_minus (a b : item) : Z :=
  match item_row a, item_row b with
  | Some x, Some y => (x - y)%Z
  | _, _ => 0%Z
  end.

(** What a caller may pass where records obtained from the table are
    expected: an array, each element given with whether it is an instance
    of [DBItem]; an instance of [DBItemsObject]; or an object that is
    neither. *)
Inductive db_items : Type :=
  | DBItemsArray (l : list (bool * item))
  | DBItemsObject (o : list (string * item))
  | OtherObject (o : list (string * item)).

Inductive items_kind : Type := KindArray | KindObject.

(** [_checkDBItems] *)
Definition _checkDBItems (dataItems : db_items) : result items_kind :=
  match dataItems with
  | DBItemsObject _ => Ok KindObject
  | DBItemsArray l =>
      if existsb (fun e : bool * item => negb e.1) l then Err ErrTypeError else Ok KindArray
  | OtherObject _ => Err ErrTypeError
  end.

(** The records of such a collection: the array itself, or
    [Object.values] of the object. *)
Definition db_items_list (d : db_items) : list item :=
  match d with
  | DBItemsArray l => l.*2
  | DBItemsObject o | OtherObject o => obj_values o
  end.

(** An array of records read from the table. *)
Definition from_table (l : list item) : db_items := DBItemsArray ((fun it => (true, it)) <$> l).

(** [deleteDataItems] *)
Definition deleteDataItems (dbItems : db_items) : M unit :=
  lift (_checkDBItems dbItems);;
  let itemsArray := js_sort cmp_row_gt (db_items_list dbItems) in
  match itemsArray with
  | [] => mret tt
  | _ => _deleteDataItemsByChunks itemsArray;; resetCache
  end.

(** [insertDataItems], called with one argument: [defaultValue] is null
    and the rows are appended. *)
Definition insertDataItems (dataItems : data_items) : M unit :=
  km ← keys;
  let vals := _parseDataToArray km dataItems VNull in
  match vals with
  | [] => mret tt
  | _ =>
      st ← get_store;
      let lastRow := getLastRow (the_sheet st) in
      let first := dataRowFirst st in
      on_sheet (fun sh => insertRowsAfter sh (if lastRow <? first then first else lastRow)
                            (length vals));;
      _setValues (if lastRow <? first then first else lastRow + 1) 1 vals;;
      resetCache
  end.

(** The record [getDataItemByRow] materializes for a row under a schema. *)
Definition record_at (sh : sheet) (km : keymap) (row : nat) : item :=
  _parseRowValuesToItem
    (default [] (getSheetValues sh row 1 1 (lastDataColumn_of km) !! 0)) row km.

(** *** Point update *)

(** What [for (let key of controlKeys)] visits: the elements of an array,
    the characters of a string. *)
Fixpoint chars_of (s : string) : list string :=
  match s with
  | EmptyString => []
  | String a rest => String a EmptyString :: chars_of rest
  end.

Definition for_of (u : use_keys) : list string :=
  match u with UseKey s => chars_of s | UseKeyArray ks => ks end.

(** [[u ?? []].flat()] *)
Definition flat_opt (u : option use_keys) : list string :=
  match u with Some u' => use_keys_flat u' | None => [] end.

(** The control loop: [true] when some control field of the current record
    is not strictly equal to the caller's. *)
Definition control_mismatch (controlKeys : option use_keys) (current dataItem : item) : bool :=
  match controlKeys with
  | None => false
  | Some u => existsb (fun key => negb (strict_eq (prop current key) (prop dataItem key)))
                (for_of u)
  end.

(** The loop that copies the caller's fields over the current record. *)
Definition overwrite_fields (km : keymap) (current dataItem : item) : item :=
  foldl (fun cur kv => if has_prop dataItem kv.1 then <[kv.1 := prop dataItem kv.1]> cur else cur)
        current km.

(** [updateDataItemByRow] *)
Definition updateDataItemByRow (row : nat) (dataItem : item)
    (controlKeys ignoreKeys : option use_keys) : M bool :=
  currentDataItem ← getDataItemByRow row;
  if control_mismatch controlKeys currentDataItem dataItem then mret false
  else
    km ← keys;
    let fkeys := _filterKeysFrom km (flat_opt controlKeys ++ flat_opt ignoreKeys) in
    let currentDataItem' := overwrite_fields fkeys currentDataItem dataItem in
    let vals := _parseDataToArray km (ItemsArray [currentDataItem']) VNull in
    match item_row currentDataItem' with
    | None => throw ErrTypeError
    | Some r =>
        _setValues (Z.to_nat r) 1 vals;;
        resetCache;;
        mret true
    end.

(** *** Merge *)

Record merge_options : Type := mkMergeOptions {
  isUpdateCB : option (item -> item -> bool);
  updateCB : option (item -> item -> item);
  isDeleteCB : option (item -> bool);
  merge_filterCB : option (item -> bool);
  merge_keyCB : option (value -> value);
  merge_ignoreKeys : option (list string);
}.

Definition no_merge_options : merge_options :=
  {| isUpdateCB := None; updateCB := None; isDeleteCB := None;
     merge_filterCB := None; merge_keyCB := None; merge_ignoreKeys := None |}.

(** The default [isUpdateCB]. *)
Definition default_isUpdateCB (comparsionKeys : keymap) (c n : item) : bool :=
  existsb (fun kv => has_prop n kv.1 && loose_neq (prop c kv.1) (prop n kv.1)) comparsionKeys.

(** The default [updateCB]; the result is the current record after the
    assignments. *)
Definition default_updateCB (comparsionKeys : keymap) (c n : item) : item :=
  foldl (fun cur kv => if has_prop n kv.1 then <[kv.1 := prop n kv.1]> cur else cur)
        c comparsionKeys.

(** A field the default callbacks look at: a schema field outside
    [useKeys] and [ignoreKeys] that the incoming record [n] carries. *)
Definition carried_field (km : keymap) (useKeys : use_keys) (ignore : list string)
    (n : item) (key : string) : bool :=
  bool_decide (key ∈ km.*1) && bool_decide (key ∉ use_keys_flat useKeys ++ ignore)
  && has_prop n key.

(** The three sets and the three counters of a merge. *)
Record merge_state : Type := mkMergeState {
  currentItemsObj : list (string * item);
  itemsToUpdate : list (string * item);
  itemsToInsert : list (string * item);
  itemsToDelete : list (string * item);
  updated : nat;
  inserted : nat;
  deleted : nat;
}.

(** The body of [for (hash in dataItemsObj)]. *)
Definition merge_step (isUpd : item -> item -> bool) (upd : item -> item -> item)
    (ms : merge_state) (entry : string * item) : merge_state :=
  let '(hash, it) := entry in
  match obj_get hash (currentItemsObj ms) with
  | Some currentItem =>
      if isUpd currentItem it then
        let currentItem' := upd currentItem it in
        {| currentItemsObj := obj_set hash currentItem' (currentItemsObj ms);
           itemsToUpdate := obj_set hash currentItem' (itemsToUpdate ms);
           itemsToInsert := itemsToInsert ms;
           itemsToDelete := itemsToDelete ms;
           updated := S (updated ms); inserted := inserted ms; deleted := deleted ms |}
      else ms
  | None =>
      {| currentItemsObj := currentItemsObj ms;
         itemsToUpdate := itemsToUpdate ms;
         itemsToInsert := obj_set hash it (itemsToInsert ms);
         itemsToDelete := itemsToDelete ms;
         updated := updated ms; inserted := S (inserted ms); deleted := deleted ms |}
  end.

(** The body of [for (hash in currentItemsObj)] under [isDeleteCB]. *)
Definition delete_step (isDel : item -> bool) (dataItemsObj : list (string * item))
    (ms : merge_state) (entry : string * item) : merge_state :=
  let '(hash, currentItem) := entry in
  if negb (obj_has hash (itemsToUpdate ms)) && negb (obj_has hash dataItemsObj) then
    if isDel currentItem then
      {| currentItemsObj := currentItemsObj ms;
         itemsToUpdate := itemsToUpdate ms;
         itemsToInsert := itemsToInsert ms;
         itemsToDelete := obj_set hash currentItem (itemsToDelete ms);
         updated := updated ms; inserted := inserted ms; deleted := S (deleted ms) |}
    else ms
  else ms.

(** The two loops of [mergeDataItems]. *)
Definition merge_plan (comparsionKeys : keymap) (opts : merge_options)
    (current dataItemsObj : list (string * item)) : merge_state :=
  let isUpd := default (default_isUpdateCB comparsionKeys) (isUpdateCB opts) in
  let upd := default (default_updateCB comparsionKeys) (updateCB opts) in
  let ms := foldl (merge_step isUpd upd)
              (mkMergeState current [] [] [] 0 0 0) dataItemsObj in
  match isDeleteCB opts with
  | None => ms
  | Some isDel => foldl (delete_step isDel dataItemsObj) ms (currentItemsObj ms)
  end.

(** [dataItemsObj]: an object is taken as it is, an array is grouped by
    hash. *)
Definition incoming_object (km : keymap) (dataItems : data_items) (useKeys : use_keys)
    (cb : option (value -> value)) : result (list (string * item)) :=
  match dataItems with
  | ItemsObject o => Ok o
  | ItemsArray l => _parseDataItemsArrayToObject km l useKeys cb
  end.

(** The options [mergeDataItems] passes to [getDataItemsObject]. *)
Definition merge_read_options (opts : merge_options) : read_options :=
  {| filterCB := merge_filterCB opts; itemCB := None;
     keyCB := merge_keyCB opts; ignoreKeys := None |}.

(** [mergeDataItems] up to the point where the three sets are known. *)
Definition merge_sets (dataItems : data_items) (useKeys : use_keys) (opts : merge_options)
    : M merge_state :=
  current ← getDataItemsObject useKeys (merge_read_options opts);
  km ← keys;
  let comparsionKeys :=
    _filterKeysFrom km (use_keys_flat useKeys ++ default [] (merge_ignoreKeys opts)) in
  dataItemsObj ← lift (incoming_object km dataItems useKeys (merge_keyCB opts));
  mret (merge_plan comparsionKeys opts current dataItemsObj).

(** The counts [mergeDataItems] returns. *)
Record merge_counts : Type := mkCounts {
  n_updated : nat;
  n_inserted : nat;
  n_deleted : nat;
}.

(** [mergeDataItems] from the point where the three sets are known: the
    three bulk operations, the cache reset and the counts. *)
Definition merge_writes (ms : merge_state) : M merge_counts :=
  (if 0 <? updated ms
   then _updateDataItemsByChunks (js_sort cmp_row_minus (obj_values (itemsToUpdate ms)))
   else mret tt);;
  (if 0 <? inserted ms then insertDataItems (ItemsObject (itemsToInsert ms)) else mret tt);;
  (if 0 <? deleted ms then deleteDataItems (DBItemsObject (itemsToDelete ms)) else mret tt);;
  resetCache;;
  mret (mkCounts (updated ms) (inserted ms) (deleted ms)).

(** [mergeDataItems] *)
Definition mergeDataItems (dataItems : data_items) (useKeys : use_keys) (opts : merge_options)
    : M merge_counts :=
  ms ← merge_sets dataItems useKeys opts;
  merge_writes ms.

(** A schema of [n] fields at offsets [0 .. n-1]. *)
Definition wide_schema (n : nat) : keymap :=
  (fun i => (pretty i, i)) <$> seq 0 n.

(** ** Runs of consecutive rows *)

(** [a..b] is a maximal run of consecutive numbers of [rows]. *)
Definition maximal_run (rows : list Z) (a b : Z) : Prop :=
  (a <= b)%Z /\ (forall x, (a <= x)%Z -> (x <= b)%Z -> x ∈ rows) /\
  ((a - 1)%Z ∉ rows) /\ ((b + 1)%Z ∉ rows).

(** The number of maximal runs of the set of [rows]: the rows whose
    predecessor is not a row. *)
Definition run_count (rows : list Z) : nat :=
  length (filter (fun r => (r - 1)%Z ∉ rows) (remove_dups rows)).

(** The chunks the deletion loop builds, by recursion on the rows still to
    visit: [cur] is the chunk being extended. *)
Fixpoint group_desc (cur : chunk) (rows : list Z) : list chunk :=
  match rows with
  | [] => [cur]
  | row :: rest =>
      if negb (firstRow cur - row =? 1)%Z
      then cur :: group_desc (mkChunk row row []) rest
      else group_desc (mkChunk row (lastRow cur) []) rest
  end.

(** The chunks the update loop builds, by recursion on the rows still to
    visit: [i] is the index of the next row, [cur] the chunk being
    extended. *)
Fixpoint group_asc (i : nat) (cur : chunk) (rows : list Z) : list chunk :=
  match rows with
  | [] => [cur]
  | row :: rest =>
      if negb (row - lastRow cur =? 1)%Z
      then cur :: group_asc (S i) (mkChunk row row [i]) rest
      else group_asc (S i) (mkChunk (firstRow cur) row (indexes cur ++ [i])) rest
  end.

(** Sheet [sh'] is sheet [sh] after the records at the indices [lo] to
    [hi - 1] were written, each over the schema's columns of its own row;
    [nrows] lists the rows of the records. *)
Definition writes_rows (km : keymap) (items : list item) (nrows : list nat) (lo hi : nat)
    (sh sh' : sheet) : Prop :=
  maxRows sh' = maxRows sh /\
  forall r,
    (forall j it, lo <= j -> j < hi -> nrows !! j = Some r -> items !! j = Some it ->
       cells sh' r = row_of_item km VNull it ++ drop (lastDataColumn_of km) (cells sh r)) /\
    ((forall j, lo <= j -> j < hi -> nrows !! j <> Some r) -> cells sh' r = cells sh r).

(** Chunks in descending order, no two touching or overlapping. *)
Definition descending_chunks (chunks : list chunk) : Prop :=
  StronglySorted (fun a b => (lastRow b < firstRow a)%Z) chunks.

(** What the first loop of a merge maintains, [current0] being the current
    records at its start: the hashes of the current records stay, a hash
    goes to the insert set only when no current record has it and to the
    update set only when one has, a current record is the original one
    unless its hash is in the update set, and nothing is marked for
    deletion yet. *)
Definition merge_inv (current0 : list (string * item)) (ms : merge_state) : Prop :=
  (forall h, obj_has h (currentItemsObj ms) = obj_has h current0) /\
  (forall h, obj_has h (itemsToInsert ms) = true -> obj_has h current0 = false) /\
  (forall h, obj_has h (itemsToUpdate ms) = true -> obj_has h current0 = true) /\
  (forall h it, (h, it) ∈ currentItemsObj ms ->
     (h, it) ∈ current0 \/ obj_has h (itemsToUpdate ms) = true) /\
  itemsToDelete ms = [] /\ deleted ms = 0.

(** What the second loop of a merge maintains, [ms1] being the state at
    its start: only the delete set grows, and by current records whose
    hash is neither in the update set nor among the incoming records. *)
Definition delete_inv (dataItemsObj : list (string * item)) (ms1 ms : merge_state) : Prop :=
  currentItemsObj ms = currentItemsObj ms1 /\
  itemsToUpdate ms = itemsToUpdate ms1 /\
  itemsToInsert ms = itemsToInsert ms1 /\
  updated ms = updated ms1 /\ inserted ms = inserted ms1 /\
  (forall h it, (h, it) ∈ itemsToDelete ms ->
     (h, it) ∈ currentItemsObj ms1 /\ obj_has h (itemsToUpdate ms1) = false /\
     obj_has h dataItemsObj = false).

(** ** Rows of the data region *)

(** The row of a record as a natural number, 0 when it has none. *)
Definition row_nat (it : item) : nat :=
  match item_row it with
  | Some z => Z.to_nat z
  | None => 0
  end.

(** The cells of row [r] in the first [w] columns, as a read reports
    them. *)
Definition region_row (sh : sheet) (w r : nat) : list value :=
  read_cell sh r <$> seq 1 w.

(** The element of [dbItems] for row [r] holding the cells [cs]. *)
Definition row_record (km : keymap) (r : nat) (cs : list value) : item :=
  <["row" := VNum (Z.of_nat r)]> (fill_item km cs new_DBItem).

(** The flag of [_rowsEmptyStatuses] for a row. *)
Definition row_is_empty (cs : list value) : bool :=
  forallb (fun v => strict_eq v blank) cs.

(** The last row among [d .. d+n-1] that satisfies [m]. *)
Fixpoint find_row (m : nat -> bool) (d n : nat) : option nat :=
  match n with
  | 0 => None
  | S n' => if m (d + n') then Some (d + n') else find_row m d n'
  end.

(** Row [r] of the sheet is not empty and its record hashes to [h]. *)
Definition row_matches (km : keymap) (hashFunction : item -> value) (sh : sheet)
    (h : string) (r : nat) : bool :=
  let cs := region_row sh (lastDataColumn_of km) r in
  negb (row_is_empty cs) && bool_decide (to_string (hashFunction (row_record km r cs)) = h).

(** ** Well-formed schemas, stores and incoming records *)

(** The field names of a schema. *)
Definition field_names (km : keymap) : list string := km.*1.

(** The column number [n] is one [letter] names correctly. *)
Definition addressable (n : nat) : bool :=
  match letter n with
  | Ok s => bool_decide (a1_column s = Some n)
  | Err _ => false
  end.

(** A schema as the store assumes it: some field, no field twice, no
    column twice, no field named [row], and a last column that [letter]
    names correctly. *)
Definition well_formed_schema (km : keymap) : bool :=
  bool_decide (km <> []) && bool_decide (NoDup km.*1) && bool_decide (NoDup km.*2)
  && bool_decide ("row" ∉ km.*1) && addressable (lastDataColumn_of km).

(** The cached values, if any, are those of the sheet. *)
Definition cache_coherent (st : store) (km : keymap) : bool :=
  match _values st with
  | None => true
  | Some v =>
      bool_decide (v = getSheetValues (the_sheet st) (dataRowFirst st) 1
                         (S (maxRows (the_sheet st)) - dataRowFirst st)
                         (lastDataColumn_of km))
  end.

(** An incoming record that a merge can find again after writing it: it
    carries every key field, none of the schema fields it carries is
    null, undefined or NaN, and some schema field it carries is not the
    empty string. *)
Definition well_formed_incoming (km : keymap) (useKeys : use_keys) (n : item) : bool :=
  forallb (has_prop n) (use_keys_flat useKeys)
  && forallb (fun k => implb (has_prop n k)
                         (bool_decide (cell_norm (prop n k) = prop n k)
                          && negb (bool_decide (prop n k = VNaN))))
       km.*1
  && existsb (fun k => has_prop n k && negb (bool_decide (prop n k = blank))) km.*1.

(** ** Sample stores *)

(** Build a record from its properties. *)
Definition record (props : list (string * value)) : item := list_to_map props.

(** A sheet with the header [sku], [qty] in row 1 and the given data rows
    from row 2 on. *)
Definition sample_sheet (data : list (list value)) : sheet :=
  {| maxRows := S (length data);
     cells := fun r =>
       match r with
       | 0 => []
       | 1 => [VStr "sku"; VStr "qty"]
       | S (S i) => default [] (data !! i)
       end;
     calls := [] |}.

(** A store over [sample_sheet] that discovers its schema from row 1. *)
Definition sample_store (data : list (list value)) : store :=
  {| keysRow := 1; dataRowFirst := 2; frozen_keys := None;
     _keys := None; _values := None; the_sheet := sample_sheet data |}.

(** ** Further operations of the store *)

(** The names every object inherits from [Object.prototype]. The test
    [name in object] finds them in an object that does not own them; the
    embedding keeps own properties only, so a statement that depends on
    [in] over names the caller chooses assumes they are none of these. *)
Definition object_prototype_names : list string :=
  ["constructor"; "__defineGetter__"; "__defineSetter__"; "hasOwnProperty";
   "__lookupGetter__"; "__lookupSetter__"; "isPrototypeOf"; "propertyIsEnumerable";
   "toString"; "valueOf"; "__proto__"; "toLocaleString"].

(** A parameter with a default: [undefined] stands for the default. *)
Definition default_param (v d : value) : value :=
  match v with VUndef => d | _ => v end.

(** [getDataItems] *)
Definition getDataItems (opts : read_options) : M (list item) :=
  getDataItemsArray opts.

(** [insertDataItems] with all its parameters: the rows go before the
    first data row when [growUp] is set, after the last row with content
    otherwise. *)
Definition insertDataItems_with (dataItems : data_items) (defaultValue : value)
    (growUp : bool) : M unit :=
  km ← keys;
  let vals := _parseDataToArray km dataItems (default_param defaultValue VNull) in
  match vals with
  | [] => mret tt
  | _ =>
      st ← get_store;
      let first := dataRowFirst st in
      (if growUp then
         on_sheet (fun sh => insertRowsBefore sh first (length vals));;
         _setValues first 1 vals
       else
         let lastRow := getLastRow (the_sheet st) in
         on_sheet (fun sh => insertRowsAfter sh (if lastRow <? first then first else lastRow)
                               (length vals));;
         _setValues (if lastRow <? first then first else lastRow + 1) 1 vals);;
      resetCache
  end.

(** [insertDataItem] *)
Definition insertDataItem (dataItem : item) (defaultValue : value) (growUp : bool) : M unit :=
  insertDataItems_with (ItemsArray [dataItem]) defaultValue growUp.

(** [insert]: its default value is the empty string. *)
Definition insert (dataItems : data_items) (defaultValue : value) (growUp : bool) : M unit :=
  insertDataItems_with dataItems (default_param defaultValue blank) growUp.

(** [_fit]: the sheet is cut or extended so that [dataRowsNum] rows lie
    between the first data row and the row before the last one. The
    arithmetic is that of the source, on integers. *)
Definition _fit (dataRowsNum : nat) (growUp : bool) : M unit :=
  st ← get_store;
  let maxRowIndex := (Z.of_nat (maxRows (the_sheet st)) - 1)%Z in
  let difference :=
    ((maxRowIndex - Z.of_nat (dataRowFirst st) + 1) - Z.of_nat dataRowsNum)%Z in
  if negb (difference =? 0)%Z then
    (if (0 <? difference)%Z
     then on_sheet (fun sh => deleteRows sh (Z.to_nat (maxRowIndex - difference + 1))
                                (Z.to_nat difference))
     else if growUp
          then on_sheet (fun sh => insertRowsBefore sh (dataRowFirst st)
                                     (Z.to_nat (- difference)))
          else on_sheet (fun sh => insertRowsAfter sh (Z.to_nat maxRowIndex)
                                     (Z.to_nat (- difference))));;
    resetCache
  else mret tt.

(** [replaceData]: the sheet is resized before the schema is read for the
    rows to write. *)
Definition replaceData (dataItems : data_items) (defaultValue : value) : M unit :=
  _fit (length (items_list dataItems)) false;;
  km ← keys;
  st ← get_store;
  _setValues (dataRowFirst st) 1
    (_parseDataToArray km dataItems (default_param defaultValue VNull));;
  resetCache.

(** No digit of [n] written in base 26 is zero; [fuel] bounds the number
    of digits. *)
Fixpoint digits26_nonzero_go (fuel n : nat) : bool :=
  match fuel with
  | 0 => true
  | S fuel' =>
      negb (n mod 26 =? 0)
      && (if 0 <? n / 26 then digits26_nonzero_go fuel' (n / 26) else true)
  end.

Definition digits26_nonzero (n : nat) : bool := digits26_nonzero_go n n.

(** None of the names is one that every object inherits. *)
Definition plain_names (names : list string) : bool :=
  forallb (fun n => bool_decide (n ∉ object_prototype_names)) names.

(** How many of the [rows] lie above row [r] on the sheet, that is, have a
    smaller number. *)
Definition rows_below (rows : list Z) (r : nat) : nat :=
  length (filter (fun x => (x < Z.of_nat r)%Z) rows).

(** The records the update loop takes for a chunk, [chunk.indexes.map(i =>
    itemsArray[i])]. *)
Definition chunk_items (itemsArray : list item) (ch : chunk) : list item :=
  omap (fun i => itemsArray !! i) (indexes ch).

(** The write the update loop issues for a chunk. *)
Definition write_call (km : keymap) (itemsArray : list item) (ch : chunk) : medium_call :=
  SetValues (Z.to_nat (firstRow ch)) 1
    (_parseDataToArray km (ItemsArray (chunk_items itemsArray ch)) VNull).

(** Chunks in ascending order, no two touching or overlapping. *)
Definition ascending_chunks (chunks : list chunk) : Prop :=
  StronglySorted (fun a b => (lastRow a < firstRow b)%Z) chunks.

(** The records of the chunk are those of its rows, one for each row from
    the first to the last, in this order. *)
Definition holds_run (itemsArray : list item) (ch : chunk) : Prop :=
  Forall2 (fun it t => item_row it = Some (firstRow ch + Z.of_nat t)%Z)
          (chunk_items itemsArray ch)
          (seq 0 (Z.to_nat (lastRow ch - firstRow ch + 1))).

(** The getters derived from [keys]. Their caches are dropped together
    with the one of [keys], so they are computed from it wherever they are
    read. *)
Definition keysColumns : M (list (string * nat)) :=
  km ← keys; mret ((fun kv : string * nat => (kv.1, S kv.2)) <$> km).

Definition keysLetters : M (list (string * string)) :=
  km ← keys;
  mapM (fun kv : string * nat => s ← lift (letter (S kv.2)); mret (kv.1, s)) km.

Definition keysArray : M (list string) :=
  km ← keys; mret (obj_keys km).

Definition lastDataColumn : M nat :=
  km ← keys; mret (lastDataColumn_of km).

(** [getDataItemByRow] with its options: the fields named in [ignoreKeys]
    are left out of the record, and [itemCB] has the last word on it. *)
Definition getDataItemByRow_with (row : nat) (ignoreKeys : option use_keys)
    (itemCB : option (item -> item)) : M item :=
  km ← keys;
  let fkeys := match ignoreKeys with
               | None => km
               | Some u => _filterKeysFrom km (use_keys_flat u)
               end in
  st ← get_store;
  let cs := default [] (getSheetValues (the_sheet st) row 1 1 (lastDataColumn_of km) !! 0) in
  let it := _parseRowValuesToItem cs row fkeys in
  mret (match itemCB with Some f => f it | None => it end).

(** ** Methods that call the medium outside the boundary contract *)

(** [clearContent], [sort] and [insertCheckboxes] of a range are calls of
    the medium that the boundary contract does not describe. What each of
    them does to the sheet is therefore an argument of the method that
    issues it, and a statement about such a method holds for every
    effect the call may have. A range is given as the method gives it: in
    A1 notation, or by its first row, first column, number of rows and
    number of columns. *)
Record range_calls : Type := mkRangeCalls {
  range_clearContent : string -> sheet -> sheet;
  range_sort : nat -> nat -> Z -> nat -> list (nat * bool) -> sheet -> sheet;
  range_insertCheckboxes : nat -> nat -> Z -> sheet -> sheet;
}.

(** [clearData] *)
Definition clearData (medium : range_calls) : M unit :=
  km ← keys;
  first ← lift (letter 1);
  last ← lift (letter (lastDataColumn_of km));
  st ← get_store;
  on_sheet (range_clearContent medium
              (first +:+ to_string (VNum (Z.of_nat (dataRowFirst st))) +:+ ":" +:+ last));;
  resetCache.

(** The loop of [sort] over [sortOptions], an object from field names to
    directions: each name is checked against the schema and each
    direction against asc and desc; the result lists the columns, counted
    from the first data column, with their directions. *)
Fixpoint sortSpecObj (km : keymap) (sortOptions : list (string * value))
    : result (list (nat * bool)) :=
  match sortOptions with
  | [] => Ok []
  | (key, direction) :: rest =>
      rbind (check_key km key) (fun _ =>
      if loose_neq direction (VStr "asc") && loose_neq direction (VStr "desc")
      then Err (ErrSortDirection (to_string direction))
      else
        rbind (sortSpecObj km rest) (fun spec =>
        Ok ((S (default 0 (obj_get key km)), loose_eq direction (VStr "asc")) :: spec)))
  end.

(** [sort] *)
Definition sort (medium : range_calls) (sortOptions : list (string * value)) : M unit :=
  km ← keys;
  spec ← lift (sortSpecObj km sortOptions);
  st ← get_store;
  on_sheet (range_sort medium (dataRowFirst st) 1
              (Z.of_nat (maxRows (the_sheet st)) - Z.of_nat (dataRowFirst st))%Z
              (lastDataColumn_of km) spec);;
  resetCache.

(** [insertCheckboxes]: one call of the medium for each key, on the column
    of the key from the first data row down. *)
Definition insertCheckboxes (medium : range_calls) (u : use_keys) : M unit :=
  match use_keys_flat u with
  | [] => throw ErrInvalidKeys
  | ks =>
      km ← keys;
      lift (check_key_list km ks);;
      mapM (fun key =>
              st ← get_store;
              on_sheet (range_insertCheckboxes medium (dataRowFirst st)
                          (S (default 0 (obj_get key km)))
                          (Z.of_nat (maxRows (the_sheet st)) - Z.of_nat (dataRowFirst st))%Z))
           ks;;
      resetCache
  end.

(** [setFormats]: with [formats = undefined], the constructor default, it
    returns at once. *)
Definition setFormats : M unit := mret tt.

(** The line feed. *)
Definition line_feed : string := String (ascii_of_nat 10) EmptyString.

(** [Array.prototype.join] *)
Fixpoint join (separator : string) (l : list string) : string :=
  match l with
  | [] => EmptyString
  | [s] => s
  | s :: rest => s +:+ separator +:+ join separator rest
  end.

(** [generateTypeDef], with [headersRow = undefined], the constructor
    default: no description follows a property. [sheetName] is the name
    the store was built with. *)
Definition generateTypeDef (sheetName : string) (itemName : option string) : M string :=
  km ← keys;
  let types :=
    omap (fun kv : string * nat =>
            if truthy (VStr kv.1) then Some (" * @property { any } " +:+ kv.1 +:+ " - ")
            else None) km in
  mret ("/** @typedef {Object} " +:+ default (sheetName +:+ "Item") itemName +:+ line_feed
        +:+ join line_feed types +:+ line_feed +:+ "*/").

(** ** The lifetime of a store *)

(** What can happen to a store between two reads of its schema: a call of
    one of its methods or getters, or an edit of a row of the sheet by
    somebody else. The methods are those embedded here, which is every
    method of the class but [updateDataItems]: that one changes the cached
    records in place, and the store here keeps no records, only the values
    they are made from. *)
Inductive operation : Type :=
  | CallKeys
  | CallKeysColumns
  | CallKeysLetters
  | CallKeysArray
  | CallLastDataColumn
  | CallValues
  | CallDbItems
  | CallGetDataItems (opts : read_options)
  | CallGetDataItemsArray (opts : read_options)
  | CallGetDataItemsObject (useKeys : use_keys) (opts : read_options)
  | CallGetDataItemByRow (row : nat) (ignoreKeys : option use_keys)
      (itemCB : option (item -> item))
  | CallInsertDataItems (dataItems : data_items) (defaultValue : value) (growUp : bool)
  | CallInsertDataItem (dataItem : item) (defaultValue : value) (growUp : bool)
  | CallInsert (dataItems : data_items) (defaultValue : value) (growUp : bool)
  | CallReplaceData (dataItems : data_items) (defaultValue : value)
  | CallDeleteDataItems (dbItems : db_items)
  | CallUpdateDataItemsByChunks (itemsArray : list item)
  | CallDeleteDataItemsByChunks (itemsArray : list item)
  | CallFit (dataRowsNum : nat) (growUp : bool)
  | CallSetValues (row col : nat) (vals : list (list value))
  | CallUpdateDataItemByRow (row : nat) (dataItem : item) (controlKeys ignoreKeys : option use_keys)
  | CallMergeDataItems (dataItems : data_items) (useKeys : use_keys) (opts : merge_options)
  | CallClearData (medium : range_calls)
  | CallSort (medium : range_calls) (sortOptions : list (string * value))
  | CallInsertCheckboxes (medium : range_calls) (keys : use_keys)
  | CallSetFormats
  | CallGenerateTypeDef (sheetName : string) (itemName : option string)
  | CallLetter (columnNumber : nat)
  | CallResetCache
  | CallResetKeys
  | EditRow (row : nat) (cs : list value).

(** The store after an operation, whether the call returned or threw. *)
Definition run (op : operation) (st : store) : store :=
  match op with
  | CallKeys => (keys st).2
  | CallKeysColumns => (keysColumns st).2
  | CallKeysLetters => (keysLetters st).2
  | CallKeysArray => (keysArray st).2
  | CallLastDataColumn => (lastDataColumn st).2
  | CallValues => (values st).2
  | CallDbItems => (dbItems st).2
  | CallGetDataItems opts => (getDataItems opts st).2
  | CallGetDataItemsArray opts => (getDataItemsArray opts st).2
  | CallGetDataItemsObject u opts => (getDataItemsObject u opts st).2
  | CallGetDataItemByRow row ignoreKeys itemCB =>
      (getDataItemByRow_with row ignoreKeys itemCB st).2
  | CallInsertDataItems d dv growUp => (insertDataItems_with d dv growUp st).2
  | CallInsertDataItem it dv growUp => (insertDataItem it dv growUp st).2
  | CallInsert d dv growUp => (insert d dv growUp st).2
  | CallReplaceData d dv => (replaceData d dv st).2
  | CallDeleteDataItems d => (deleteDataItems d st).2
  | CallUpdateDataItemsByChunks l => (_updateDataItemsByChunks l st).2
  | CallDeleteDataItemsByChunks l => (_deleteDataItemsByChunks l st).2
  | CallFit n growUp => (_fit n growUp st).2
  | CallSetValues row col vals => (_setValues row col vals st).2
  | CallUpdateDataItemByRow row it ck ik => (updateDataItemByRow row it ck ik st).2
  | CallMergeDataItems d u opts => (mergeDataItems d u opts st).2
  | CallClearData medium => (clearData medium st).2
  | CallSort medium sortOptions => (sort medium sortOptions st).2
  | CallInsertCheckboxes medium u => (insertCheckboxes medium u st).2
  | CallSetFormats => (setFormats st).2
  | CallGenerateTypeDef sheetName itemName => (generateTypeDef sheetName itemName st).2
  | CallLetter n => (lift (letter n) st).2
  | CallResetCache => (resetCache st).2
  | CallResetKeys => (resetKeys st).2
  | EditRow row cs => with_sheet st (edit_row (the_sheet st) row cs)
  end.

Definition run_all (ops : list operation) (st : store) : store :=
  foldl (fun s op => run op s) st ops.

Definition is_resetKeys (op : operation) : bool :=
  match op with CallResetKeys => true | _ => false end.

(** A method that never touches the installed schema and never drops or
    replaces a cached one. *)
Definition keeps_schema {A} (m : M A) : Prop :=
  forall st,
    frozen_keys (m st).2 = frozen_keys st /\
    (forall km, _keys st = Some km -> _keys (m st).2 = Some km).

(** The names an object of records inherits: the members of the class
    [DBItemsObject] and those every object inherits. The test [hash in
    object] finds them in an object that does not own them. *)
Definition dbItemsObject_prototype_names : list string :=
  ["filter"; "forEach"; "length"; "map"; "reduce"] ++ object_prototype_names.

(** None of the hashes is a name an object of records inherits. *)
Definition plain_hashes (hashes : list string) : bool :=
  forallb (fun h => bool_decide (h ∉ dbItemsObject_prototype_names)) hashes.

(** The hash of a record under [useKeys] and [keyCB], as the name of a
    property. *)
Definition hash_key (hashFunction : item -> value) (cb : option (value -> value))
    (n : item) : string :=
  to_string (apply_keyCB cb (hashFunction n)).

(** A collection whose records are found by their hash: an array, which a
    merge groups by hash itself, or an object in which every record is
    kept under its hash. *)
Definition keyed_by_hash (hashFunction : item -> value) (cb : option (value -> value))
    (d : data_items) : Prop :=
  match d with
  | ItemsArray _ => True
  | ItemsObject o => Forall (fun kv : string * item => kv.1 = hash_key hashFunction cb kv.2) o
  end.

(** The names under which a merge keeps the incoming records. *)
Definition incoming_hashes (hashFunction : item -> value) (cb : option (value -> value))
    (d : data_items) : list string :=
  match d with
  | ItemsArray l => hash_key hashFunction cb <$> l
  | ItemsObject o => obj_keys o
  end.

(** ** A row of the sheet, cell by cell *)

(** Modelled from the spec: the value of the property [key] of the record
    that lives on [row], told from the cells alone. The reserved property
    [row] is the row number; a field of the schema is the cell at its
    column, one-based offset plus one, with the empty cell read as the
    absent marker null; any other property is undefined. *)
Definition read_field (sh : sheet) (km : keymap) (row : nat) (key : string) : value :=
  if decide (key = "row") then VNum (Z.of_nat row)
  else match obj_get key km with
       | Some off =>
           if bool_decide (read_cell sh row (S off) = blank) then VNull
           else read_cell sh row (S off)
       | None => VUndef
       end.

(** Some control field of the row is not strictly equal ([!==]) to the
    caller's. *)
Definition control_differs (sh : sheet) (km : keymap) (row : nat) (dataItem : item)
    (controlKeys : list string) : bool :=
  existsb (fun key => negb (strict_eq (read_field sh km row key) (prop dataItem key)))
          controlKeys.

(** ** Values a loose comparison may meet *)

(** Every comparison the default [isUpdateCB] makes between the current
    record [c] and the incoming record [n] is between [comparable]
    values. *)
Definition comparable_records (km : keymap) (useKeys : use_keys) (ignore : list string)
    (c n : item) : bool :=
  forallb (fun key => implb (carried_field km useKeys ignore n key)
                        (comparable (prop c key) (prop n key))) km.*1.

(** The same for every incoming record that has a current record under
    its hash. *)
Definition comparable_sets (km : keymap) (useKeys : use_keys) (ignore : list string)
    (current incoming : list (string * item)) : bool :=
  forallb (fun kv : string * item =>
             match obj_get kv.1 current with
             | Some c => comparable_records km useKeys ignore c kv.2
             | None => true
             end) incoming.

(** ** More sample stores *)

(** A store over a sheet whose header row names [sku] in column 1 and
    [qty] in column 3, with a note in column 2 of the data row. *)
Definition gap_store : store :=
  {| keysRow := 1; dataRowFirst := 2; frozen_keys := None;
     _keys := None; _values := None;
     the_sheet :=
       {| maxRows := 2;
          cells := fun r =>
            match r with
            | 1 => [VStr "sku"; blank; VStr "qty"]
            | 2 => [VStr "A"; VStr "note"; VNum 5]
            | _ => []
            end;
          calls := [] |} |}.

(** A store whose schema was given as the mapping [sku] to 0, [row] to 1,
    over a sheet with two data rows. *)
Definition row_field_store : store :=
  {| keysRow := 1; dataRowFirst := 2; frozen_keys := Some [("sku", 0); ("row", 1)];
     _keys := Some [("sku", 0); ("row", 1)]; _values := None;
     the_sheet :=
       {| maxRows := 3;
          cells := fun r =>
            match r with
            | 1 => [VStr "sku"; VStr "row"]
            | 2 => [VStr "A"; VStr "x"]
            | 3 => [VStr "B"; VStr "y"]
            | _ => []
            end;
          calls := [] |} |}.

(** * Properties *)

(** ** Column letters *)

(** Up to column 51 [letter] returns the spreadsheet's label. *)
Lemma letter_standard_below_52 (n : nat) :
  1 <= n -> n < 52 -> letter n = Ok (column_label n).
Proof.
  intros H1 H2.
  assert (Hall : forallb letter_agrees (seq 1 51) = true) by (vm_compute; reflexivity).
  rewrite forallb_forall in Hall.
  specialize (Hall n). unfold letter_agrees in Hall.
  destruct (letter n) as [s|e].
  - f_equal. eapply bool_decide_eq_true_1, Hall. apply in_seq. lia.
  - discriminate Hall. apply in_seq. lia.
Qed.

(** C10. The column-number-to-letter conversion does not return the
    spreadsheet label for every column: for column 52 it returns the text
    B@ where the label is AZ, the text is not a column label at all, and
    the cached full-region read of a store whose schema is 52 columns wide
    fails on it. *)
Theorem letter_52_is_not_a_label :
  letter 52 = Ok "B@" /\
  column_label 52 = "AZ" /\
  a1_column "B@" = None /\
  forall sh, (values (mkStore 1 2 (Some (wide_schema 52)) None None sh)).1 = Err ErrRange.
Proof.
  repeat split; try (vm_compute; reflexivity).
Qed.

(** ** Objects *)

Section ObjFacts.
Context {A : Type}.
Implicit Types (o : list (string * A)) (k : string) (a : A).

Lemma obj_get_set_eq k a o : obj_get k (obj_set k a o) = Some a.
Proof.
  induction o as [|[k' a'] o IH]; simpl.
  - by rewrite decide_True.
  - destruct (decide (k = k')) as [->|Hne]; simpl.
    + by rewrite decide_True.
    + by rewrite decide_False.
Qed.

Lemma obj_get_set_ne k k' a o : k <> k' -> obj_get k' (obj_set k a o) = obj_get k' o.
Proof.
  intros Hne. induction o as [|[k1 a1] o IH]; simpl.
  - rewrite decide_False; [done | congruence].
  - destruct (decide (k = k1)) as [->|Hne1]; simpl.
    + rewrite !decide_False; [done | congruence | congruence].
    + destruct (decide (k' = k1)); [done | apply IH].
Qed.

Lemma obj_get_set k k' a o :
  obj_get k' (obj_set k a o) = if decide (k = k') then Some a else obj_get k' o.
Proof.
  destruct (decide (k = k')) as [->|Hne].
  - apply obj_get_set_eq.
  - by apply obj_get_set_ne.
Qed.

Lemma obj_has_set k k' a o :
  obj_has k' (obj_set k a o) = bool_decide (k = k') || obj_has k' o.
Proof.
  unfold obj_has. rewrite obj_get_set.
  destruct (decide (k = k')) as [->|Hne].
  - by rewrite bool_decide_eq_true_2.
  - by rewrite bool_decide_eq_false_2.
Qed.

Lemma obj_get_Some_elem k a o : obj_get k o = Some a -> (k, a) ∈ o.
Proof.
  induction o as [|[k' a'] o IH]; simpl; [done|].
  destruct (decide (k = k')) as [->|Hne].
  - intros [= ->]. apply list_elem_of_here.
  - intros H. apply list_elem_of_further, IH, H.
Qed.

Lemma obj_has_names k o : obj_has k o = true <-> k ∈ o.*1.
Proof.
  unfold obj_has. induction o as [|[k' a'] o IH]; simpl.
  - split; [done | by intros ?%elem_of_nil].
  - destruct (decide (k = k')) as [->|Hne].
    + split; [intros _; apply list_elem_of_here | done].
    + rewrite IH. split.
      * apply list_elem_of_further.
      * intros [?|?]%elem_of_cons; [done | done].
Qed.

Lemma obj_set_names k a o :
  forall k', k' ∈ (obj_set k a o).*1 <-> k' = k \/ k' ∈ o.*1.
Proof.
  intros k'. rewrite <- !obj_has_names, obj_has_set.
  rewrite orb_true_iff, bool_decide_eq_true.
  split; (intros [H|H]; [left; congruence | by right]).
Qed.

Lemma obj_set_NoDup k a o : NoDup o.*1 -> NoDup (obj_set k a o).*1.
Proof.
  induction o as [|[k' a'] o IH]; simpl; intros Hnd.
  - apply NoDup_singleton.
  - apply NoDup_cons in Hnd as [Hni Hnd].
    destruct (decide (k = k')) as [->|Hne]; simpl.
    + by apply NoDup_cons.
    + apply NoDup_cons. split; [|by apply IH].
      rewrite obj_set_names. intros [Heq|Hin]; [congruence | done].
Qed.

Lemma obj_get_elem_NoDup k a o : NoDup o.*1 -> (k, a) ∈ o -> obj_get k o = Some a.
Proof.
  induction o as [|[k' a'] o IH]; simpl; intros Hnd Hin.
  - by apply elem_of_nil in Hin.
  - apply NoDup_cons in Hnd as [Hni Hnd].
    apply elem_of_cons in Hin as [[= <- <-]|Hin].
    + by rewrite decide_True.
    + rewrite decide_False; [by apply IH|].
      intros <-. apply Hni. apply list_elem_of_fmap. by exists (k, a).
Qed.
End ObjFacts.

(** ** Explicit schemas *)

Lemma keys_of_array_not_unique names : forall i acc,
  ~ NoDup names \/ (exists n, n ∈ names /\ obj_has n acc = true) ->
  keys_of_array i names acc = Err ErrKeysNotUnique.
Proof.
  induction names as [|name rest IH]; intros i acc H.
  - destruct H as [H | (n & Hn & _)].
    + destruct H. apply NoDup_nil_2.
    + by apply elem_of_nil in Hn.
  - simpl. destruct (obj_has name acc) eqn:Hhas; [done|].
    apply IH.
    destruct (decide (name ∈ rest)) as [Hin|Hnin].
    { right. exists name. split; [done|]. rewrite obj_has_set.
      by rewrite bool_decide_eq_true_2. }
    destruct H as [H | (n & Hn & Hacc)].
    + left. intros Hnd. apply H. by apply NoDup_cons.
    + right. apply elem_of_cons in Hn as [->|Hn]; [congruence|].
      exists n. split; [done|]. rewrite obj_has_set, Hacc. apply orb_true_r.
Qed.

Lemma check_mapping_ok mapping :
  is_ok (check_mapping mapping) = true <->
  Forall (fun kv => number_not_negative kv.2) mapping.
Proof.
  induction mapping as [|[key v] rest IH]; simpl.
  - split; [intros _; apply Forall_nil_2 | done].
  - rewrite Forall_cons. simpl. destruct v as [q| |]; simpl.
    + destruct (Qle_bool 0 q) eqn:Hq; simpl.
      * rewrite IH. apply Qle_bool_iff in Hq. tauto.
      * split; [done|]. intros [Hle _]. apply Qle_bool_iff in Hle. congruence.
    + rewrite IH. tauto.
    + split; [done | tauto].
Qed.

(** C9, as the code has it. A list of names with a duplicate is rejected;
    a mapping is accepted exactly when it is not empty and every offset is
    of number type and not below zero. Nothing requires an offset to be an
    integer. *)
Theorem validateAndSetKeys_checks :
  (forall names, ~ NoDup names ->
     _validateAndSetKeys (KeysArray names) = Err ErrKeysNotUnique) /\
  (forall mapping,
     is_ok (_validateAndSetKeys (KeysObject mapping)) = true <->
     mapping <> [] /\ Forall (fun kv => number_not_negative kv.2) mapping).
Proof.
  split.
  - intros names Hdup. destruct names as [|n rest].
    + destruct Hdup. apply NoDup_nil_2.
    + unfold _validateAndSetKeys. apply keys_of_array_not_unique. by left.
  - intros mapping. destruct mapping as [|kv rest].
    + simpl. split; [done | by intros [? _]].
    + unfold _validateAndSetKeys. rewrite <- check_mapping_ok.
      destruct (check_mapping (kv :: rest)); simpl; split; try done.
      by intros [_ ?].
Qed.

Lemma validateAndSetKeys_checks_witness :
  _validateAndSetKeys (KeysArray ["sku"; "qty"; "sku"]) = Err ErrKeysNotUnique.
Proof.
  apply (proj1 validateAndSetKeys_checks).
  intros Hnd. apply NoDup_cons in Hnd as [Hni _]. apply Hni. set_solver.
Defined.

(** C9, counterexample: the mapping that sends [a] to the offset 3/2 is
    accepted although 3/2 is not a non-negative integer. *)
Lemma fractional_offset_accepted :
  let mapping := [("a", OffNum (3 # 2)%Q)] in
  ~ Forall (fun kv => nonneg_integer kv.2) mapping /\
  _validateAndSetKeys (KeysObject mapping) = Ok mapping.
Proof.
  split; [|reflexivity].
  intros H. apply Forall_cons in H as [[n Hn] _].
  unfold Qeq in Hn. simpl in Hn. lia.
Qed.

(** ** Materialization *)

(** C7, at the failing input: the data row holds an empty cell under [sku]
    and 5 under [qty]. The cached read behind get-all and get-grouped hands
    the empty string through as the field value, while the direct read of
    the same row turns it into null. *)
Theorem cached_read_keeps_empty_string :
  let st := sample_store [[VStr EmptyString; VNum 5]] in
  (getDataItemsArray no_read_options st).1
    = Ok [record [("sku", VStr EmptyString); ("qty", VNum 5); ("row", VNum 2)]] /\
  (getDataItemsObject (UseKey "qty") no_read_options st).1
    = Ok [("5", record [("sku", VStr EmptyString); ("qty", VNum 5); ("row", VNum 2)])] /\
  (getDataItemByRow 2 st).1
    = Ok (record [("sku", VNull); ("qty", VNum 5); ("row", VNum 2)]).
Proof.
  repeat split; vm_compute; reflexivity.
Qed.

(** ** Grouping by hash *)

(** C1, at the failing input: the grid holds two records with the same
    [sku]. Grouping the current records returns normally with one record
    under the hash, the one of row 3, and the record of row 2 is gone;
    grouping the same two records as an incoming array throws. *)
Theorem grouping_current_records_overwrites :
  let st := sample_store [[VStr "A"; VNum 1]; [VStr "A"; VNum 2]] in
  let first := record [("sku", VStr "A"); ("qty", VNum 1); ("row", VNum 2)] in
  let second := record [("sku", VStr "A"); ("qty", VNum 2); ("row", VNum 3)] in
  (getDataItemsArray no_read_options st).1 = Ok [first; second] /\
  (getDataItemsObject (UseKey "sku") no_read_options st).1 = Ok [("A", second)] /\
  _parseDataItemsArrayToObject [("sku", 0); ("qty", 1)] [first; second] (UseKey "sku") None
    = Err (ErrHashExists "A").
Proof.
  repeat split; vm_compute; reflexivity.
Qed.

Lemma parse_items_collision (hashFunction : item -> value) cb (l : list item) :
  forall acc,
    let hk := fun it => to_string (apply_keyCB cb (hashFunction it)) in
    ~ NoDup (hk <$> l) \/ (exists it, it ∈ l /\ obj_has (hk it) acc = true) ->
    exists h, parse_items hashFunction cb l acc = Err (ErrHashExists h).
Proof.
  induction l as [|x rest IH]; intros acc hk H.
  - destruct H as [H | (it & Hit & _)].
    + destruct H. apply NoDup_nil_2.
    + by apply elem_of_nil in Hit.
  - simpl. fold (hk x). destruct (obj_has (hk x) acc) eqn:Hhas; [by eexists|].
    apply IH. fold hk.
    destruct (decide (hk x ∈ hk <$> rest)) as [Hin|Hnin].
    { right. apply list_elem_of_fmap in Hin as (it & Heq & Hit).
      exists it. split; [done|]. fold (hk it). rewrite obj_has_set, Heq.
      by rewrite bool_decide_eq_true_2. }
    destruct H as [H | (it & Hit & Hacc)].
    + left. intros Hnd. apply H. rewrite fmap_cons. by apply NoDup_cons.
    + right. apply elem_of_cons in Hit as [->|Hit]; [congruence|].
      exists it. split; [done|]. fold (hk it). rewrite obj_has_set, Hacc. apply orb_true_r.
Qed.

(** Grouping an incoming array in which two records have the same hash
    throws. *)
Lemma parseDataItemsArrayToObject_collision km dataItems useKeys cb hashFunction :
  _getKeysHashFunction km useKeys = Ok hashFunction ->
  ~ NoDup ((fun it => to_string (apply_keyCB cb (hashFunction it))) <$> dataItems) ->
  exists h, _parseDataItemsArrayToObject km dataItems useKeys cb = Err (ErrHashExists h).
Proof.
  intros Hhf Hdup. unfold _parseDataItemsArrayToObject. rewrite Hhf. simpl.
  apply parse_items_collision. by left.
Qed.

(** ** Sorting by row *)

Lemma rows_of_nil : rows_of [] = Some [].
Proof. reflexivity. Qed.

Lemma rows_of_cons x l :
  rows_of (x :: l) =
  match item_row x, rows_of l with
  | Some r, Some rs => Some (r :: rs)
  | _, _ => None
  end.
Proof.
  unfold rows_of. simpl. destruct (item_row x); simpl; [|done].
  by destruct (mapM item_row l).
Qed.

#[local] Arguments rows_of : simpl never.

Lemma sort_insert_rows x r t : forall s,
  item_row x = Some r -> rows_of t = Some s ->
  StronglySorted Z.lt s -> r ∉ s ->
  exists s', rows_of (sort_insert cmp_row_gt x t) = Some s' /\
             s' ≡ₚ r :: s /\ StronglySorted Z.lt s'.
Proof.
  induction t as [|y t IH]; intros s Hx Ht Hs Hr.
  - rewrite rows_of_nil in Ht. injection Ht as <-. exists [r]. simpl.
    rewrite rows_of_cons, Hx, rows_of_nil. repeat split; [done|].
    repeat constructor.
  - rewrite rows_of_cons in Ht.
    destruct (item_row y) as [ry|] eqn:Hy; [|done].
    destruct (rows_of t) as [st|] eqn:Hst; [|done].
    injection Ht as <-. simpl.
    apply StronglySorted_inv in Hs as [Hs Hall].
    apply not_elem_of_cons in Hr as [Hne Hr].
    unfold cmp_row_gt at 1. rewrite Hx, Hy.
    destruct (ry <? r)%Z eqn:Hlt; simpl.
    + apply Z.ltb_lt in Hlt.
      destruct (IH st Hx eq_refl Hs Hr) as (s' & Hs' & Hperm & Hsorted).
      exists (ry :: s'). rewrite rows_of_cons, Hy, Hs'. split; [done|]. split.
      * rewrite Hperm. apply Permutation_swap.
      * constructor; [done|]. rewrite Hperm. constructor; [done | done].
    + apply Z.ltb_ge in Hlt.
      exists (r :: ry :: st). rewrite !rows_of_cons, Hx, Hy, Hst.
      split; [done|]. split; [done|].
      constructor; [by constructor|].
      constructor; [lia|].
      eapply Forall_impl; [exact Hall|]. simpl. lia.
Qed.

Lemma js_sort_rows l : forall rows,
  rows_of l = Some rows -> NoDup rows ->
  exists s, rows_of (js_sort cmp_row_gt l) = Some s /\ s ≡ₚ rows /\ StronglySorted Z.lt s.
Proof.
  induction l as [|x l IH]; intros rows Hrows Hnd.
  - rewrite rows_of_nil in Hrows. injection Hrows as <-. exists []. simpl.
    rewrite rows_of_nil. repeat split; [done | constructor].
  - rewrite rows_of_cons in Hrows.
    destruct (item_row x) as [r|] eqn:Hx; [|done].
    destruct (rows_of l) as [rs|] eqn:Hl; [|done].
    injection Hrows as <-. apply NoDup_cons in Hnd as [Hni Hnd].
    destruct (IH rs eq_refl Hnd) as (s & Hs & Hperm & Hsorted).
    simpl.
    destruct (sort_insert_rows x r _ s Hx Hs Hsorted) as (s' & Hs' & Hperm' & Hsorted').
    { by rewrite Hperm. }
    exists s'. split; [done|]. split; [|done].
    by rewrite Hperm', Hperm.
Qed.

(** When every record has a numeric row, the rows the chunked writers
    take are all the rows. *)
Lemma rows_while_of l : forall rows,
  rows_of l = Some rows -> rows_while l = rows /\ length rows = length l.
Proof.
  induction l as [|x l IH]; intros rows Hrows.
  - rewrite rows_of_nil in Hrows. by injection Hrows as <-.
  - rewrite rows_of_cons in Hrows. simpl.
    destruct (item_row x) as [r|]; [|done].
    destruct (rows_of l) as [rs|]; [|done]. injection Hrows as <-.
    destruct (IH rs eq_refl) as [-> Hlen]. simpl. by rewrite Hlen.
Qed.

Lemma rows_of_reverse l rows :
  rows_of l = Some rows -> rows_of (reverse l) = Some (reverse rows).
Proof.
  unfold rows_of. intros Hrows. apply mapM_Some_2, Forall2_reverse.
  by apply mapM_Some_1.
Qed.

Lemma rows_while_reverse l rows :
  rows_of l = Some rows ->
  reverse (rows_while (reverse l)) = rows /\ length rows = length l.
Proof.
  intros Hrows. destruct (rows_while_of _ _ (rows_of_reverse _ _ Hrows)) as [-> Hlen].
  rewrite reverse_involutive. split; [done|].
  by rewrite !length_reverse in Hlen.
Qed.

(** ** Chunked deletion *)

Lemma delete_chunks_loop_spec rows : forall pre cur,
  delete_chunks_loop rows (pre ++ [cur]) (length pre) = pre ++ group_desc cur rows.
Proof.
  induction rows as [|row rest IH]; intros pre cur; simpl; [done|].
  rewrite list_lookup_middle by done. simpl.
  destruct (negb (firstRow cur - row =? 1)%Z).
  - replace (S (length pre)) with (length (pre ++ [cur])) by (rewrite length_app; simpl; lia).
    rewrite IH. by rewrite <- app_assoc.
  - rewrite insert_app_r_alt by done. rewrite Nat.sub_diag. simpl. apply IH.
Qed.

Lemma group_desc_props (L : list Z) rows : forall cur,
  StronglySorted Z.gt (firstRow cur :: rows) ->
  (firstRow cur <= lastRow cur)%Z ->
  (forall x, (firstRow cur <= x)%Z -> (x <= lastRow cur)%Z -> x ∈ L) ->
  (lastRow cur + 1)%Z ∉ L ->
  (forall x, x ∈ L -> (x < firstRow cur)%Z -> x ∈ rows) ->
  (forall x, x ∈ rows -> x ∈ L) ->
  Forall (fun ch => maximal_run L (firstRow ch) (lastRow ch)) (group_desc cur rows) /\
  descending_chunks (group_desc cur rows) /\
  Forall (fun ch => (lastRow ch <= lastRow cur)%Z) (group_desc cur rows) /\
  (forall x, x ∈ L -> (x <= lastRow cur)%Z ->
     exists ch, ch ∈ group_desc cur rows /\ (firstRow ch <= x)%Z /\ (x <= lastRow ch)%Z).
Proof.
  induction rows as [|row rest IH]; intros cur Hsorted Hle Hrange Hlast Hbelow Hsub.
  - simpl. split; [|split; [|split]].
    + apply Forall_singleton. repeat split; try done.
      intros Hin. apply Hbelow in Hin; [|lia]. by apply elem_of_nil in Hin.
    + apply SSorted_cons; [apply SSorted_nil | apply Forall_nil_2].
    + apply Forall_singleton. lia.
    + intros x Hx Hxle. exists cur. split; [apply list_elem_of_here|].
      destruct (decide (x < firstRow cur)%Z) as [Hlt|Hge]; [|lia].
      apply Hbelow in Hx; [|done]. by apply elem_of_nil in Hx.
  - apply StronglySorted_inv in Hsorted as [Hsorted Hall].
    apply Forall_cons in Hall as [Hrow Hall]. unfold Z.gt in Hrow.
    apply Z.compare_gt_iff in Hrow.
    assert (Hrest : forall x, x ∈ rest -> (x < row)%Z).
    { intros x Hx. apply StronglySorted_inv in Hsorted as [_ Hr].
      rewrite Forall_forall in Hr. specialize (Hr x Hx).
      by apply Z.compare_gt_iff in Hr. }
    assert (HrowL : row ∈ L) by (apply Hsub, list_elem_of_here).
    simpl. destruct (firstRow cur - row =? 1)%Z eqn:Hgap; simpl.
    + apply Z.eqb_eq in Hgap.
      destruct (IH (mkChunk row (lastRow cur) [])) as (Hmax & Hdesc & Hlasts & Hcover);
        simpl; try done.
      * lia.
      * intros x Hx1 Hx2. destruct (decide (x = row)) as [->|Hne]; [done|].
        apply Hrange; lia.
      * intros x Hx Hlt. assert (Hin : x ∈ row :: rest) by (apply Hbelow; [done | lia]).
        apply elem_of_cons in Hin as [->|Hin]; [lia | done].
      * intros x Hx. by apply Hsub, list_elem_of_further.
    + apply Z.eqb_neq in Hgap.
      destruct (IH (mkChunk row row [])) as (Hmax & Hdesc & Hlasts & Hcover);
        simpl; try done.
      * intros x Hx1 Hx2. by replace x with row by lia.
      * intros Hin. assert (Hin' : (row + 1)%Z ∈ row :: rest) by (apply Hbelow; [done | lia]).
        apply elem_of_cons in Hin' as [Heq|Hin']; [lia|]. apply Hrest in Hin'. lia.
      * intros x Hx Hlt. assert (Hin : x ∈ row :: rest) by (apply Hbelow; [done | lia]).
        apply elem_of_cons in Hin as [->|Hin]; [lia | done].
      * intros x Hx. by apply Hsub, list_elem_of_further.
      * simpl in Hlasts, Hcover. split; [|split; [|split]].
        -- apply Forall_cons. split; [|done]. repeat split; try done.
           intros Hin. assert (Hin' : (firstRow cur - 1)%Z ∈ row :: rest)
             by (apply Hbelow; [done | lia]).
           apply elem_of_cons in Hin' as [Heq|Hin']; [lia|]. apply Hrest in Hin'. lia.
        -- apply SSorted_cons; [done|].
           eapply Forall_impl; [exact Hlasts|]. simpl. lia.
        -- apply Forall_cons. split; [lia|].
           eapply Forall_impl; [exact Hlasts|]. simpl. lia.
        -- intros x Hx Hxle.
           destruct (decide (x < firstRow cur)%Z) as [Hlt|Hge].
           ++ assert (Hin : x ∈ row :: rest) by (by apply Hbelow).
              destruct (Hcover x Hx) as (ch & Hch & Hb).
              { apply elem_of_cons in Hin as [->|Hin]; [lia|]. apply Hrest in Hin. lia. }
              exists ch. split; [by apply list_elem_of_further | done].
           ++ exists cur. split; [apply list_elem_of_here | lia].
Qed.

Lemma StronglySorted_reverse_lt (s : list Z) :
  StronglySorted Z.lt s -> StronglySorted Z.gt (reverse s).
Proof.
  induction 1 as [|x s Hs IH Hall]; [apply SSorted_nil|].
  rewrite reverse_cons. apply StronglySorted_app_2; [|done|].
  - intros a b Ha Hb. apply list_elem_of_singleton in Hb as ->.
    rewrite elem_of_reverse in Ha. rewrite Forall_forall in Hall.
    apply Z.lt_gt, Hall, Ha.
  - apply SSorted_cons; [apply SSorted_nil | apply Forall_nil_2].
Qed.

(** On a non-empty set of rows sorted upwards, the deletion loop builds
    exactly the maximal runs, highest first. *)
Lemma delete_chunks_runs (L s : list Z) :
  s ≡ₚ L -> s <> [] -> StronglySorted Z.lt s ->
  Forall (fun ch => maximal_run L (firstRow ch) (lastRow ch)) (delete_chunks s) /\
  descending_chunks (delete_chunks s) /\
  (forall x, x ∈ L ->
     exists ch, ch ∈ delete_chunks s /\ (firstRow ch <= x)%Z /\ (x <= lastRow ch)%Z).
Proof.
  intros Hperm Hne Hsorted. unfold delete_chunks.
  pose proof (StronglySorted_reverse_lt s Hsorted) as Hrev.
  assert (Hmem : forall x, x ∈ reverse s <-> x ∈ L).
  { intros x. by rewrite elem_of_reverse, Hperm. }
  destruct (reverse s) as [|r0 rest] eqn:Hr.
  { destruct Hne. apply (f_equal reverse) in Hr. by rewrite reverse_involutive in Hr. }
  pose proof (delete_chunks_loop_spec rest [] (mkChunk r0 r0 [])) as Hspec.
  simpl in Hspec. rewrite Hspec.
  assert (Hmax : forall x, x ∈ rest -> (x < r0)%Z).
  { intros x Hx. apply StronglySorted_inv in Hrev as [_ Hall].
    rewrite Forall_forall in Hall. specialize (Hall x Hx).
    by apply Z.compare_gt_iff in Hall. }
  destruct (group_desc_props L rest (mkChunk r0 r0 [])) as (H1 & H2 & _ & H4);
    simpl; try done.
  - intros x Hx1 Hx2. replace x with r0 by lia. apply Hmem, list_elem_of_here.
  - intros Hin. apply Hmem in Hin. apply elem_of_cons in Hin as [Heq|Hin]; [lia|].
    apply Hmax in Hin. lia.
  - intros x Hx Hlt. apply Hmem in Hx. apply elem_of_cons in Hx as [->|Hx]; [lia | done].
  - intros x Hx. by apply Hmem, list_elem_of_further.
  - repeat split; try done. intros x Hx. apply H4; [done|]. simpl.
    apply Hmem in Hx. apply elem_of_cons in Hx as [->|Hx]; [lia|].
    apply Hmax in Hx. lia.
Qed.

Lemma descending_chunks_NoDup chunks :
  Forall (fun ch => (firstRow ch <= lastRow ch)%Z) chunks ->
  descending_chunks chunks -> NoDup (firstRow <$> chunks).
Proof.
  intros Hle Hdesc. induction Hdesc as [|ch chunks Hdesc IH Hall]; simpl.
  - apply NoDup_nil_2.
  - apply Forall_cons in Hle as [Hch Hle]. apply NoDup_cons. split; [|by apply IH].
    intros Hin. apply list_elem_of_fmap in Hin as (ch' & Heq & Hin).
    rewrite Forall_forall in Hall, Hle.
    specialize (Hall ch' Hin). specialize (Hle ch' Hin). simpl in *. lia.
Qed.

(** Chunks that are maximal runs, cover the rows and do not overlap are as
    many as the set of rows has runs. *)
Lemma chunks_count (L : list Z) chunks :
  Forall (fun ch => maximal_run L (firstRow ch) (lastRow ch)) chunks ->
  descending_chunks chunks ->
  (forall x, x ∈ L -> exists ch, ch ∈ chunks /\ (firstRow ch <= x)%Z /\ (x <= lastRow ch)%Z) ->
  length chunks = run_count L.
Proof.
  intros Hmax Hdesc Hcover. unfold run_count.
  rewrite <- (length_fmap firstRow).
  apply Permutation_length, NoDup_Permutation.
  - apply descending_chunks_NoDup; [|done].
    eapply Forall_impl; [exact Hmax|]. by intros ch (? & _).
  - apply NoDup_filter, NoDup_remove_dups.
  - intros r. rewrite list_elem_of_filter, elem_of_remove_dups, list_elem_of_fmap.
    rewrite Forall_forall in Hmax. split.
    + intros (ch & -> & Hch). destruct (Hmax ch Hch) as (Hle & Hrange & Hpred & _).
      split; [done|]. apply Hrange; lia.
    + intros [Hpred Hr]. destruct (Hcover r Hr) as (ch & Hch & Hlo & Hhi).
      exists ch. split; [|done].
      destruct (Hmax ch Hch) as (_ & Hrange & _).
      destruct (decide (firstRow ch = r)) as [|Hne]; [done|].
      destruct Hpred. apply Hrange; lia.
Qed.

(** ** Store methods as state transformers *)

Lemma bind_M {A B} (m : M A) (f : A -> M B) (st : store) :
  (m ≫= f) st =
  match m st with
  | (Ok a, st') => f a st'
  | (Err e, st') => (Err e, st')
  end.
Proof. reflexivity. Qed.

Lemma issue_deletes chunks : forall st,
  exists us sh,
    mapM issue_delete chunks st = (Ok us, with_sheet st sh) /\
    calls sh = calls (the_sheet st) ++ (delete_call <$> chunks).
Proof.
  induction chunks as [|ch rest IH]; intros st.
  - exists [], (the_sheet st). simpl. split; [by destruct st | by rewrite app_nil_r].
  - destruct (IH (with_sheet st (deleteRows (the_sheet st) (Z.to_nat (firstRow ch))
                                   (Z.to_nat (lastRow ch - firstRow ch + 1)))))
      as (us & sh & Hrun & Hcalls).
    exists (tt :: us), sh. split.
    + change (mapM issue_delete (ch :: rest)) with
        (issue_delete ch ≫= fun y => mapM issue_delete rest ≫= fun k => mret (y :: k)).
      rewrite bind_M. unfold issue_delete at 1, on_sheet. rewrite bind_M, Hrun. reflexivity.
    + rewrite Hcalls. simpl. by rewrite <- app_assoc.
Qed.

(** C2, as the code has it. Take a non-empty collection of records
    obtained from the table, that is, one that passes [_checkDBItems]: an
    object of records, or an array of instances of [DBItem]. When the rows
    of the records are pairwise distinct rows of the sheet, bulk delete
    returns normally and issues to the medium exactly one [deleteRows]
    call per maximal run of consecutive rows: the calls are as many as the
    runs, each covers one run from its first row over its length, and
    they go from the highest run to the lowest. *)
Theorem deleteDataItems_one_call_per_run (st : store) (dbItems : db_items) (rows : list Z) :
  is_ok (_checkDBItems dbItems) = true ->
  rows_of (db_items_list dbItems) = Some rows ->
  rows <> [] ->
  NoDup rows ->
  Forall (fun x => (1 <= x)%Z /\ (x <= Z.of_nat (maxRows (the_sheet st)))%Z) rows ->
  exists chunks,
    (deleteDataItems dbItems st).1 = Ok tt /\
    calls (the_sheet (deleteDataItems dbItems st).2)
      = calls (the_sheet st) ++ (delete_call <$> chunks) /\
    length chunks = run_count rows /\
    Forall (fun ch => maximal_run rows (firstRow ch) (lastRow ch)) chunks /\
    descending_chunks chunks.
Proof.
  intros Hcheck Hrows Hne Hnd _.
  destruct (js_sort_rows _ _ Hrows Hnd) as (s & Hs & Hperm & Hsorted).
  assert (Hsne : s <> []).
  { intros ->. apply Permutation_nil_l in Hperm. congruence. }
  destruct (delete_chunks_runs rows s Hperm Hsne Hsorted) as (Hmax & Hdesc & Hcover).
  exists (delete_chunks s).
  destruct (issue_deletes (delete_chunks s) st) as (us & sh & Hrun & Hcalls).
  assert (Hres : deleteDataItems dbItems st = (Ok tt, with_values (with_sheet st sh) None)).
  { unfold deleteDataItems. rewrite bind_M. unfold lift at 1.
    destruct (_checkDBItems dbItems) as [kind|e]; [|done].
    destruct (js_sort cmp_row_gt (db_items_list dbItems)) as [|x sl] eqn:Hsl.
    { rewrite rows_of_nil in Hs. congruence. }
    rewrite bind_M. unfold _deleteDataItemsByChunks.
    destruct (rows_while_reverse _ _ Hs) as [-> Hlen]. rewrite bind_M.
    by rewrite Hrun, Hlen, Nat.ltb_irrefl. }
  rewrite Hres. simpl. repeat split; try done.
  by apply chunks_count.
Qed.

Lemma deleteDataItems_one_call_per_run_witness :
  let st := sample_store (replicate 9 [VStr "A"; VNum 1]) in
  let dbItems := from_table ((fun r => record [("row", VNum r)]) <$> [10; 5; 7; 6]%Z) in
  exists chunks,
    (deleteDataItems dbItems st).1 = Ok tt /\
    calls (the_sheet (deleteDataItems dbItems st).2)
      = calls (the_sheet st) ++ (delete_call <$> chunks) /\
    length chunks = run_count [10; 5; 7; 6]%Z /\
    Forall (fun ch => maximal_run [10; 5; 7; 6]%Z (firstRow ch) (lastRow ch)) chunks /\
    descending_chunks chunks.
Proof.
  intros st dbItems.
  apply (deleteDataItems_one_call_per_run st dbItems [10; 5; 7; 6]%Z).
  - reflexivity.
  - reflexivity.
  - discriminate.
  - apply (bool_decide_unpack _). vm_compute. exact I.
  - repeat constructor; cbn; lia.
Defined.

(** The calls of the example of the specification: rows 5, 6, 7 and 10 of
    a sheet of ten rows. *)
Example deleteDataItems_5_6_7_10 :
  calls (the_sheet (deleteDataItems
     (from_table ((fun r => record [("row", VNum r)]) <$> [10; 5; 7; 6]%Z))
     (sample_store (replicate 9 [VStr "A"; VNum 1]))).2)
  = [DeleteRows 10 1; DeleteRows 5 3].
Proof. vm_compute. reflexivity. Qed.

(** C2, counterexample: a collection that carries row 5 of a sheet of six
    rows twice. Its set of rows has one run, and bulk delete issues two
    calls, the second of which deletes the row that came after row 5. *)
Lemma delete_same_row_twice :
  let st := sample_store [[VStr "A"; VNum 1]; [VStr "B"; VNum 2]; [VStr "C"; VNum 3];
                          [VStr "D"; VNum 4]; [VStr "E"; VNum 5]] in
  let it := record [("sku", VStr "D"); ("qty", VNum 4); ("row", VNum 5)] in
  _checkDBItems (from_table [it; it]) = Ok KindArray /\
  rows_of [it; it] = Some [5; 5]%Z /\
  run_count [5; 5]%Z = 1 /\
  (deleteDataItems (from_table [it; it]) st).1 = Ok tt /\
  calls (the_sheet (deleteDataItems (from_table [it; it]) st).2)
    = [DeleteRows 5 1; DeleteRows 5 1] /\
  maxRows (the_sheet (deleteDataItems (from_table [it; it]) st).2) = 4.
Proof.
  repeat split; vm_compute; reflexivity.
Qed.

(** What [_checkDBItems] refuses is refused before any call to the
    medium: an array that holds something that is no instance of [DBItem]
    and an object that is no instance of [DBItemsObject]. *)
Lemma deleteDataItems_refuses (st : store) (dbItems : db_items) :
  is_ok (_checkDBItems dbItems) = false ->
  deleteDataItems dbItems st = (Err ErrTypeError, st).
Proof.
  unfold deleteDataItems. rewrite bind_M. unfold lift at 1.
  destruct dbItems as [l|o|o]; simpl; [|done|done].
  by destruct (existsb _ l).
Qed.

(** The getter [keys] leaves everything but its own cache alone, and a
    second read returns the same schema. *)
Lemma resolved_keys st km : resolved st km -> keys st = (Ok km, st).
Proof.
  unfold keys. intros [Hf|[Hf Hk]]; rewrite Hf; [done|]. by rewrite Hk.
Qed.

Lemma keys_Ok st km st1 :
  keys st = (Ok km, st1) ->
  the_sheet st1 = the_sheet st /\ _values st1 = _values st /\
  dataRowFirst st1 = dataRowFirst st /\ keysRow st1 = keysRow st /\
  frozen_keys st1 = frozen_keys st /\
  resolved st1 km.
Proof.
  unfold keys, resolved. destruct (frozen_keys st) as [fk|] eqn:Hf.
  - intros [= <- <-]. rewrite Hf. by repeat split; try left.
  - destruct (_keys st) as [ck|] eqn:Hk.
    + intros [= <- <-]. rewrite Hf, Hk. repeat split; try done. by right.
    + destruct (_getKeysFromSheet st); intros [= <- <-]. simpl. rewrite Hf.
      repeat split; try done. by right.
Qed.

Lemma keys_Ok_again st km st1 : keys st = (Ok km, st1) -> keys st1 = (Ok km, st1).
Proof. intros Hk. apply resolved_keys. by apply keys_Ok in Hk as (_ & _ & _ & _ & _ & ?). Qed.

Lemma resolved_with_values st km v : resolved st km -> resolved (with_values st v) km.
Proof. done. Qed.

Lemma resolved_with_sheet st km sh : resolved st km -> resolved (with_sheet st sh) km.
Proof. done. Qed.

(** What the getter [values] returns on a store whose schema is resolved:
    the cache, or one read of the sheet that fills the cache. *)
Lemma values_resolved st km vals st1 :
  resolved st km ->
  values st = (Ok vals, st1) ->
  (_values st = Some vals /\ st1 = st) \/
  (_values st = None /\ st1 = with_values st (Some vals) /\
   exists first last c1 c2,
     letter 1 = Ok first /\ letter (lastDataColumn_of km) = Ok last /\
     a1_column first = Some c1 /\ a1_column last = Some c2 /\
     vals = getSheetValues (the_sheet st) (dataRowFirst st) c1
              (S (maxRows (the_sheet st)) - dataRowFirst st) (S c2 - c1)).
Proof.
  intros Hres. unfold values. destruct (_values st) as [v|] eqn:Hv.
  - intros [= <- <-]. by left.
  - rewrite bind_M, (resolved_keys _ _ Hres). rewrite bind_M. unfold lift at 1.
    destruct (letter 1) as [first|e] eqn:H1; [|done].
    rewrite bind_M. unfold lift at 1.
    destruct (letter (lastDataColumn_of km)) as [last|e] eqn:H2; [|done].
    destruct (a1_column first) as [c1|] eqn:Hc1; [|done].
    destruct (a1_column last) as [c2|] eqn:Hc2; [|done].
    intros [= <- <-]. right. split; [done|]. split; [done|].
    by exists first, last, c1, c2.
Qed.

Lemma values_Ok_resolved st km vals st1 :
  resolved st km -> values st = (Ok vals, st1) ->
  resolved st1 km /\ the_sheet st1 = the_sheet st /\ dataRowFirst st1 = dataRowFirst st /\
  _values st1 = Some vals.
Proof.
  intros Hres Hv. destruct (values_resolved _ _ _ _ Hres Hv) as [[Hc ->]|(Hc & -> & _)]; done.
Qed.

Lemma getDataItemByRow_Ok st km st1 row :
  keys st = (Ok km, st1) ->
  getDataItemByRow row st = (Ok (record_at (the_sheet st) km row), st1).
Proof.
  intros Hk. unfold getDataItemByRow. rewrite bind_M, Hk.
  destruct (keys_Ok _ _ _ Hk) as (Hsh & _). unfold record_at. by rewrite <- Hsh.
Qed.

(** ** Filling a record from a row *)

Section FillFacts.
Context (g : string * nat -> value).

Lemma foldl_insert_other (km : keymap) : forall (it : item) key,
  key ∉ km.*1 ->
  foldl (fun acc kv => <[kv.1 := g kv]> acc) it km !! key = it !! key.
Proof.
  induction km as [|[k off] km IH]; intros it key Hnin; [done|].
  rewrite fmap_cons in Hnin. apply not_elem_of_cons in Hnin as [Hne Hnin].
  cbn [foldl]. rewrite IH by done. by apply lookup_insert_ne.
Qed.

Lemma foldl_insert_is_Some (km : keymap) : forall (it : item) key,
  key ∈ km.*1 ->
  is_Some (foldl (fun acc kv => <[kv.1 := g kv]> acc) it km !! key).
Proof.
  induction km as [|[k off] km IH]; intros it key Hin.
  - by apply elem_of_nil in Hin.
  - cbn [foldl]. destruct (decide (key ∈ km.*1)) as [Htl|Htl]; [by apply IH|].
    rewrite foldl_insert_other by done.
    rewrite fmap_cons in Hin. apply elem_of_cons in Hin as [->|Hin]; [|done].
    simpl. rewrite lookup_insert_eq. by eexists.
Qed.

Lemma foldl_insert_NoDup (km : keymap) : forall (it : item) key off,
  NoDup km.*1 -> (key, off) ∈ km ->
  foldl (fun acc kv => <[kv.1 := g kv]> acc) it km !! key = Some (g (key, off)).
Proof.
  induction km as [|[k o] km IH]; intros it key off Hnd Hin.
  - by apply elem_of_nil in Hin.
  - rewrite fmap_cons in Hnd. apply NoDup_cons in Hnd as [Hni Hnd].
    cbn [foldl]. apply elem_of_cons in Hin as [[= -> ->]|Hin].
    + rewrite foldl_insert_other by done. apply lookup_insert_eq.
    + by apply IH.
Qed.
End FillFacts.

Lemma record_at_is_Some sh km row key :
  key ∈ km.*1 -> is_Some (record_at sh km row !! key).
Proof.
  intros Hin. unfold record_at, _parseRowValuesToItem.
  destruct (decide (key = "row")) as [->|Hne].
  - rewrite lookup_insert_eq. by eexists.
  - rewrite lookup_insert_ne by done.
    by apply (foldl_insert_is_Some
      (fun kv => let v := default VUndef (_ !! kv.2) in
                 if strict_eq v blank then VNull else v)).
Qed.

(** ** Copying fields onto a record *)

Lemma overwrite_fields_lookup fk : forall (cur d : item) key,
  overwrite_fields fk cur d !! key =
  if bool_decide (key ∈ fk.*1) && has_prop d key then Some (prop d key) else cur !! key.
Proof.
  unfold overwrite_fields.
  induction fk as [|[k off] fk IH]; intros cur d key.
  - done.
  - rewrite fmap_cons. cbn [foldl fst snd]. rewrite IH.
    destruct (decide (key = k)) as [->|Hne].
    + rewrite (bool_decide_eq_true_2 (k ∈ k :: fk.*1)) by apply list_elem_of_here.
      cbn [andb]. destruct (has_prop d k) eqn:Hhas.
      * rewrite andb_true_r.
        destruct (bool_decide (k ∈ fk.*1)); [done | apply lookup_insert_eq].
      * by rewrite andb_false_r.
    + rewrite (bool_decide_ext (key ∈ k :: fk.*1) (key ∈ fk.*1)).
      2:{ rewrite elem_of_cons. split; [intros [?|?]; done | by right]. }
      destruct (bool_decide (key ∈ fk.*1) && has_prop d key); [done|].
      destruct (has_prop d k); [by rewrite lookup_insert_ne | done].
Qed.

Lemma default_updateCB_lookup ck (c n : item) key :
  default_updateCB ck c n !! key =
  if bool_decide (key ∈ ck.*1) && has_prop n key then Some (prop n key) else c !! key.
Proof. apply overwrite_fields_lookup. Qed.

Lemma filterKeysFrom_names km ignore key :
  key ∈ (_filterKeysFrom km ignore).*1 <-> key ∈ km.*1 /\ key ∉ ignore.
Proof.
  unfold _filterKeysFrom. rewrite !list_elem_of_fmap. split.
  - intros ([k off] & -> & Hin). apply list_elem_of_filter in Hin as [Hig Hin].
    split; [|done]. by exists (k, off).
  - intros [([k off] & -> & Hin) Hig]. exists (k, off). split; [done|].
    by apply list_elem_of_filter.
Qed.

Lemma control_mismatch_array cks (cur d : item) :
  control_mismatch (Some (UseKeyArray cks)) cur d = true <->
  Exists (fun key => strict_eq (prop cur key) (prop d key) = false) cks.
Proof.
  simpl. induction cks as [|key cks IH]; simpl.
  - split; [done | intros H; by apply Exists_nil in H].
  - rewrite Exists_cons, orb_true_iff, IH, negb_true_iff. tauto.
Qed.

(** Strict equality is equality, NaN apart. *)
Lemma strict_eq_true a b : strict_eq a b = true <-> a = b /\ a <> VNaN.
Proof.
  unfold strict_eq.
  destruct a; try (rewrite bool_decide_eq_true; split; [by intros <- | by intros [? _]]).
  split; [done | by intros [_ ?]].
Qed.

Lemma strict_eq_blank v : strict_eq v blank = bool_decide (v = blank).
Proof. unfold strict_eq. by destruct v. Qed.

Lemma parseRowValuesToItem_row cs row km :
  "row" ∉ km.*1 -> item_row (_parseRowValuesToItem cs row km) = Some (Z.of_nat row).
Proof.
  intros _. unfold item_row, _parseRowValuesToItem. by rewrite lookup_insert_eq.
Qed.

Lemma lastDataColumn_pos km : km <> [] -> 0 < lastDataColumn_of km.
Proof.
  destruct km as [|[k off] km]; [done|]. intros _.
  unfold lastDataColumn_of. rewrite fmap_cons. cbn [foldr snd].
  eapply Nat.lt_le_trans; [|apply Nat.le_max_l]. lia.
Qed.

Lemma length_foldl_insert (it : item) km : forall row : list value,
  length (foldl (fun row kv => if has_prop it kv.1 then <[kv.2 := prop it kv.1]> row else row)
                row km) = length row.
Proof.
  induction km as [|kv km IH]; intros row; simpl; [done|].
  rewrite IH. destruct (has_prop it kv.1); [apply length_insert | done].
Qed.

Lemma length_row_of_item km v it : length (row_of_item km v it) = lastDataColumn_of km.
Proof. unfold row_of_item. by rewrite length_foldl_insert, length_replicate. Qed.

(** Point update with a list of control keys, through the record the
    method reads and the record it writes back. *)
Lemma updateDataItemByRow_written (st st1 : store) (km : keymap) (row : nat)
    (dataItem : item) (controlKeys : list string) (ignoreKeys : option use_keys) :
  keys st = (Ok km, st1) ->
  km <> [] ->
  "row" ∉ field_names km ->
  let current := record_at (the_sheet st) km row in
  let call := updateDataItemByRow row dataItem (Some (UseKeyArray controlKeys)) ignoreKeys st in
  (control_mismatch (Some (UseKeyArray controlKeys)) current dataItem = true ->
     call.1 = Ok false /\ the_sheet call.2 = the_sheet st) /\
  (control_mismatch (Some (UseKeyArray controlKeys)) current dataItem = false ->
     exists written : item,
       call.1 = Ok true /\
       the_sheet call.2
         = setValues (the_sheet st) row 1 [row_of_item km VNull written] /\
       _values call.2 = None /\
       forall key,
         written !! key =
         if bool_decide (key ∈ field_names km)
            && bool_decide (key ∉ controlKeys ++ flat_opt ignoreKeys)
            && has_prop dataItem key
         then Some (prop dataItem key) else current !! key).
Proof.
  intros Hk Hne Hrow current call.
  destruct (keys_Ok _ _ _ Hk) as (Hsh & _ & _ & _ & _ & Hres1).
  pose proof (resolved_keys _ _ Hres1) as Hk1.
  assert (Hcall : call =
    (currentDataItem ← getDataItemByRow row;
     if control_mismatch (Some (UseKeyArray controlKeys)) currentDataItem dataItem
     then mret false
     else
       km ← keys;
       let fkeys := _filterKeysFrom km
                      (flat_opt (Some (UseKeyArray controlKeys)) ++ flat_opt ignoreKeys) in
       let currentDataItem' := overwrite_fields fkeys currentDataItem dataItem in
       let vals := _parseDataToArray km (ItemsArray [currentDataItem']) VNull in
       match item_row currentDataItem' with
       | None => throw ErrTypeError
       | Some r => _setValues (Z.to_nat r) 1 vals;; resetCache;; mret true
       end) st) by reflexivity.
  rewrite bind_M, (getDataItemByRow_Ok _ _ _ _ Hk) in Hcall. fold current in Hcall.
  split.
  - intros Hmis. rewrite Hmis in Hcall. rewrite Hcall. simpl. done.
  - intros Hno.
    rewrite Hno, bind_M, Hk1 in Hcall. simpl in Hcall.
    set (fkeys := _filterKeysFrom km (controlKeys ++ flat_opt ignoreKeys)) in *.
    set (written := overwrite_fields fkeys current dataItem) in *.
    assert (Hwrow : item_row written = Some (Z.of_nat row)).
    { unfold item_row, written. rewrite overwrite_fields_lookup.
      rewrite bool_decide_eq_false_2.
      - simpl. unfold current, record_at, _parseRowValuesToItem.
        by rewrite lookup_insert_eq.
      - unfold fkeys. rewrite filterKeysFrom_names. intros [Hin _]. by apply Hrow. }
    rewrite Hwrow in Hcall. rewrite Nat2Z.id in Hcall.
    exists written.
    assert (Hrowne : row_of_item km VNull written <> []).
    { intros Hnil. apply (f_equal length) in Hnil.
      rewrite length_row_of_item in Hnil. simpl in Hnil.
      pose proof (lastDataColumn_pos km Hne). lia. }
    unfold _parseDataToArray in Hcall. simpl in Hcall.
    destruct (row_of_item km VNull written) as [|v vs] eqn:Hrw; [done|].
    rewrite Hcall. simpl. rewrite Hsh. split; [reflexivity|]. split; [reflexivity|].
    split; [reflexivity|].
    intros key. unfold written. rewrite overwrite_fields_lookup.
    unfold fkeys.
    replace (bool_decide (key ∈ (_filterKeysFrom km (controlKeys ++ flat_opt ignoreKeys)).*1))
      with (bool_decide (key ∈ field_names km)
            && bool_decide (key ∉ controlKeys ++ flat_opt ignoreKeys)); [done|].
    rewrite <- bool_decide_and. apply bool_decide_ext.
    by rewrite filterKeysFrom_names.
Qed.

(** Scenario C of the specification: the [sku] on the sheet is no longer
    the one the caller expects. *)
Example updateDataItemByRow_scenario_C :
  let st := sample_store [[VStr "B"; VNum 5]] in
  let call := updateDataItemByRow 2 (record [("sku", VStr "A"); ("qty", VNum 9)])
                (Some (UseKeyArray ["sku"])) None st in
  call.1 = Ok false /\ calls (the_sheet call.2) = [].
Proof. split; vm_compute; reflexivity. Qed.

(** ** Merge: which record goes into which set *)

Lemma obj_set_elem {A} k (a : A) o h x :
  (h, x) ∈ obj_set k a o -> (h, x) = (k, a) \/ (h, x) ∈ o.
Proof.
  induction o as [|[k' a'] o IH]; simpl.
  - intros Hin. apply list_elem_of_singleton in Hin. by left.
  - destruct (decide (k = k')) as [->|Hne].
    + intros [Heq|Hin]%elem_of_cons; [by left | right; by apply list_elem_of_further].
    + intros [Heq|Hin]%elem_of_cons.
      * right. rewrite Heq. apply list_elem_of_here.
      * destruct (IH Hin) as [?|?]; [by left | right; by apply list_elem_of_further].
Qed.

Lemma obj_has_set_existing {A} k (a : A) o h :
  obj_has k o = true -> obj_has h (obj_set k a o) = obj_has h o.
Proof.
  intros Hk. rewrite obj_has_set. destruct (decide (k = h)) as [->|Hne].
  - by rewrite Hk, bool_decide_eq_true_2.
  - by rewrite bool_decide_eq_false_2.
Qed.

Lemma obj_get_has {A} k (a : A) o : obj_get k o = Some a -> obj_has k o = true.
Proof. unfold obj_has. by intros ->. Qed.

Section MergeLoop.
Context (isUpd : item -> item -> bool) (upd : item -> item -> item).
Context (current0 : list (string * item)).

Lemma merge_step_inv ms entry :
  merge_inv current0 ms -> merge_inv current0 (merge_step isUpd upd ms entry).
Proof.
  intros (Hcur & Hins & Hupd & Helem & Hdel & Hdeln). destruct entry as [hash it].
  unfold merge_step.
  destruct (obj_get hash (currentItemsObj ms)) as [c|] eqn:Hget.
  - destruct (isUpd c it); [|done].
    pose proof (obj_get_has _ _ _ Hget) as Hhas.
    repeat split; simpl; try done.
    + intros h. by rewrite obj_has_set_existing.
    + intros h. rewrite obj_has_set, orb_true_iff, bool_decide_eq_true.
      intros [<-|Hh]; [by rewrite <- Hcur | by apply Hupd].
    + intros h x Hin. apply obj_set_elem in Hin as [[= -> ->]|Hin].
      * right. rewrite obj_has_set. by rewrite bool_decide_eq_true_2.
      * destruct (Helem h x Hin) as [?|Hu]; [by left|].
        right. rewrite obj_has_set, Hu. apply orb_true_r.
  - repeat split; simpl; try done.
    intros h. rewrite obj_has_set, orb_true_iff, bool_decide_eq_true.
    intros [<-|Hh]; [|by apply Hins].
    rewrite <- Hcur. unfold obj_has. by rewrite Hget.
Qed.

Lemma merge_loop_inv l : forall ms,
  merge_inv current0 ms -> merge_inv current0 (foldl (merge_step isUpd upd) ms l).
Proof.
  induction l as [|e l IH]; intros ms Hinv; [done|].
  simpl. by apply IH, merge_step_inv.
Qed.
End MergeLoop.

Lemma delete_step_inv isDel dataItemsObj (ms1 ms : merge_state) e :
  e ∈ currentItemsObj ms1 ->
  delete_inv dataItemsObj ms1 ms ->
  delete_inv dataItemsObj ms1 (delete_step isDel dataItemsObj ms e).
Proof.
  intros He (Hc & Hu & Hi & Hun & Hin & Hd). destruct e as [hash c].
  unfold delete_step.
  destruct (negb (obj_has hash (itemsToUpdate ms)) && negb (obj_has hash dataItemsObj))
    eqn:Hcond; [|done].
  destruct (isDel c); [|done].
  apply andb_true_iff in Hcond as [Hnu Hnd].
  apply negb_true_iff in Hnu. apply negb_true_iff in Hnd. rewrite Hu in Hnu.
  split; [done|]. split; [done|]. split; [done|]. split; [done|]. split; [done|].
  cbn [itemsToDelete]. intros h it Hel.
  apply obj_set_elem in Hel as [[= -> ->]|Hel]; [done | by apply Hd].
Qed.

Lemma delete_loop_inv isDel dataItemsObj (ms1 : merge_state) l : forall ms,
  (forall e, e ∈ l -> e ∈ currentItemsObj ms1) ->
  delete_inv dataItemsObj ms1 ms ->
  delete_inv dataItemsObj ms1 (foldl (delete_step isDel dataItemsObj) ms l).
Proof.
  induction l as [|e l IH]; intros ms Hsub Hinv; [done|].
  cbn [foldl]. apply IH.
  - intros e' He'. by apply Hsub, list_elem_of_further.
  - apply delete_step_inv; [apply Hsub, list_elem_of_here | done].
Qed.

Lemma dbItem_of_row km d i cs : item_row (dbItem_of km d i cs) = Some (Z.of_nat (i + d)).
Proof. unfold item_row, dbItem_of. by rewrite lookup_insert_eq. Qed.

Lemma getDataItemsObject_step_rows km opts hf items entry :
  itemCB opts = None -> ignoreKeys opts = None ->
  is_Some (item_row entry.2) ->
  Forall (fun e => is_Some (item_row e.2)) items ->
  Forall (fun e => is_Some (item_row e.2)) (getDataItemsObject_step km opts hf items entry).
Proof.
  intros Hcb Hig Hrow Hall. destruct entry as [rowEmpty dbItem].
  unfold getDataItemsObject_step. destruct rowEmpty; [done|].
  destruct (match filterCB opts with Some f => negb (f dbItem) | None => false end); [done|].
  rewrite Hcb, Hig. simpl. apply Forall_forall. intros [h it] Hin.
  apply obj_set_elem in Hin as [[= -> ->]|Hin]; [done|].
  rewrite Forall_forall in Hall. by apply (Hall (h, it)).
Qed.

(** Every record [mergeDataItems] gets from the grid carries its row. *)
Lemma getDataItemsObject_from_rows km d vals opts hf :
  itemCB opts = None -> ignoreKeys opts = None ->
  Forall (fun e => is_Some (item_row e.2)) (getDataItemsObject_from km d vals opts hf).
Proof.
  intros Hcb Hig. unfold getDataItemsObject_from.
  assert (Hentries : Forall (fun entry : bool * item => is_Some (item_row entry.2))
                       (zip (rowsEmptyStatuses_of vals) (dbItems_of km d vals))).
  { apply Forall_forall. intros [b it] Hin. apply elem_of_zip_r in Hin.
    apply elem_of_lookup_imap_1 in Hin as (i & cs & -> & _).
    simpl. rewrite dbItem_of_row. by eexists. }
  revert Hentries. generalize (zip (rowsEmptyStatuses_of vals) (dbItems_of km d vals)).
  assert (Hnil : Forall (fun e : string * item => is_Some (item_row e.2)) []) by apply Forall_nil_2.
  revert Hnil. generalize (@nil (string * item)).
  intros items Hitems entries. revert items Hitems.
  induction entries as [|e entries IH]; intros items Hitems Hentries; [done|].
  apply Forall_cons in Hentries as [He Hentries]. simpl.
  apply IH; [|done]. by apply getDataItemsObject_step_rows.
Qed.

Lemma getDataItemsObject_inv u opts st current st1 :
  getDataItemsObject u opts st = (Ok current, st1) ->
  exists km st0 vals hf,
    keys st = (Ok km, st0) /\ values st0 = (Ok vals, st1) /\
    _getKeysHashFunction km u = Ok hf /\
    current = getDataItemsObject_from km (dataRowFirst st1) vals opts hf.
Proof.
  unfold getDataItemsObject. rewrite bind_M.
  destruct (keys st) as [[km|e] st0] eqn:Hk; [|done].
  rewrite bind_M. destruct (values st0) as [[vals|e] st1'] eqn:Hv; [|done].
  rewrite bind_M. cbn [get_store]. rewrite bind_M. unfold lift.
  destruct (_getKeysHashFunction km u) as [hf|e] eqn:Hhf; [|done].
  intros [= <- <-]. by exists km, st0, vals, hf.
Qed.

Lemma merge_sets_inv dataItems useKeys opts st ms st' :
  merge_sets dataItems useKeys opts st = (Ok ms, st') ->
  exists current km dataItemsObj,
    getDataItemsObject useKeys (merge_read_options opts) st = (Ok current, st') /\
    keys st' = (Ok km, st') /\
    incoming_object km dataItems useKeys (merge_keyCB opts) = Ok dataItemsObj /\
    ms = merge_plan (_filterKeysFrom km (use_keys_flat useKeys ++ default [] (merge_ignoreKeys opts)))
           opts current dataItemsObj.
Proof.
  unfold merge_sets. rewrite bind_M.
  destruct (getDataItemsObject useKeys (merge_read_options opts) st)
    as [[current|e] st1] eqn:Hg; [|done].
  rewrite bind_M. destruct (keys st1) as [[km|e] st2] eqn:Hk; [|done].
  rewrite bind_M. unfold lift.
  destruct (incoming_object km dataItems useKeys (merge_keyCB opts)) as [o|e] eqn:Hin; [|done].
  intros [= <- <-].
  pose proof Hg as Hg0.
  apply getDataItemsObject_inv in Hg as (km' & st0 & vals & hf & Hk0 & Hv & Hhf & Hcur).
  apply keys_Ok in Hk0 as (_ & _ & _ & _ & _ & Hres0).
  destruct (values_Ok_resolved _ _ _ _ Hres0 Hv) as (Hres1 & _).
  rewrite (resolved_keys _ _ Hres1) in Hk. injection Hk as <- <-.
  exists current, km', o. repeat split; try done. by apply resolved_keys.
Qed.

Lemma merge_plan_inv ck opts current dataItemsObj :
  let ms := merge_plan ck opts current dataItemsObj in
  (forall h, obj_has h (itemsToInsert ms) = true -> obj_has h current = false) /\
  (forall h it, (h, it) ∈ itemsToDelete ms ->
     (h, it) ∈ current /\ obj_has h dataItemsObj = false).
Proof.
  unfold merge_plan.
  set (isUpd := default (default_isUpdateCB ck) (isUpdateCB opts)).
  set (upd := default (default_updateCB ck) (updateCB opts)).
  set (ms1 := foldl (merge_step isUpd upd) (mkMergeState current [] [] [] 0 0 0) dataItemsObj).
  assert (Hinv : merge_inv current ms1).
  { apply merge_loop_inv. repeat split; simpl; try done. by left. }
  destruct Hinv as (Hcur & Hins & Hupd & Helem & Hdel & Hdeln).
  destruct (isDeleteCB opts) as [isDel|].
  - destruct (delete_loop_inv isDel dataItemsObj ms1 (currentItemsObj ms1) ms1)
      as (_ & _ & Hi & _ & _ & Hd); [done | |].
    { unfold delete_inv. split_and!; try done.
      intros h it Hel. rewrite Hdel in Hel. by apply elem_of_nil in Hel. }
    simpl. rewrite Hi. split; [done|].
    intros h it Hin. destruct (Hd h it Hin) as (Hc & Hnu & Hnd). split; [|done].
    destruct (Helem h it Hc) as [?|Hu]; [done | congruence].
  - simpl. split; [done|].
    intros h it Hel. rewrite Hdel in Hel. by apply elem_of_nil in Hel.
Qed.

(** In every merge that gets as far as its three sets, a hash that is a
    key of both the grouped current records and the grouped incoming
    records is in neither the insert set nor the delete set, and every
    record of the delete set carries the row it was read from. *)
Lemma merge_sets_identity (st st' : store) (dataItems : data_items) (useKeys : use_keys)
    (opts : merge_options) (ms : merge_state) :
  merge_sets dataItems useKeys opts st = (Ok ms, st') ->
  exists current km dataItemsObj,
    getDataItemsObject useKeys (merge_read_options opts) st = (Ok current, st') /\
    keys st' = (Ok km, st') /\
    incoming_object km dataItems useKeys (merge_keyCB opts) = Ok dataItemsObj /\
    (forall hash, obj_has hash current = true -> obj_has hash dataItemsObj = true ->
       obj_has hash (itemsToInsert ms) = false /\ obj_has hash (itemsToDelete ms) = false) /\
    (forall hash it, (hash, it) ∈ itemsToDelete ms -> is_Some (item_row it)).
Proof.
  intros Hms.
  apply merge_sets_inv in Hms as (current & km & o & Hg & Hk & Hin & ->).
  exists current, km, o. split; [done|]. split; [done|]. split; [done|].
  match goal with |- context [merge_plan ?ck _ _ _] =>
    destruct (merge_plan_inv ck opts current o) as [Hins Hdel] end.
  split.
  - intros hash Hc Ho. split.
    + apply not_true_is_false. intros Hi. apply Hins in Hi. congruence.
    + apply not_true_is_false. intros Hd. unfold obj_has in Hd.
      match type of Hd with context [obj_get ?h ?l] => destruct (obj_get h l) as [it|] eqn:Hget end;
        [|done].
      apply obj_get_Some_elem, Hdel in Hget as [_ Hno]. congruence.
  - intros hash it Hd. apply Hdel in Hd as [Hc _].
    apply getDataItemsObject_inv in Hg as (km' & st0 & vals & hf & _ & _ & _ & ->).
    pose proof (getDataItemsObject_from_rows km' (dataRowFirst st') vals
                  (merge_read_options opts) hf eq_refl eq_refl) as Hrows.
    rewrite Forall_forall in Hrows. apply (Hrows (hash, it) Hc).
Qed.

(** The three sets of a merge: A is updated, C inserted, B deleted. *)
Example merge_three_sets :
  let st := sample_store [[VStr "A"; VNum 5]; [VStr "B"; VNum 1]] in
  let dataItems := ItemsArray [record [("sku", VStr "A"); ("qty", VNum 7)];
                               record [("sku", VStr "C"); ("qty", VNum 1)]] in
  let opts := {| isUpdateCB := None; updateCB := None; isDeleteCB := Some (fun _ => true);
                 merge_filterCB := None; merge_keyCB := None; merge_ignoreKeys := None |} in
  match (merge_sets dataItems (UseKey "sku") opts st).1 with
  | Ok ms => (obj_keys (itemsToUpdate ms), obj_keys (itemsToInsert ms),
              obj_keys (itemsToDelete ms)) = (["A"], ["C"], ["B"])
  | Err _ => False
  end.
Proof. vm_compute. reflexivity. Qed.

(** ** Merge: the first loop, hash by hash *)

Lemma obj_get_None_names {A} k (o : list (string * A)) : obj_get k o = None <-> k ∉ o.*1.
Proof.
  rewrite <- obj_has_names. unfold obj_has. by destruct (obj_get k o); split.
Qed.

Lemma obj_set_length_fresh {A} k (a : A) o :
  obj_get k o = None -> length (obj_set k a o) = S (length o).
Proof.
  induction o as [|[k' a'] o IH]; simpl; [done|].
  destruct (decide (k = k')); [done|]. intros H. simpl. by rewrite IH.
Qed.

Section MergeLoopSpec.
Context (isUpd : item -> item -> bool) (upd : item -> item -> item).
Context (current : list (string * item)).

Lemma merge_loop_spec l : forall ms,
  NoDup l.*1 ->
  (forall h, h ∈ l.*1 ->
     obj_get h (itemsToUpdate ms) = None /\ obj_get h (itemsToInsert ms) = None /\
     obj_get h (currentItemsObj ms) = obj_get h current) ->
  updated ms = length (itemsToUpdate ms) ->
  inserted ms = length (itemsToInsert ms) ->
  let ms' := foldl (merge_step isUpd upd) ms l in
  (forall h, obj_get h (itemsToUpdate ms') =
     match obj_get h l with
     | Some n =>
         match obj_get h current with
         | Some c => if isUpd c n then Some (upd c n) else None
         | None => None
         end
     | None => obj_get h (itemsToUpdate ms)
     end) /\
  (forall h, obj_get h (itemsToInsert ms') =
     match obj_get h l with
     | Some n => match obj_get h current with Some _ => None | None => Some n end
     | None => obj_get h (itemsToInsert ms)
     end) /\
  updated ms' = length (itemsToUpdate ms') /\
  inserted ms' = length (itemsToInsert ms') /\
  (NoDup (itemsToUpdate ms).*1 -> NoDup (itemsToUpdate ms').*1) /\
  (NoDup (itemsToInsert ms).*1 -> NoDup (itemsToInsert ms').*1).
Proof.
  induction l as [|[h0 n0] l IH]; intros ms Hnd Hpending Hu Hi; [done|].
  rewrite fmap_cons in Hnd. apply NoDup_cons in Hnd as [Hni Hnd]. simpl in Hni.
  pose proof (proj2 (obj_get_None_names h0 l) Hni) as Hnone.
  destruct (Hpending h0) as (Hu0 & Hi0 & Hc0); [apply list_elem_of_here|].
  cbn [foldl].
  set (ms1 := merge_step isUpd upd ms (h0, n0)).
  assert (Hpending1 : forall h, h ∈ l.*1 ->
     obj_get h (itemsToUpdate ms1) = None /\ obj_get h (itemsToInsert ms1) = None /\
     obj_get h (currentItemsObj ms1) = obj_get h current).
  { intros h Hh. assert (h0 <> h) by (intros ->; done).
    destruct (Hpending h) as (Hu1 & Hi1 & Hc1); [by apply list_elem_of_further|].
    unfold ms1, merge_step. destruct (obj_get h0 (currentItemsObj ms)) as [c|].
    - destruct (isUpd c n0); [|done]. simpl. by rewrite !obj_get_set_ne.
    - simpl. by rewrite obj_get_set_ne. }
  assert (Hlen1 : updated ms1 = length (itemsToUpdate ms1) /\
                  inserted ms1 = length (itemsToInsert ms1)).
  { unfold ms1, merge_step. destruct (obj_get h0 (currentItemsObj ms)) as [c|].
    - destruct (isUpd c n0); [|done]. simpl. by rewrite obj_set_length_fresh, Hu.
    - simpl. by rewrite obj_set_length_fresh, Hi. }
  destruct Hlen1 as [Hu1 Hi1].
  destruct (IH ms1 Hnd Hpending1 Hu1 Hi1) as (HU & HI & HUl & HIl & HUnd & HInd).
  split_and!; try done.
  - intros h. rewrite HU. simpl. destruct (decide (h = h0)) as [->|Hne].
    + rewrite Hnone.
      unfold ms1, merge_step. rewrite Hc0. destruct (obj_get h0 current) as [c|]; [|done].
      destruct (isUpd c n0); [|done]. simpl. apply obj_get_set_eq.
    + destruct (obj_get h l); [done|].
      unfold ms1, merge_step. destruct (obj_get h0 (currentItemsObj ms)) as [c|]; [|done].
      destruct (isUpd c n0); [|done]. simpl. by rewrite obj_get_set_ne.
  - intros h. rewrite HI. simpl. destruct (decide (h = h0)) as [->|Hne].
    + rewrite Hnone.
      unfold ms1, merge_step. rewrite Hc0. destruct (obj_get h0 current) as [c|].
      * by destruct (isUpd c n0).
      * simpl. apply obj_get_set_eq.
    + destruct (obj_get h l); [done|].
      unfold ms1, merge_step. destruct (obj_get h0 (currentItemsObj ms)) as [c|].
      * by destruct (isUpd c n0).
      * simpl. by rewrite obj_get_set_ne.
  - intros H. apply HUnd. unfold ms1, merge_step.
    destruct (obj_get h0 (currentItemsObj ms)) as [c|]; [|done].
    destruct (isUpd c n0); [|done]. simpl. by apply obj_set_NoDup.
  - intros H. apply HInd. unfold ms1, merge_step.
    destruct (obj_get h0 (currentItemsObj ms)) as [c|].
    + by destruct (isUpd c n0).
    + simpl. by apply obj_set_NoDup.
Qed.
End MergeLoopSpec.

(** The update and insert sets of a merge, read off hash by hash. *)
Lemma merge_plan_spec ck opts current o :
  NoDup o.*1 ->
  let isUpd := default (default_isUpdateCB ck) (isUpdateCB opts) in
  let upd := default (default_updateCB ck) (updateCB opts) in
  let ms := merge_plan ck opts current o in
  (forall h, obj_get h (itemsToUpdate ms) =
     match obj_get h o with
     | Some n =>
         match obj_get h current with
         | Some c => if isUpd c n then Some (upd c n) else None
         | None => None
         end
     | None => None
     end) /\
  (forall h, obj_get h (itemsToInsert ms) =
     match obj_get h o with
     | Some n => match obj_get h current with Some _ => None | None => Some n end
     | None => None
     end) /\
  updated ms = length (itemsToUpdate ms) /\
  inserted ms = length (itemsToInsert ms) /\
  (isDeleteCB opts = None -> deleted ms = 0) /\
  NoDup (itemsToUpdate ms).*1 /\ NoDup (itemsToInsert ms).*1.
Proof.
  intros Hnd isUpd upd. unfold merge_plan. fold isUpd upd.
  set (ms1 := foldl (merge_step isUpd upd) (mkMergeState current [] [] [] 0 0 0) o).
  destruct (merge_loop_spec isUpd upd current o (mkMergeState current [] [] [] 0 0 0))
    as (HU & HI & HUl & HIl & HUnd & HInd); simpl; try done.
  fold ms1 in HU, HI, HUl, HIl, HUnd, HInd.
  assert (Hinv : merge_inv current ms1).
  { apply merge_loop_inv. repeat split; simpl; try done. by left. }
  destruct Hinv as (_ & _ & _ & _ & Hdl & Hd0).
  assert (Hfinal : forall ms, delete_inv o ms1 ms ->
    (forall h, obj_get h (itemsToUpdate ms) =
       match obj_get h o with
       | Some n =>
           match obj_get h current with
           | Some c => if isUpd c n then Some (upd c n) else None
           | None => None
           end
       | None => None
       end) /\
    (forall h, obj_get h (itemsToInsert ms) =
       match obj_get h o with
       | Some n => match obj_get h current with Some _ => None | None => Some n end
       | None => None
       end) /\
    updated ms = length (itemsToUpdate ms) /\
    inserted ms = length (itemsToInsert ms) /\
    NoDup (itemsToUpdate ms).*1 /\ NoDup (itemsToInsert ms).*1).
  { intros ms (_ & Hu & Hi & Hun & Hin & _). rewrite Hu, Hi, Hun, Hin.
    split; [intros h; rewrite HU; by destruct (obj_get h o)|].
    split; [intros h; rewrite HI; by destruct (obj_get h o)|].
    split; [done|]. split; [done|].
    split; [apply HUnd, NoDup_nil_2 | apply HInd, NoDup_nil_2]. }
  assert (Hself : delete_inv o ms1 ms1).
  { unfold delete_inv. split_and!; try done.
    intros h it Hel. rewrite Hdl in Hel. by apply elem_of_nil in Hel. }
  destruct (isDeleteCB opts) as [isDel|].
  - destruct (Hfinal (foldl (delete_step isDel o) ms1 (currentItemsObj ms1)))
      as (H1 & H2 & H3 & H4 & H5 & H6).
    { by apply delete_loop_inv. }
    by split_and!.
  - destruct (Hfinal ms1 Hself) as (H1 & H2 & H3 & H4 & H5 & H6). by split_and!.
Qed.

(** ** Merge: the default comparison and the default update *)

Lemma default_isUpdateCB_true km useKeys ignore (c n : item) :
  default_isUpdateCB (_filterKeysFrom km (use_keys_flat useKeys ++ ignore)) c n = true <->
  exists key, carried_field km useKeys ignore n key = true /\
              loose_eq (prop c key) (prop n key) = false.
Proof.
  unfold default_isUpdateCB, carried_field. rewrite existsb_exists. split.
  - intros ([k off] & Hin & Hcond). simpl in Hcond.
    apply andb_true_iff in Hcond as [Hhas Hneq]. apply negb_true_iff in Hneq.
    exists k. split; [|done].
    assert (Hk : k ∈ (_filterKeysFrom km (use_keys_flat useKeys ++ ignore)).*1).
    { apply list_elem_of_fmap. exists (k, off). split; [done|]. by apply list_elem_of_In. }
    apply filterKeysFrom_names in Hk as [Hk1 Hk2].
    by rewrite !bool_decide_eq_true_2, Hhas.
  - intros (key & Hcar & Hneq).
    apply andb_true_iff in Hcar as [Hcar Hhas].
    apply andb_true_iff in Hcar as [Hk1 Hk2].
    apply bool_decide_eq_true in Hk1. apply bool_decide_eq_true in Hk2.
    assert (Hk : key ∈ (_filterKeysFrom km (use_keys_flat useKeys ++ ignore)).*1)
      by (by apply filterKeysFrom_names).
    apply list_elem_of_fmap in Hk as ([k off] & -> & Hin).
    exists (k, off). split; [by apply list_elem_of_In|].
    simpl in *. unfold loose_neq. by rewrite Hhas, Hneq.
Qed.

Lemma default_updateCB_carried km useKeys ignore (c n : item) key :
  default_updateCB (_filterKeysFrom km (use_keys_flat useKeys ++ ignore)) c n !! key =
  if carried_field km useKeys ignore n key then Some (prop n key) else c !! key.
Proof.
  rewrite default_updateCB_lookup. unfold carried_field.
  rewrite (bool_decide_ext _ (key ∈ km.*1 /\ key ∉ use_keys_flat useKeys ++ ignore))
    by apply filterKeysFrom_names.
  destruct (decide (key ∈ km.*1)) as [H1|H1];
    destruct (decide (key ∉ use_keys_flat useKeys ++ ignore)) as [H2|H2].
  - by rewrite !bool_decide_eq_true_2.
  - rewrite (bool_decide_eq_false_2 (_ /\ _)) by (by intros [_ ?]).
    by rewrite (bool_decide_eq_false_2 (key ∉ _)), andb_false_r.
  - rewrite (bool_decide_eq_false_2 (_ /\ _)) by (by intros [? _]).
    by rewrite (bool_decide_eq_false_2 (key ∈ km.*1)).
  - rewrite (bool_decide_eq_false_2 (_ /\ _)) by (by intros [? _]).
    by rewrite (bool_decide_eq_false_2 (key ∈ km.*1)).
Qed.




(** The comparison is [!=]: the number 5 on the sheet and the incoming
    text 5 do not make an update. *)
Example number_and_text_compare_equal :
  let c := record [("sku", VStr "A"); ("qty", VNum 5); ("row", VNum 2)] in
  let n := record [("sku", VStr "A"); ("qty", VStr "5")] in
  default_isUpdateCB (_filterKeysFrom [("sku", 0); ("qty", 1)] ["sku"]) c n = false.
Proof. vm_compute. reflexivity. Qed.

(** ** The schema over the lifetime of a store *)

Lemma keeps_ret {A} (a : A) : keeps_schema (mret a).
Proof. intros st. split; [reflexivity | intros km H; exact H]. Qed.

Lemma keeps_bind {A B} (m : M A) (f : A -> M B) :
  keeps_schema m -> (forall a, keeps_schema (f a)) -> keeps_schema (m ≫= f).
Proof.
  intros Hm Hf st. rewrite bind_M. destruct (Hm st) as [Hfr Hk].
  destruct (m st) as [[a|e] st1]; simpl in *; [|done].
  destruct (Hf a st1) as [Hfr' Hk']. split; [congruence|].
  intros km Hkm. by apply Hk', Hk.
Qed.

Lemma keeps_throw {A} e : keeps_schema (@throw A e).
Proof. intros st. split; [reflexivity | intros km H; exact H]. Qed.

Lemma keeps_lift {A} (r : result A) : keeps_schema (lift r).
Proof. intros st. split; [reflexivity | intros km H; exact H]. Qed.

Lemma keeps_get_store : keeps_schema get_store.
Proof. intros st. split; [reflexivity | intros km H; exact H]. Qed.

Lemma keeps_fill_values v : keeps_schema (fill_values v).
Proof. intros st. split; [reflexivity | intros km H; exact H]. Qed.

Lemma keeps_on_sheet f : keeps_schema (on_sheet f).
Proof. intros st. split; [reflexivity | intros km H; exact H]. Qed.

Lemma keeps_resetCache : keeps_schema resetCache.
Proof. intros st. split; [reflexivity | intros km H; exact H]. Qed.

Lemma keeps_keys : keeps_schema keys.
Proof.
  intros st. unfold keys. destruct (frozen_keys st) eqn:Hf; simpl.
  { split; [done | intros km H; exact H]. }
  destruct (_keys st) eqn:Hk; simpl.
  { split; [done | intros km H; congruence]. }
  destruct (_getKeysFromSheet st); simpl; split; try done.
Qed.

#[local] Ltac keeps_step :=
  first
    [ apply keeps_ret | apply keeps_throw | apply keeps_lift | apply keeps_get_store
    | apply keeps_fill_values | apply keeps_on_sheet | apply keeps_resetCache
    | apply keeps_keys
    | apply keeps_bind; [|intros ?]
    | match goal with
      | |- keeps_schema (match ?x with _ => _ end) => destruct x
      | |- keeps_schema (let _ := _ in _) => cbv zeta
      end ].

#[local] Ltac keeps := repeat keeps_step.

Lemma keeps_values : keeps_schema values.
Proof.
  intros st. unfold values. destruct (_values st) eqn:Hv; [done|].
  revert st Hv. intros st _.
  assert (H : keeps_schema
    (km ← keys;
     first ← lift (letter 1);
     last ← lift (letter (lastDataColumn_of km));
     match a1_column first, a1_column last with
     | Some c1, Some c2 =>
         st' ← get_store;
         let v := getSheetValues (the_sheet st') (dataRowFirst st') c1
                    (S (maxRows (the_sheet st')) - dataRowFirst st') (S c2 - c1) in
         fill_values v;; mret v
     | _, _ => throw ErrRange
     end)) by keeps.
  apply H.
Qed.

Lemma keeps_dbItems : keeps_schema dbItems.
Proof. unfold dbItems. apply keeps_bind; [apply keeps_values|intros ?]. keeps. Qed.

Lemma keeps_getDataItemsArray opts : keeps_schema (getDataItemsArray opts).
Proof.
  unfold getDataItemsArray. apply keeps_bind; [apply keeps_keys|intros ?].
  apply keeps_bind; [apply keeps_values|intros ?]. keeps.
Qed.

Lemma keeps_getDataItemsObject u opts : keeps_schema (getDataItemsObject u opts).
Proof.
  unfold getDataItemsObject. apply keeps_bind; [apply keeps_keys|intros ?].
  apply keeps_bind; [apply keeps_values|intros ?]. keeps.
Qed.

Lemma keeps_getDataItemByRow row : keeps_schema (getDataItemByRow row).
Proof. unfold getDataItemByRow. keeps. Qed.

Lemma keeps_setValues row col vals : keeps_schema (_setValues row col vals).
Proof. unfold _setValues. keeps. Qed.

Lemma keeps_write_chunks km itemsArray chunks : keeps_schema (write_chunks km itemsArray chunks).
Proof.
  induction chunks as [|ch rest IH]; simpl; [apply keeps_ret|].
  apply keeps_bind; [apply keeps_setValues | by intros ?].
Qed.

Lemma keeps_updateDataItemsByChunks itemsArray :
  keeps_schema (_updateDataItemsByChunks itemsArray).
Proof.
  unfold _updateDataItemsByChunks. destruct itemsArray; [apply keeps_throw|].
  cbv zeta. apply keeps_bind; [apply keeps_keys | intros ?].
  apply keeps_bind; [apply keeps_write_chunks | intros ?].
  destruct (_ <? _); [apply keeps_throw | apply keeps_ret].
Qed.

Lemma keeps_issue_deletes chunks : keeps_schema (mapM issue_delete chunks).
Proof.
  induction chunks as [|ch rest IH]; [apply keeps_ret|].
  change (mapM issue_delete (ch :: rest)) with
    (issue_delete ch ≫= fun y => mapM issue_delete rest ≫= fun k => mret (y :: k)).
  apply keeps_bind; [apply keeps_on_sheet | intros ?].
  apply keeps_bind; [done | intros ?; apply keeps_ret].
Qed.

Lemma keeps_deleteDataItemsByChunks itemsArray :
  keeps_schema (_deleteDataItemsByChunks itemsArray).
Proof.
  unfold _deleteDataItemsByChunks. destruct itemsArray; [apply keeps_throw|].
  cbv zeta. apply keeps_bind; [apply keeps_issue_deletes | intros ?].
  destruct (_ <? _); [apply keeps_throw | apply keeps_ret].
Qed.

Lemma keeps_deleteDataItems d : keeps_schema (deleteDataItems d).
Proof.
  unfold deleteDataItems. apply keeps_bind; [apply keeps_lift | intros ?].
  destruct (js_sort _ _) as [|x l]; [apply keeps_ret|].
  apply keeps_bind; [apply keeps_deleteDataItemsByChunks|intros ?; apply keeps_resetCache].
Qed.

Lemma keeps_insertDataItems d : keeps_schema (insertDataItems d).
Proof.
  unfold insertDataItems. apply keeps_bind; [apply keeps_keys|intros km].
  destruct (_parseDataToArray km d VNull); [apply keeps_ret|].
  apply keeps_bind; [apply keeps_get_store|intros ?].
  apply keeps_bind; [apply keeps_on_sheet|intros ?].
  apply keeps_bind; [apply keeps_setValues|intros ?]. apply keeps_resetCache.
Qed.

Lemma keeps_insertDataItems_with d dv growUp :
  keeps_schema (insertDataItems_with d dv growUp).
Proof.
  unfold insertDataItems_with. apply keeps_bind; [apply keeps_keys|intros km].
  cbv zeta. destruct (_parseDataToArray km d _); [apply keeps_ret|].
  apply keeps_bind; [apply keeps_get_store|intros ?].
  apply keeps_bind; [|intros ?; apply keeps_resetCache].
  destruct growUp.
  - apply keeps_bind; [apply keeps_on_sheet | intros ?; apply keeps_setValues].
  - apply keeps_bind; [apply keeps_on_sheet | intros ?; apply keeps_setValues].
Qed.

Lemma keeps_fit n growUp : keeps_schema (_fit n growUp).
Proof.
  unfold _fit. apply keeps_bind; [apply keeps_get_store|intros st0]. cbv zeta.
  destruct (negb _); [|apply keeps_ret].
  apply keeps_bind; [|intros ?; apply keeps_resetCache].
  destruct (_ <? _)%Z; [apply keeps_on_sheet|].
  destruct growUp; apply keeps_on_sheet.
Qed.

Lemma keeps_replaceData d dv : keeps_schema (replaceData d dv).
Proof.
  unfold replaceData. apply keeps_bind; [apply keeps_fit|intros ?].
  apply keeps_bind; [apply keeps_keys|intros ?].
  apply keeps_bind; [apply keeps_get_store|intros ?].
  apply keeps_bind; [apply keeps_setValues|intros ?; apply keeps_resetCache].
Qed.

Lemma keeps_keysLetters : keeps_schema keysLetters.
Proof.
  unfold keysLetters. apply keeps_bind; [apply keeps_keys|intros km].
  induction km as [|kv km IH]; [apply keeps_ret|].
  change (mapM ?f (kv :: km)) with (f kv ≫= fun y => mapM f km ≫= fun k => mret (y :: k)).
  apply keeps_bind.
  { apply keeps_bind; [apply keeps_lift | intros ?; apply keeps_ret]. }
  intros ?. apply keeps_bind; [exact IH | intros ?; apply keeps_ret].
Qed.

Lemma keeps_updateDataItemByRow row it ck ik :
  keeps_schema (updateDataItemByRow row it ck ik).
Proof.
  unfold updateDataItemByRow.
  apply keeps_bind; [apply keeps_getDataItemByRow|intros cur].
  destruct (control_mismatch ck cur it); [apply keeps_ret|].
  apply keeps_bind; [apply keeps_keys|intros km]. cbv zeta.
  destruct (item_row _); [|apply keeps_throw].
  apply keeps_bind; [apply keeps_setValues|intros ?]. keeps.
Qed.

Lemma keeps_merge_sets d u opts : keeps_schema (merge_sets d u opts).
Proof.
  unfold merge_sets. apply keeps_bind; [apply keeps_getDataItemsObject|intros ?]. keeps.
Qed.

Lemma keeps_mergeDataItems d u opts : keeps_schema (mergeDataItems d u opts).
Proof.
  unfold mergeDataItems, merge_writes. apply keeps_bind; [apply keeps_merge_sets|intros ms].
  apply keeps_bind.
  { destruct (0 <? updated ms); [apply keeps_updateDataItemsByChunks | apply keeps_ret]. }
  intros _. apply keeps_bind.
  { destruct (0 <? inserted ms); [apply keeps_insertDataItems | apply keeps_ret]. }
  intros _. apply keeps_bind.
  { destruct (0 <? deleted ms); [apply keeps_deleteDataItems | apply keeps_ret]. }
  intros _. keeps.
Qed.

Lemma keeps_getDataItemByRow_with row ignoreKeys itemCB :
  keeps_schema (getDataItemByRow_with row ignoreKeys itemCB).
Proof. unfold getDataItemByRow_with. keeps. Qed.

Lemma keeps_clearData medium : keeps_schema (clearData medium).
Proof. unfold clearData. keeps. Qed.

Lemma keeps_sort medium sortOptions : keeps_schema (sort medium sortOptions).
Proof. unfold sort. keeps. Qed.

Lemma keeps_mapM {A B} (f : A -> M B) (l : list A) :
  (forall a, keeps_schema (f a)) -> keeps_schema (mapM f l).
Proof.
  intros Hf. induction l as [|x l IH]; [apply keeps_ret|].
  change (mapM f (x :: l)) with (f x ≫= fun y => mapM f l ≫= fun k => mret (y :: k)).
  apply keeps_bind; [apply Hf | intros ?].
  apply keeps_bind; [done | intros ?; apply keeps_ret].
Qed.

Lemma keeps_insertCheckboxes medium u : keeps_schema (insertCheckboxes medium u).
Proof.
  unfold insertCheckboxes. destruct (use_keys_flat u) as [|k ks]; [apply keeps_throw|].
  apply keeps_bind; [apply keeps_keys | intros km].
  apply keeps_bind; [apply keeps_lift | intros ?].
  apply keeps_bind; [|intros ?; apply keeps_resetCache].
  apply keeps_mapM. intros key. keeps.
Qed.

Lemma keeps_generateTypeDef sheetName itemName :
  keeps_schema (generateTypeDef sheetName itemName).
Proof. unfold generateTypeDef. keeps. Qed.

(** No operation changes the schema installed by the constructor, and none
    but [resetKeys] drops or replaces a discovered one. *)
Lemma run_keeps_schema op st :
  frozen_keys (run op st) = frozen_keys st /\
  (is_resetKeys op = false -> forall km, _keys st = Some km -> _keys (run op st) = Some km).
Proof.
  destruct op; simpl; try done;
    try (match goal with |- context [(?m st).2] =>
           assert (Hm : keeps_schema m) end;
         [ first [ apply keeps_keys | apply keeps_values | apply keeps_dbItems
                 | apply keeps_getDataItemsArray | apply keeps_getDataItemsObject
                 | apply keeps_getDataItemByRow_with | apply keeps_insertDataItems_with
                 | apply keeps_clearData | apply keeps_sort | apply keeps_insertCheckboxes
                 | apply keeps_generateTypeDef | apply keeps_ret | apply keeps_lift
                 | apply keeps_deleteDataItems | apply keeps_updateDataItemByRow
                 | apply keeps_mergeDataItems | apply keeps_resetCache
                 | apply keeps_replaceData | apply keeps_fit | apply keeps_setValues
                 | apply keeps_updateDataItemsByChunks
                 | apply keeps_deleteDataItemsByChunks | apply keeps_keysLetters
                 | solve [unfold keysColumns, keysArray, lastDataColumn, getDataItems,
                            insertDataItem, insert;
                          first [ keeps_step; keeps | apply keeps_getDataItemsArray
                                | apply keeps_insertDataItems_with ]] ]
         | destruct (Hm st) as [H1 H2]; split; [done | intros _; exact H2] ]).
  unfold resetKeys. destruct (frozen_keys st) eqn:Hf; simpl; (split; [done | discriminate]).
Qed.

Lemma run_all_keeps_schema ops : forall st,
  frozen_keys (run_all ops st) = frozen_keys st /\
  (Forall (fun op => is_resetKeys op = false) ops ->
   forall km, _keys st = Some km -> _keys (run_all ops st) = Some km).
Proof.
  induction ops as [|op ops IH]; intros st; [done|].
  unfold run_all. cbn [foldl]. fold (run_all ops (run op st)).
  destruct (IH (run op st)) as [Hf Hk]. destruct (run_keeps_schema op st) as [Hf1 Hk1].
  split; [congruence|].
  intros Hall km Hkm. apply Forall_cons in Hall as [Hop Hall].
  by apply Hk, Hk1.
Qed.




(** Without [resetKeys], the same edit of the header row is not seen. *)
Example header_edit_not_seen :
  let st := (keys (sample_store [[VStr "A"; VNum 5]])).2 in
  (keys (run_all [EditRow 1 [VStr "id"; VStr "qty"]; CallResetCache] st)).1
    = Ok [("sku", 0); ("qty", 1)].
Proof. vm_compute. reflexivity. Qed.

(** ** Reading the sheet *)

Lemma lookup_getSheetValues sh row col h w i :
  i < h ->
  getSheetValues sh row col h w !! i = Some (read_cell sh (row + i) <$> seq col w).
Proof.
  intros Hi. unfold getSheetValues. rewrite list_lookup_fmap.
  by rewrite lookup_seq_lt.
Qed.

Lemma getSheetValues_region sh d n w :
  getSheetValues sh d 1 n w = region_row sh w <$> seq d n.
Proof. reflexivity. Qed.

Lemma length_region_row sh w r : length (region_row sh w r) = w.
Proof. unfold region_row. by rewrite length_fmap, length_seq. Qed.

Lemma lookup_region_row sh w r j :
  j < w -> region_row sh w r !! j = Some (read_cell sh r (S j)).
Proof.
  intros Hj. unfold region_row. rewrite list_lookup_fmap.
  by rewrite lookup_seq_lt.
Qed.

Lemma cell_norm_idem v : cell_norm (cell_norm v) = cell_norm v.
Proof. by destruct v. Qed.

Lemma cell_norm_read sh r c : cell_norm (read_cell sh r c) = read_cell sh r c.
Proof. unfold read_cell. destruct c; [done | apply cell_norm_idem]. Qed.

(** Rows with the same cells read the same. *)
Lemma region_row_ext sh sh' w r r' :
  cells sh r = cells sh' r' -> region_row sh w r = region_row sh' w r'.
Proof.
  intros Heq. unfold region_row. apply list_fmap_ext. intros i c _.
  unfold read_cell. by rewrite Heq.
Qed.

(** A row read after a write that covers it: the values written, as a
    read reports them. *)
Lemma region_row_written sh w r (vs : list value) cs :
  cells sh r = vs ++ cs -> length vs = w ->
  region_row sh w r = cell_norm <$> vs.
Proof.
  intros Hc Hw. apply list_eq. intros j.
  destruct (decide (j < w)) as [Hj|Hj].
  - rewrite lookup_region_row by done. rewrite list_lookup_fmap.
    unfold read_cell. rewrite Hc, lookup_app_l by lia.
    destruct (lookup_lt_is_Some_2 vs j) as [v Hv]; [lia|]. by rewrite Hv.
  - rewrite !lookup_ge_None_2; [done | rewrite length_fmap; lia |].
    rewrite length_region_row. lia.
Qed.

Lemma row_is_empty_blank w : row_is_empty (replicate w blank) = true.
Proof. induction w; [done|]. simpl. done. Qed.

(** A row without content reads blank. *)
Lemma region_row_no_content sh w r :
  row_has_content (cells sh r) = false -> region_row sh w r = replicate w blank.
Proof.
  intros Hno. apply list_eq. intros j.
  destruct (decide (j < w)) as [Hj|Hj].
  - rewrite lookup_region_row by done. rewrite lookup_replicate_2 by done.
    f_equal. unfold read_cell.
    destruct (cells sh r !! j) as [v|] eqn:Hv; [|done]. simpl.
    unfold row_has_content in Hno.
    destruct (strict_eq (cell_norm v) blank) eqn:Hb.
    + rewrite strict_eq_blank in Hb. by apply bool_decide_eq_true in Hb.
    + assert (Hex : existsb (fun v => negb (strict_eq (cell_norm v) blank)) (cells sh r) = true).
      { apply existsb_exists. exists v. split; [|by rewrite Hb].
        apply list_elem_of_In. by eapply list_elem_of_lookup_2. }
      congruence.
  - rewrite !lookup_ge_None_2; [done | rewrite length_replicate; lia |].
    rewrite length_region_row. lia.
Qed.

(** A row that does not read empty has content. *)
Lemma row_not_empty_has_content sh w r :
  row_is_empty (region_row sh w r) = false -> row_has_content (cells sh r) = true.
Proof.
  intros Hne. destruct (row_has_content (cells sh r)) eqn:Hc; [done|].
  rewrite (region_row_no_content _ _ _ Hc), row_is_empty_blank in Hne. done.
Qed.

(** *** The last row with content *)

Lemma find_last_row_le sh n : find_last_row sh n <= n.
Proof.
  induction n as [|n IH]; simpl; [done|].
  destruct (row_has_content (cells sh (S n))); lia.
Qed.

Lemma find_last_row_content sh n r :
  r <= n -> 1 <= r -> row_has_content (cells sh r) = true -> r <= find_last_row sh n.
Proof.
  induction n as [|n IH]; intros Hle Hpos Hc; [lia|]. simpl.
  destruct (row_has_content (cells sh (S n))) eqn:Hn; [done|].
  destruct (decide (r = S n)) as [->|Hne]; [congruence|]. apply IH; [lia | done | done].
Qed.

Lemma find_last_row_after sh n r :
  find_last_row sh n < r -> r <= n -> row_has_content (cells sh r) = false.
Proof.
  induction n as [|n IH]; intros Hlt Hle; [lia|]. simpl in Hlt.
  destruct (row_has_content (cells sh (S n))) eqn:Hn; [lia|].
  destruct (decide (r = S n)) as [->|Hne]; [done|]. apply IH; [done | lia].
Qed.

(** ** Rows and records *)

Lemma offset_lt_width (km : keymap) k off :
  (k, off) ∈ km -> off < lastDataColumn_of km.
Proof.
  unfold lastDataColumn_of. induction km as [|[k' off'] km IH]; intros Hin.
  - by apply elem_of_nil in Hin.
  - rewrite fmap_cons. cbn [foldr snd].
    apply elem_of_cons in Hin as [[= <- <-]|Hin].
    + eapply Nat.lt_le_trans; [|apply Nat.le_max_l]. lia.
    + eapply Nat.lt_le_trans; [by apply IH | apply Nat.le_max_r].
Qed.

Section RowOfItem.
Context (it : item).

Lemma foldl_set_other (km : keymap) : forall (row : list value) j,
  j ∉ km.*2 ->
  foldl (fun row kv => if has_prop it kv.1 then <[kv.2 := prop it kv.1]> row else row)
        row km !! j = row !! j.
Proof.
  induction km as [|[k off] km IH]; intros row j Hj; [done|].
  rewrite fmap_cons in Hj. apply not_elem_of_cons in Hj as [Hne Hj]. simpl in Hne.
  cbn [foldl fst snd]. rewrite IH by done.
  destruct (has_prop it k); [|done]. by rewrite list_lookup_insert_ne.
Qed.

Lemma foldl_set_lookup (km : keymap) : forall (row : list value) k off,
  NoDup km.*2 -> (k, off) ∈ km -> off < length row ->
  foldl (fun row kv => if has_prop it kv.1 then <[kv.2 := prop it kv.1]> row else row)
        row km !! off
  = if has_prop it k then Some (prop it k) else row !! off.
Proof.
  induction km as [|[k' off'] km IH]; intros row k off Hnd Hin Hlt.
  - by apply elem_of_nil in Hin.
  - rewrite fmap_cons in Hnd. apply NoDup_cons in Hnd as [Hni Hnd]. simpl in Hni.
    cbn [foldl fst snd]. apply elem_of_cons in Hin as [[= <- <-]|Hin].
    + rewrite foldl_set_other by done.
      destruct (has_prop it k); [|done]. by rewrite list_lookup_insert_eq.
    + assert (off <> off').
      { intros ->. apply Hni. apply list_elem_of_fmap. by exists (k, off'). }
      rewrite (IH _ k off Hnd Hin).
      * destruct (has_prop it k); [done|].
        destruct (has_prop it k'); [by rewrite list_lookup_insert_ne | done].
      * destruct (has_prop it k'); [by rewrite length_insert | done].
Qed.
End RowOfItem.

(** What [_parseDataToArray] puts at the offset of a field. *)
Lemma row_of_item_lookup km v (it : item) k off :
  NoDup km.*2 -> (k, off) ∈ km ->
  row_of_item km v it !! off = Some (if has_prop it k then prop it k else v).
Proof.
  intros Hnd Hin. unfold row_of_item.
  pose proof (offset_lt_width km k off Hin) as Hlt.
  rewrite (foldl_set_lookup it km _ k off Hnd Hin) by (by rewrite length_replicate).
  destruct (has_prop it k); [done|]. by rewrite lookup_replicate_2.
Qed.

(** The fields of the record built from a row. *)
Lemma row_record_field km r cs k off :
  NoDup km.*1 -> "row" ∉ km.*1 -> (k, off) ∈ km ->
  row_record km r cs !! k = Some (default VUndef (cs !! off)).
Proof.
  intros Hnd Hrow Hin. unfold row_record, fill_item.
  assert (k <> "row").
  { intros ->. apply Hrow. apply list_elem_of_fmap. by exists ("row", off). }
  rewrite lookup_insert_ne by done.
  by rewrite (foldl_insert_NoDup (fun kv => default VUndef (cs !! kv.2)) km _ k off).
Qed.

Lemma row_record_row km r cs : row_record km r cs !! "row" = Some (VNum (Z.of_nat r)).
Proof. unfold row_record. apply lookup_insert_eq. Qed.

Lemma row_record_other km r cs k :
  k <> "row" -> k ∉ km.*1 -> row_record km r cs !! k = None.
Proof.
  intros Hne Hk. unfold row_record, fill_item. rewrite lookup_insert_ne by done.
  rewrite (foldl_insert_other (fun kv => default VUndef (cs !! kv.2))) by done.
  unfold new_DBItem. by rewrite lookup_singleton_ne.
Qed.

Lemma dbItem_of_row_record km d i cs : dbItem_of km d i cs = row_record km (i + d) cs.
Proof. reflexivity. Qed.

Lemma row_is_empty_false cs j v :
  cs !! j = Some v -> v <> blank -> row_is_empty cs = false.
Proof.
  intros Hj Hv. apply not_true_is_false. unfold row_is_empty. rewrite forallb_forall.
  intros Hall.
  assert (Hb : strict_eq v blank = true).
  { apply Hall, list_elem_of_In. by eapply list_elem_of_lookup_2. }
  rewrite strict_eq_blank in Hb. by apply bool_decide_eq_true in Hb.
Qed.

(** *** The hash of a record depends on its key fields only *)

Lemma checkKeys_names km u :
  _checkKeys km u = Ok tt -> forall k, k ∈ use_keys_flat u -> k ∈ km.*1.
Proof.
  assert (Hlist : forall ks, check_key_list km ks = Ok tt -> forall k, k ∈ ks -> k ∈ km.*1).
  { induction ks as [|k0 ks IH]; intros Hok k Hk; [by apply elem_of_nil in Hk|].
    simpl in Hok. unfold check_key in Hok at 1.
    destruct (obj_has k0 km) eqn:Hhas; [|done]. simpl in Hok.
    apply elem_of_cons in Hk as [->|Hk]; [by apply obj_has_names | by apply IH]. }
  destruct u as [key|ks]; simpl.
  - unfold check_key. destruct (obj_has key km) eqn:Hhas; [|done].
    intros _ k Hk. apply list_elem_of_singleton in Hk as ->. by apply obj_has_names.
  - destruct ks as [|k0 ks]; [done|]. apply Hlist.
Qed.

Lemma getKeysHashFunction_Ok km u hf :
  _getKeysHashFunction km u = Ok hf ->
  (forall k, k ∈ use_keys_flat u -> k ∈ km.*1) /\
  use_keys_flat u <> [] /\
  (forall a b : item, (forall k, k ∈ use_keys_flat u -> prop a k = prop b k) -> hf a = hf b).
Proof.
  unfold _getKeysHashFunction.
  destruct (_checkKeys km u) as [[]|e] eqn:Hck; [|done]. simpl.
  pose proof (checkKeys_names km u Hck) as Hnames.
  destruct u as [key|[|k0 [|k1 rest]]]; simpl; try done.
  - intros [= <-]. split; [done|]. split; [done|]. intros a b Hab. apply Hab. set_solver.
  - intros [= <-]. split; [done|]. split; [done|]. intros a b Hab. apply Hab. set_solver.
  - intros [= <-]. split; [done|]. split; [done|]. intros a b Hab.
    unfold hash_concat. f_equal. rewrite (Hab k0) by set_solver.
    assert (Hrest : forall k, k ∈ k1 :: rest -> prop a k = prop b k).
    { intros k Hk. apply Hab. by apply list_elem_of_further. }
    revert Hrest. generalize (k1 :: rest). generalize (to_string (prop b k0)).
    intros s l. revert s. induction l as [|k l IH]; intros s Hl; [done|].
    cbn [foldl]. rewrite (Hl k) by apply list_elem_of_here.
    apply IH. intros k' Hk'. by apply Hl, list_elem_of_further.
Qed.

(** ** The current records, row by row *)

Lemma find_row_Some m d n r :
  find_row m d n = Some r ->
  d <= r /\ r < d + n /\ m r = true /\ (forall r', r < r' -> r' < d + n -> m r' = false).
Proof.
  induction n as [|n IH]; simpl; [done|].
  destruct (m (d + n)) eqn:Hm.
  - intros [= <-]. split_and!; [lia | lia | done |]. intros r' ? ?. lia.
  - intros Hf. destruct (IH Hf) as (H1 & H2 & H3 & H4). split_and!; [lia | lia | done |].
    intros r' Hlt Hr'. destruct (decide (r' = d + n)) as [->|Hne]; [done|].
    apply H4; lia.
Qed.

Lemma find_row_None m d n r :
  find_row m d n = None -> d <= r -> r < d + n -> m r = false.
Proof.
  induction n as [|n IH]; simpl; [lia|].
  destruct (m (d + n)) eqn:Hm; [done|].
  intros Hf Hd Hr. destruct (decide (r = d + n)) as [->|Hne]; [done|]. apply IH; [done | done | lia].
Qed.

Lemma find_row_intro m d n r :
  d <= r -> r < d + n -> m r = true ->
  (forall r', r < r' -> r' < d + n -> m r' = false) ->
  find_row m d n = Some r.
Proof.
  induction n as [|n IH]; intros Hd Hr Hm Hlater; [lia|]. simpl.
  destruct (decide (r = d + n)) as [->|Hne].
  - by rewrite Hm.
  - rewrite (Hlater (d + n)) by lia. apply IH; [done | lia | done |].
    intros r' ? ?. apply Hlater; lia.
Qed.

Lemma zip_fmap_same {A B C} (f : A -> B) (g : A -> C) (l : list A) :
  zip (f <$> l) (g <$> l) = (fun x => (f x, g x)) <$> l.
Proof. induction l as [|x l IH]; [done|]. rewrite !fmap_cons. cbn [zip_with]. by f_equal. Qed.

Lemma dbItems_of_region km sh w d n :
  dbItems_of km d (region_row sh w <$> seq d n)
  = (fun r => row_record km r (region_row sh w r)) <$> seq d n.
Proof.
  apply list_eq. intros i. unfold dbItems_of.
  rewrite list_lookup_imap, !list_lookup_fmap.
  destruct (decide (i < n)) as [Hi|Hi].
  - rewrite lookup_seq_lt by done. simpl. by rewrite dbItem_of_row_record, Nat.add_comm.
  - by rewrite lookup_seq_ge by lia.
Qed.

Lemma region_entries km sh w d n :
  zip (rowsEmptyStatuses_of (getSheetValues sh d 1 n w))
      (dbItems_of km d (getSheetValues sh d 1 n w))
  = (fun r => (row_is_empty (region_row sh w r), row_record km r (region_row sh w r)))
      <$> seq d n.
Proof.
  rewrite getSheetValues_region, dbItems_of_region. unfold rowsEmptyStatuses_of.
  rewrite <- list_fmap_compose. apply (zip_fmap_same (fun r => row_is_empty (region_row sh w r))).
Qed.

(** The current record under a hash is the record of the last row that is
    not empty and hashes to it. *)
Lemma current_get km hf sh d n h :
  obj_get h (getDataItemsObject_from km d
               (getSheetValues sh d 1 n (lastDataColumn_of km)) no_read_options hf)
  = (fun r => row_record km r (region_row sh (lastDataColumn_of km) r))
      <$> find_row (row_matches km hf sh h) d n.
Proof.
  unfold getDataItemsObject_from. rewrite region_entries.
  induction n as [|n IH]; [done|].
  rewrite seq_S, fmap_app, foldl_app. simpl.
  unfold row_matches at 1.
  destruct (row_is_empty (region_row sh (lastDataColumn_of km) (d + n))); simpl; [apply IH|].
  rewrite obj_get_set.
  destruct (decide (to_string (hf (row_record km (d + n)
              (region_row sh (lastDataColumn_of km) (d + n)))) = h)) as [Heq|Hne].
  - by rewrite bool_decide_eq_true_2.
  - rewrite bool_decide_eq_false_2 by done. apply IH.
Qed.

(** ** The incoming records, grouped *)

Lemma parse_items_Ok hf l : forall acc o,
  parse_items hf None l acc = Ok o ->
  NoDup acc.*1 ->
  NoDup o.*1 /\
  (forall h n, obj_get h o = Some n ->
     obj_get h acc = Some n \/ (n ∈ l /\ h = to_string (hf n))).
Proof.
  induction l as [|x l IH]; intros acc o; simpl.
  - intros [= <-] Hnd. split; [done|]. intros h n Hget. by left.
  - destruct (obj_has (to_string (hf x)) acc) eqn:Hhas; [done|].
    intros Hp Hnd. destruct (IH _ _ Hp (obj_set_NoDup _ _ _ Hnd)) as [Hnd' Hget'].
    split; [done|]. intros h n Hget. destruct (Hget' h n Hget) as [Hacc|[Hin Hh]].
    + rewrite obj_get_set in Hacc.
      destruct (decide (to_string (hf x) = h)) as [<-|Hne].
      * injection Hacc as <-. right. split; [apply list_elem_of_here | done].
      * by left.
    + right. split; [by apply list_elem_of_further | done].
Qed.

(** ** Chunked update *)

Lemma update_chunks_loop_spec rows : forall i pre cur,
  update_chunks_loop i rows (pre ++ [cur]) (length pre) = pre ++ group_asc i cur rows.
Proof.
  induction rows as [|row rest IH]; intros i pre cur; simpl; [done|].
  rewrite list_lookup_middle by done. simpl.
  destruct (negb (row - lastRow cur =? 1)%Z).
  - replace (S (length pre)) with (length (pre ++ [cur])) by (rewrite length_app; simpl; lia).
    rewrite IH. by rewrite <- app_assoc.
  - rewrite insert_app_r_alt by done. rewrite Nat.sub_diag. simpl. apply IH.
Qed.

Lemma omap_lookup_seq {A} (l : list A) k : forall i0,
  i0 + k <= length l ->
  omap (fun i => l !! i) (seq i0 k) = take k (drop i0 l).
Proof.
  induction k as [|k IH]; intros i0 Hle; [done|].
  destruct (lookup_lt_is_Some_2 l i0) as [x Hx]; [lia|].
  cbn [seq omap list_omap]. rewrite Hx. 
  rewrite (drop_S l x i0 Hx). cbn [take]. f_equal. apply IH. lia.
Qed.

Lemma cells_setValues sh row vals r :
  cells (setValues sh row 1 vals) r =
  if (row <=? r) && (r <? row + length vals)
  then default [] (vals !! (r - row)) ++ drop (length (default [] (vals !! (r - row)))) (cells sh r)
  else cells sh r.
Proof. reflexivity. Qed.

Lemma setValues_rows km (l : list item) row vals :
  km <> [] -> l <> [] -> vals = row_of_item km VNull <$> l ->
  forall st, _setValues row 1 vals st = (Ok true, with_sheet st (setValues (the_sheet st) row 1 vals)).
Proof.
  intros Hkm Hl -> st. destruct l as [|x l]; [done|]. rewrite fmap_cons.
  destruct (row_of_item km VNull x) as [|v vs] eqn:Hrow; [|done].
  apply (f_equal length) in Hrow. rewrite length_row_of_item in Hrow.
  pose proof (lastDataColumn_pos km Hkm). simpl in Hrow. lia.
Qed.

Section WriteChunks.
Context (km : keymap) (items : list item) (nrows : list nat).
Context (Hkm : km <> []) (Hlen : length items = length nrows) (Hnd : NoDup nrows).

Lemma writes_rows_compose lo mid hi sh sh1 sh2 :
  lo <= mid -> mid <= hi ->
  writes_rows km items nrows lo mid sh sh1 ->
  writes_rows km items nrows mid hi sh1 sh2 ->
  writes_rows km items nrows lo hi sh sh2.
Proof.
  intros Hlm Hmh [Hm1 H1] [Hm2 H2]. split; [congruence|]. intros r.
  destruct (H1 r) as [H1a H1b]. destruct (H2 r) as [H2a H2b]. split.
  - intros j it Hlo Hhi Hr Hit. destruct (decide (j < mid)) as [Hj|Hj].
    + rewrite H2b.
      * by apply (H1a j it).
      * intros j' Hj'1 Hj'2 Hr'.
        assert (j = j') by (eapply NoDup_lookup; eauto). lia.
    + rewrite (H2a j it) by (done || lia). rewrite H1b; [done|].
      intros j' Hj'1 Hj'2 Hr'.
      assert (j = j') by (eapply NoDup_lookup; eauto). lia.
  - intros Hnone. rewrite H2b.
    + apply H1b. intros j ? ?. apply Hnone; lia.
    + intros j ? ?. apply Hnone; lia.
Qed.

Lemma writes_rows_chunk sh i0 k f :
  i0 + k <= length items ->
  (forall t, t < k -> nrows !! (i0 + t) = Some (f + t)) ->
  writes_rows km items nrows i0 (i0 + k) sh
    (setValues sh f 1 (row_of_item km VNull <$> take k (drop i0 items))).
Proof.
  intros Hle Hrun. split; [done|]. intros r.
  set (vals := row_of_item km VNull <$> take k (drop i0 items)).
  assert (Hlv : length vals = k).
  { unfold vals. rewrite length_fmap, length_take, length_drop. lia. }
  rewrite cells_setValues, Hlv. split.
  - intros j it Hlo Hhi Hr Hit.
    assert (Ht : j = i0 + (j - i0)) by lia.
    rewrite Ht, Hrun in Hr by lia. injection Hr as <-.
    rewrite (proj2 (Nat.leb_le _ _)) by lia. rewrite (proj2 (Nat.ltb_lt _ _)) by lia.
    cbn [andb]. replace (f + (j - i0) - f) with (j - i0) by lia.
    assert (Hv : vals !! (j - i0) = Some (row_of_item km VNull it)).
    { unfold vals. rewrite list_lookup_fmap, lookup_take_lt by lia.
      rewrite lookup_drop. replace (i0 + (j - i0)) with j by lia. by rewrite Hit. }
    rewrite Hv. simpl. by rewrite length_row_of_item.
  - intros Hnone.
    destruct ((f <=? r) && (r <? f + k)) eqn:Hc; [|done].
    apply andb_true_iff in Hc as [Hc1 Hc2].
    apply Nat.leb_le in Hc1. apply Nat.ltb_lt in Hc2.
    destruct (Hnone (i0 + (r - f))); [lia | lia |].
    rewrite Hrun by lia. f_equal. lia.
Qed.

Lemma write_group rest : forall cur i i0 k f st,
  rest = drop i (Z.of_nat <$> nrows) ->
  indexes cur = seq i0 k -> 1 <= k -> i0 + k = i -> i <= length nrows ->
  firstRow cur = Z.of_nat f -> lastRow cur = Z.of_nat (f + k - 1) ->
  (forall t, t < k -> nrows !! (i0 + t) = Some (f + t)) ->
  exists sh',
    write_chunks km items (group_asc i cur rest) st = (Ok tt, with_sheet st sh') /\
    writes_rows km items nrows i0 (length nrows) (the_sheet st) sh'.
Proof.
  induction rest as [|row rest IH]; intros cur i i0 k f st Hrest Hidx Hk Hi Hile Hfirst Hlast Hrun.
  - assert (Hfull : i = length nrows).
    { apply (f_equal length) in Hrest. rewrite length_drop, length_fmap in Hrest.
      simpl in Hrest. lia. }
    cbn [group_asc write_chunks]. rewrite Hidx, Hfirst, Nat2Z.id.
    rewrite omap_lookup_seq by lia. rewrite bind_M.
    unfold _parseDataToArray. cbn [items_list].
    rewrite (setValues_rows km (take k (drop i0 items))); [|done| |done].
    2:{ intros Hnil. apply (f_equal length) in Hnil.
        rewrite length_take, length_drop in Hnil. simpl in Hnil. lia. }
    eexists. split; [reflexivity|]. cbn [the_sheet with_sheet].
    rewrite <- Hfull, <- Hi. apply writes_rows_chunk; [lia | done].
  - assert (Hrow : exists r', nrows !! i = Some r' /\ row = Z.of_nat r' /\
                              rest = drop (S i) (Z.of_nat <$> nrows)).
    { assert (Hl : (Z.of_nat <$> nrows) !! i = Some row).
      { rewrite <- (Nat.add_0_r i), <- lookup_drop, <- Hrest. done. }
      rewrite list_lookup_fmap in Hl. destruct (nrows !! i) as [r'|] eqn:Hr'; [|done].
      exists r'. split; [done|]. split; [by injection Hl|].
      replace (S i) with (i + 1) by lia. by rewrite <- drop_drop, <- Hrest. }
    destruct Hrow as (r' & Hr' & -> & Hrest').
    assert (Hlt : i < length nrows) by (by eapply lookup_lt_Some).
    cbn [group_asc]. rewrite Hlast.
    destruct (negb (Z.of_nat r' - Z.of_nat (f + k - 1) =? 1)%Z) eqn:Hgap.
    + cbn [write_chunks]. rewrite Hidx, Hfirst, Nat2Z.id.
      rewrite omap_lookup_seq by lia. rewrite bind_M.
      unfold _parseDataToArray. cbn [items_list].
      rewrite (setValues_rows km (take k (drop i0 items))); [|done| |done].
      2:{ intros Hnil. apply (f_equal length) in Hnil.
          rewrite length_take, length_drop in Hnil. simpl in Hnil. lia. }
      set (st1 := with_sheet st _).
      destruct (IH (mkChunk (Z.of_nat r') (Z.of_nat r') [i]) (S i) i 1 r' st1)
        as (sh2 & Hw & Hwr); simpl; try done; try lia.
      { intros t Ht. replace t with 0 by lia. by rewrite !Nat.add_0_r. }
      exists sh2. split; [by rewrite Hw|].
      eapply (writes_rows_compose i0 i); [lia | lia | | exact Hwr].
      unfold st1. cbn [the_sheet with_sheet]. rewrite <- Hi.
      apply writes_rows_chunk; [lia | done].
    + apply negb_false_iff, Z.eqb_eq in Hgap.
      assert (r' = f + k) by lia. subst r'.
      apply (IH (mkChunk (firstRow cur) (Z.of_nat (f + k)) (indexes cur ++ [i]))
                (S i) i0 (S k) f st); cbn [indexes firstRow lastRow]; try done; try lia.
      * rewrite Hidx, seq_S. by rewrite Hi.
      * intros t Ht. destruct (decide (t = k)) as [->|Hne]; [by rewrite Hi|].
        apply Hrun. lia.
Qed.
End WriteChunks.

(** ** The text of a hash *)

Lemma string_length_app (s1 s2 : string) :
  String.length (s1 +:+ s2) = String.length s1 + String.length s2.
Proof. induction s1 as [|a s1 IH]; simpl; [done | by rewrite IH]. Qed.

Lemma pretty_N_go_length x : forall s,
  String.length s <= String.length (pretty_N_go x s).
Proof.
  induction (N.lt_wf_0 x) as [x _ IH]; intros s.
  destruct (decide (x = 0)%N) as [->|Hne]; [by rewrite pretty_N_go_0|].
  rewrite pretty_N_go_step by lia.
  etrans; [|apply IH; apply N.div_lt; lia]. simpl. lia.
Qed.

Lemma pretty_positive_length (p : positive) : 1 <= String.length (pretty p).
Proof.
  unfold pretty, pretty_positive, pretty, pretty_N.
  rewrite decide_False by done. rewrite pretty_N_go_step by lia.
  etrans; [|apply pretty_N_go_length]. simpl. lia.
Qed.

(** A value that a cell holds as it is and that is not the empty string
    has a text that is not empty. *)
Lemma to_string_length v :
  cell_norm v = v -> v <> blank -> 1 <= String.length (to_string v).
Proof.
  destruct v as [| |[]|z|s|]; simpl; try done; try lia.
  - intros _ _. destruct z as [|p|p]; simpl; [lia | apply pretty_positive_length | lia].
  - intros _ Hs. destruct s; [done | simpl; lia].
Qed.

(** A value is loosely equal to itself, NaN apart. *)
Lemma loose_eq_refl v : v <> VNaN -> loose_eq v v = true.
Proof.
  destruct v as [| |b|z|s|]; simpl; try done; intros _.
  - by apply bool_decide_eq_true.
  - apply Z.eqb_refl.
  - by apply bool_decide_eq_true.
Qed.

(** The length of the text of a hash: the lengths of the texts of the key
    fields, and one bar between any two. *)
Lemma hash_length km u hf (it : item) :
  _getKeysHashFunction km u = Ok hf ->
  String.length (to_string (hf it)) + 1
  = sum_list_with (fun k => String.length (to_string (prop it k)) + 1) (use_keys_flat u).
Proof.
  unfold _getKeysHashFunction.
  destruct (_checkKeys km u) as [[]|e]; [|done]. simpl.
  destruct u as [key|[|k0 [|k1 rest]]]; cbn [use_keys_flat]; try done.
  - intros [= <-]. simpl. lia.
  - intros [= <-]. simpl. lia.
  - intros [= <-]. unfold hash_concat. cbn [to_string].
    change (sum_list_with ?f (k0 :: k1 :: rest)) with (f k0 + sum_list_with f (k1 :: rest)).
    generalize (k1 :: rest). intros l.
    assert (Hgen : forall s,
      String.length (foldl (fun hash key => hash +:+ "|" +:+ to_string (prop it key)) s l) + 1
      = String.length s + 1
        + sum_list_with (fun k => String.length (to_string (prop it k)) + 1) l).
    { induction l as [|k l IH]; intros s; [simpl; lia|].
      cbn [foldl sum_list_with]. rewrite IH, !string_length_app. simpl. lia. }
    rewrite Hgen. lia.
Qed.

(** ** Rows of records *)

Lemma rows_of_Forall2 (items : list item) (nrows : list nat) :
  Forall2 (fun it r => item_row it = Some (Z.of_nat r)) items nrows ->
  rows_of items = Some (Z.of_nat <$> nrows).
Proof.
  induction 1 as [|it r items nrows Hit _ IH]; [done|].
  by rewrite rows_of_cons, Hit, IH.
Qed.

Lemma updateDataItemsByChunks_writes km (items : list item) (nrows : list nat) st :
  resolved st km -> km <> [] -> items <> [] -> NoDup nrows ->
  Forall2 (fun it r => item_row it = Some (Z.of_nat r)) items nrows ->
  exists sh',
    _updateDataItemsByChunks items st = (Ok tt, with_sheet st sh') /\
    writes_rows km items nrows 0 (length nrows) (the_sheet st) sh'.
Proof.
  intros Hres Hkm Hne Hnd Hrows.
  pose proof (Forall2_length _ _ _ Hrows) as Hlen.
  pose proof (rows_of_Forall2 _ _ Hrows) as Hro.
  destruct (rows_while_of _ _ Hro) as [Hwhile Hlen'].
  destruct items as [|x items]; [done|].
  destruct nrows as [|r0 nrows]; [done|].
  unfold _updateDataItemsByChunks. cbv zeta. rewrite Hwhile, Hlen', Nat.ltb_irrefl.
  rewrite bind_M, (resolved_keys _ _ Hres). rewrite fmap_cons. unfold update_chunks.
  pose proof (update_chunks_loop_spec (Z.of_nat <$> nrows) 1 []
                (mkChunk (Z.of_nat r0) (Z.of_nat r0) [0])) as Hspec.
  simpl in Hspec. rewrite Hspec. rewrite bind_M.
  destruct (write_group km (x :: items) (r0 :: nrows) Hkm Hlen Hnd
           (Z.of_nat <$> nrows) (mkChunk (Z.of_nat r0) (Z.of_nat r0) [0]) 1 0 1 r0 st)
    as (sh' & Hw & Hwr); simpl; try done; try lia.
  { intros t Ht. replace t with 0 by lia. simpl. f_equal. lia. }
  exists sh'. by rewrite Hw.
Qed.

(** ** Appending rows *)

Lemma insertDataItems_Ok km (o : list (string * item)) st :
  resolved st km -> km <> [] -> o <> [] ->
  let sh := the_sheet st in
  let lastRow := getLastRow sh in
  let first := dataRowFirst st in
  insertDataItems (ItemsObject o) st
  = (Ok tt,
     with_values
       (with_sheet st
          (setValues (insertRowsAfter sh (if lastRow <? first then first else lastRow) (length o))
             (if lastRow <? first then first else lastRow + 1) 1
             (row_of_item km VNull <$> o.*2)))
       None).
Proof.
  intros Hres Hkm Ho sh lastRow first. unfold insertDataItems.
  rewrite bind_M, (resolved_keys _ _ Hres).
  unfold _parseDataToArray. cbn [items_list]. unfold obj_values.
  destruct o as [|[h x] o]; [done|]. rewrite !fmap_cons.
  rewrite bind_M. cbn [get_store]. rewrite bind_M. unfold on_sheet at 1.
  rewrite bind_M.
  rewrite (setValues_rows km (x :: o.*2)); [|done|done|by rewrite fmap_cons].
  cbn [length]. rewrite !length_fmap. reflexivity.
Qed.

Section Insert.
Context (sh : sheet) (d n : nat) (vals : list (list value)).
Context (Hd : d <= maxRows sh) (Hn : length vals = n).

Let lastRow := getLastRow sh.
Let p := if lastRow <? d then d else lastRow.
Let target := if lastRow <? d then d else lastRow + 1.
Let sh2 := setValues (insertRowsAfter sh p n) target 1 vals.

Lemma insert_target_bounds : d <= target /\ target <= S (maxRows sh) /\ p <= target.
Proof.
  unfold target, p, lastRow. pose proof (find_last_row_le sh (maxRows sh)) as Hle.
  unfold getLastRow. destruct (find_last_row sh (maxRows sh) <? d) eqn:Hlt.
  - lia.
  - apply Nat.ltb_ge in Hlt. lia.
Qed.

Lemma insert_target_after_content r :
  1 <= r -> r <= maxRows sh -> row_has_content (cells sh r) = true -> r < target.
Proof.
  intros H1 H2 Hc. pose proof (find_last_row_content sh (maxRows sh) r H2 H1 Hc) as Hle.
  unfold target, lastRow, getLastRow. destruct (find_last_row sh (maxRows sh) <? d) eqn:Hlt.
  - apply Nat.ltb_lt in Hlt. lia.
  - lia.
Qed.

Lemma insert_maxRows : maxRows sh2 = maxRows sh + n.
Proof. reflexivity. Qed.

Lemma insert_cells_before r : r < target -> cells sh2 r = cells sh r.
Proof.
  intros Hr. unfold sh2. rewrite cells_setValues.
  rewrite (proj2 (Nat.leb_gt target r)) by done. cbn [andb].
  unfold insertRowsAfter. cbn [cells].
  rewrite (proj2 (Nat.leb_le r p)); [done|].
  unfold target, p in *. destruct (lastRow <? d); lia.
Qed.

Lemma insert_cells_new j vs :
  vals !! j = Some vs ->
  exists cs, cells sh2 (target + j) = vs ++ cs.
Proof.
  intros Hj. pose proof (lookup_lt_Some _ _ _ Hj) as Hlt.
  unfold sh2. rewrite cells_setValues.
  rewrite (proj2 (Nat.leb_le target (target + j))) by lia.
  rewrite (proj2 (Nat.ltb_lt (target + j) (target + length vals))) by lia.
  cbn [andb]. replace (target + j - target) with j by lia. rewrite Hj. by eexists.
Qed.

Lemma insert_cells_after r :
  target + n <= r -> r <= maxRows sh + n -> 1 <= n ->
  row_has_content (cells sh2 r) = false.
Proof.
  intros Hr Hmax Hn1. unfold sh2. rewrite cells_setValues.
  rewrite (proj2 (Nat.ltb_ge r (target + length vals))) by lia.
  rewrite andb_false_r. unfold insertRowsAfter. cbn [cells].
  pose proof insert_target_bounds as (Hb1 & Hb2 & Hb3).
  rewrite (proj2 (Nat.leb_gt r p)) by lia.
  destruct (r <=? p + n) eqn:Hle; [done|]. apply Nat.leb_gt in Hle.
  apply (find_last_row_after sh (maxRows sh)); [|lia].
  fold (getLastRow sh). fold lastRow.
  unfold p in Hle. destruct (lastRow <? d) eqn:Hlt; [|lia].
  apply Nat.ltb_lt in Hlt. lia.
Qed.
End Insert.

(** ** Merging the same records twice *)

Lemma sum_list_with_ones {A} (f : A -> nat) (l : list A) :
  (forall x, x ∈ l -> f x = 1) -> sum_list_with f l = length l.
Proof.
  induction l as [|x l IH]; intros H; [done|]. simpl.
  rewrite (H x) by apply list_elem_of_here. rewrite IH; [done|].
  intros y Hy. by apply H, list_elem_of_further.
Qed.

Lemma sum_list_with_more {A} (f : A -> nat) (l : list A) x :
  (forall y, y ∈ l -> 1 <= f y) -> x ∈ l -> 2 <= f x ->
  length l < sum_list_with f l.
Proof.
  intros Hall Hx Hfx.
  assert (Hge : forall l', (forall y, y ∈ l' -> 1 <= f y) -> length l' <= sum_list_with f l').
  { induction l' as [|y l' IH]; intros H; [done|]. simpl.
    pose proof (H y (list_elem_of_here _ _)).
    assert (length l' <= sum_list_with f l'); [|lia].
    apply IH. intros z Hz. by apply H, list_elem_of_further. }
  induction l as [|y l IH]; [by apply elem_of_nil in Hx|]. simpl.
  apply elem_of_cons in Hx as [<-|Hx].
  - assert (length l <= sum_list_with f l); [|lia].
    apply Hge. intros z Hz. by apply Hall, list_elem_of_further.
  - pose proof (Hall y (list_elem_of_here _ _)).
    assert (length l < sum_list_with f l); [|lia].
    apply IH; [|done]. intros z Hz. by apply Hall, list_elem_of_further.
Qed.

Lemma well_formed_incoming_spec km u (n : item) :
  well_formed_incoming km u n = true ->
  (forall k, k ∈ use_keys_flat u -> has_prop n k = true) /\
  (forall k, k ∈ km.*1 -> has_prop n k = true -> cell_norm (prop n k) = prop n k) /\
  (exists k, k ∈ km.*1 /\ has_prop n k = true /\ prop n k <> blank).
Proof.
  unfold well_formed_incoming. intros H.
  apply andb_true_iff in H as [H H3]. apply andb_true_iff in H as [H1 H2].
  rewrite forallb_forall in H1. rewrite forallb_forall in H2.
  apply existsb_exists in H3 as (k & Hk & Hk3).
  split; [|split].
  - intros k' Hk'. by apply H1, list_elem_of_In.
  - intros k' Hk' Hhas. specialize (H2 k' (proj1 (list_elem_of_In _ _) Hk')).
    rewrite Hhas in H2. simpl in H2. apply andb_true_iff in H2 as [H2 _].
    by apply bool_decide_eq_true in H2.
  - exists k. apply andb_true_iff in Hk3 as [Hh Hb].
    apply negb_true_iff, bool_decide_eq_false in Hb.
    split; [by apply list_elem_of_In | done].
Qed.

Lemma well_formed_incoming_no_NaN km u (n : item) k :
  well_formed_incoming km u n = true ->
  k ∈ km.*1 -> has_prop n k = true -> prop n k <> VNaN.
Proof.
  unfold well_formed_incoming. intros H Hk Hhas.
  apply andb_true_iff in H as [H _]. apply andb_true_iff in H as [_ H2].
  rewrite forallb_forall in H2. specialize (H2 k (proj1 (list_elem_of_In _ _) Hk)).
  rewrite Hhas in H2. simpl in H2. apply andb_true_iff in H2 as [_ H2].
  by apply negb_true_iff, bool_decide_eq_false in H2.
Qed.

(** ** The phases of a merge *)

Lemma sort_insert_perm {A} (cmp : A -> A -> Z) x l : sort_insert cmp x l ≡ₚ x :: l.
Proof.
  induction l as [|y l IH]; simpl; [done|].
  destruct (cmp x y <=? 0)%Z; [done|]. rewrite IH. apply Permutation_swap.
Qed.

Lemma js_sort_perm {A} (cmp : A -> A -> Z) l : js_sort cmp l ≡ₚ l.
Proof.
  unfold js_sort. induction l as [|x l IH]; simpl; [done|].
  rewrite sort_insert_perm. by rewrite IH.
Qed.

Lemma obj_all_None_nil {A} (o : list (string * A)) :
  (forall h, obj_get h o = None) -> o = [].
Proof.
  destruct o as [|[k a] o]; [done|]. intros H. specialize (H k).
  apply obj_get_None_names in H. exfalso. apply H. rewrite fmap_cons. simpl. left.
Qed.

Lemma with_sheet_values_same st : with_values (with_sheet st (the_sheet st)) (_values st) = st.
Proof. by destruct st. Qed.

Lemma with_sheet_same st : with_sheet st (the_sheet st) = st.
Proof. by destruct st. Qed.

(** A first read of the values on a store with an addressable last
    column. *)
Lemma values_fresh st km :
  resolved st km -> _values st = None -> addressable (lastDataColumn_of km) = true ->
  let v := getSheetValues (the_sheet st) (dataRowFirst st) 1
             (S (maxRows (the_sheet st)) - dataRowFirst st) (lastDataColumn_of km) in
  values st = (Ok v, with_values st (Some v)).
Proof.
  intros Hres Hv Ha v. unfold values. rewrite Hv.
  rewrite bind_M, (resolved_keys _ _ Hres). rewrite bind_M. unfold lift at 1.
  change (letter 1) with (Ok (A:=string) "A"). cbv iota beta.
  rewrite bind_M. unfold lift at 1.
  unfold addressable in Ha.
  destruct (letter (lastDataColumn_of km)) as [last|e] eqn:H2; [|done].
  apply bool_decide_eq_true in Ha. rewrite Ha.
  change (a1_column "A") with (Some 1). cbv iota beta.
  rewrite bind_M. cbn [get_store]. rewrite bind_M. cbn [fill_values].
  replace (S (lastDataColumn_of km) - 1) with (lastDataColumn_of km) by lia.
  reflexivity.
Qed.

(** What the values are once they are read, cached or not. *)
Lemma values_of_sheet st km vals st1 :
  resolved st km -> addressable (lastDataColumn_of km) = true ->
  cache_coherent st km = true ->
  values st = (Ok vals, st1) ->
  vals = getSheetValues (the_sheet st) (dataRowFirst st) 1
           (S (maxRows (the_sheet st)) - dataRowFirst st) (lastDataColumn_of km).
Proof.
  intros Hres Ha Hc Hv. unfold cache_coherent in Hc.
  destruct (_values st) as [v|] eqn:Hcache.
  - apply bool_decide_eq_true in Hc. unfold values in Hv. rewrite Hcache in Hv.
    injection Hv as <- <-. done.
  - rewrite (values_fresh st km Hres Hcache Ha) in Hv. by injection Hv as <- _.
Qed.

(** The insertion phase of a merge: the records are written to fresh rows
    right after the last row with content, and what follows them has no
    content. *)
Lemma insert_phase km (I : list (string * item)) (n_ins : nat) st :
  resolved st km -> km <> [] -> n_ins = length I ->
  dataRowFirst st <= maxRows (the_sheet st) ->
  let S1 := the_sheet st in
  let d := dataRowFirst st in
  let target := if getLastRow S1 <? d then d else getLastRow S1 + 1 in
  exists S2,
    (if 0 <? n_ins then insertDataItems (ItemsObject I) else mret tt) st
      = (Ok tt, with_values (with_sheet st S2) (if 0 <? n_ins then None else _values st)) /\
    maxRows S2 = maxRows S1 + length I /\
    (forall r, r < target -> cells S2 r = cells S1 r) /\
    (forall j h n, I !! j = Some (h, n) ->
       exists cs, cells S2 (target + j) = row_of_item km VNull n ++ cs) /\
    (forall r, target + length I <= r -> r <= maxRows S2 ->
       row_has_content (cells S2 r) = false) /\
    d <= target /\ target <= S (maxRows S1) /\
    (forall r, 1 <= r -> r <= maxRows S1 -> row_has_content (cells S1 r) = true ->
       r < target).
Proof.
  intros Hres Hkm -> Hd S1 d target.
  pose proof (insert_target_bounds S1 d 0 [] Hd eq_refl) as Hb. fold target in Hb.
  destruct Hb as (Hb1 & Hb2 & _).
  pose proof (insert_target_after_content S1 d 0 [] Hd eq_refl) as Hafter.
  fold target in Hafter.
  destruct (0 <? length I) eqn:Hpos.
  - apply Nat.ltb_lt in Hpos.
    assert (HI : I <> []) by (intros ->; simpl in Hpos; lia).
    set (vals := row_of_item km VNull <$> I.*2).
    assert (Hlen : length vals = length I) by (unfold vals; by rewrite !length_fmap).
    eexists. split; [apply (insertDataItems_Ok km I st Hres Hkm HI)|].
    fold S1 d. fold vals.
    split; [reflexivity|]. split.
    { intros r Hr. by apply (insert_cells_before S1 d (length I) vals Hd Hlen). }
    split.
    { intros j h n Hj. apply (insert_cells_new S1 d (length I) vals Hd Hlen).
      unfold vals. by rewrite !list_lookup_fmap, Hj. }
    split.
    { intros r Hr Hmax.
      apply (insert_cells_after S1 d (length I) vals Hd Hlen); [done | simpl in Hmax; lia | lia]. }
    done.
  - apply Nat.ltb_ge in Hpos. assert (I = []) as -> by (apply nil_length_inv; lia).
    exists S1. split.
    { unfold S1. by rewrite with_sheet_values_same. }
    split; [simpl; lia|]. split; [done|]. split; [intros j h n Hj; done|].
    split; [|done].
    intros r Hr Hmax. simpl in Hr, Hmax. unfold target in Hr.
    apply (find_last_row_after S1 (maxRows S1)); [|lia].
    unfold getLastRow in Hr. destruct (find_last_row S1 (maxRows S1) <? d) eqn:Hlt.
    + apply Nat.ltb_lt in Hlt. lia.
    + lia.
Qed.

Section Idempotence.
Context (km : keymap) (u : use_keys) (hf : item -> value).
Context (Hkm : km <> []) (Hnames : NoDup km.*1) (Hoffs : NoDup km.*2).
Context (Hrow : "row" ∉ km.*1).
Context (Hhf : _getKeysHashFunction km u = Ok hf).

Lemma field_offset k : k ∈ km.*1 -> exists off, (k, off) ∈ km.
Proof. intros Hk. apply list_elem_of_fmap in Hk as ([k' off] & -> & Hin). by exists off. Qed.

(** The fields of a record read from the sheet are all there, and none is
    null or undefined. *)
Lemma read_record_field sh r k :
  k ∈ km.*1 ->
  let c := row_record km r (region_row sh (lastDataColumn_of km) r) in
  has_prop c k = true /\ cell_norm (prop c k) = prop c k.
Proof.
  intros Hk c. destruct (field_offset k Hk) as [off Hin].
  unfold has_prop, prop, c. rewrite (row_record_field km r _ k off) by done.
  rewrite lookup_region_row by (by eapply offset_lt_width). simpl.
  split; [done | apply cell_norm_idem].
Qed.

(** Reading back a written record: each field the record carries reads as
    written, and each other field reads blank. *)
Lemma written_record_field r (it : item) cs k :
  cs = cell_norm <$> row_of_item km VNull it ->
  k ∈ km.*1 ->
  row_record km r cs !! k
  = Some (if has_prop it k then cell_norm (prop it k) else blank).
Proof.
  intros -> Hk. destruct (field_offset k Hk) as [off Hin].
  rewrite (row_record_field km r _ k off) by done.
  rewrite list_lookup_fmap, (row_of_item_lookup km VNull it k off) by done.
  simpl. by destruct (has_prop it k).
Qed.

Lemma written_row_not_empty (it : item) k :
  k ∈ km.*1 -> has_prop it k = true -> cell_norm (prop it k) <> blank ->
  row_is_empty (cell_norm <$> row_of_item km VNull it) = false.
Proof.
  intros Hk Hhas Hnb. destruct (field_offset k Hk) as [off Hin].
  apply (row_is_empty_false _ off (cell_norm (prop it k))); [|done].
  rewrite list_lookup_fmap, (row_of_item_lookup km VNull it k off) by done.
  by rewrite Hhas.
Qed.

(** Records that agree on the key fields hash alike. *)
Lemma hash_ext (a b : item) :
  (forall k, k ∈ use_keys_flat u -> prop a k = prop b k) -> hf a = hf b.
Proof. by apply (getKeysHashFunction_Ok km u hf Hhf). Qed.

Lemma use_keys_fields k : k ∈ use_keys_flat u -> k ∈ km.*1.
Proof. by apply (getKeysHashFunction_Ok km u hf Hhf). Qed.

(** If two records hash alike and one has a key field whose text is not
    empty, the other has a key field that is not blank. *)
Lemma hash_not_blank (c n : item) k :
  to_string (hf c) = to_string (hf n) ->
  k ∈ use_keys_flat u -> 1 <= String.length (to_string (prop n k)) ->
  exists k', k' ∈ use_keys_flat u /\ prop c k' <> blank.
Proof.
  intros Hh Hk Hlen.
  destruct (decide (Exists (fun k' => prop c k' <> blank) (use_keys_flat u))) as [Hex|Hno].
  { apply Exists_exists in Hex as (k' & ? & ?). by exists k'. }
  exfalso.
  assert (Hall : forall k', k' ∈ use_keys_flat u -> prop c k' = blank).
  { intros k' Hk'. destruct (decide (prop c k' = blank)) as [|Hne]; [done|].
    destruct Hno. apply Exists_exists. by exists k'. }
  pose proof (hash_length km u hf c Hhf) as Hc.
  pose proof (hash_length km u hf n Hhf) as Hn.
  rewrite Hh in Hc. rewrite Hn in Hc.
  rewrite (sum_list_with_ones (fun k => String.length (to_string (prop c k)) + 1)) in Hc.
  2:{ intros k' Hk'. by rewrite (Hall k' Hk'). }
  pose proof (sum_list_with_more
    (fun k => String.length (to_string (prop n k)) + 1) (use_keys_flat u) k) as Hmore.
  simpl in Hmore. rewrite Hc in Hmore. 
  assert (length (use_keys_flat u) < length (use_keys_flat u)); [|lia].
  apply Hmore; [intros; lia | done | lia].
Qed.

(** A written record read back: a row that holds the record, written over
    the schema's columns, matches exactly the hash of the record, provided
    the record carries its key fields, holds no null or undefined in them,
    and has some field that is not blank. *)
Lemma written_row_matches sh r (it : item) h :
  region_row sh (lastDataColumn_of km) r = cell_norm <$> row_of_item km VNull it ->
  (forall k, k ∈ use_keys_flat u ->
     has_prop it k = true /\ cell_norm (prop it k) = prop it k) ->
  (exists k, k ∈ km.*1 /\ has_prop it k = true /\ cell_norm (prop it k) <> blank) ->
  row_matches km hf sh h r = bool_decide (to_string (hf it) = h).
Proof.
  intros Hreg Hkeys (k & Hk & Hhas & Hnb). unfold row_matches. cbv zeta. rewrite Hreg.
  rewrite (written_row_not_empty it k Hk Hhas Hnb). cbn [negb andb].
  assert (Hsame : hf (row_record km r (cell_norm <$> row_of_item km VNull it)) = hf it).
  { apply hash_ext. intros k' Hk'.
    destruct (Hkeys k' Hk') as [Hh Hn]. unfold prop at 1.
    rewrite (written_record_field r it _ k' eq_refl (use_keys_fields k' Hk')).
    by rewrite Hh. }
  by rewrite Hsame.
Qed.

Lemma written_row_fields sh r (it : item) k :
  region_row sh (lastDataColumn_of km) r = cell_norm <$> row_of_item km VNull it ->
  k ∈ km.*1 -> has_prop it k = true -> cell_norm (prop it k) = prop it k ->
  prop (row_record km r (region_row sh (lastDataColumn_of km) r)) k = prop it k.
Proof.
  intros Hreg Hk Hhas Hn. rewrite Hreg. unfold prop at 1.
  rewrite (written_record_field r it _ k eq_refl Hk). by rewrite Hhas.
Qed.

Lemma default_isUpdateCB_false (c n : item) :
  (forall key, carried_field km u [] n key = true ->
     prop c key = prop n key /\ prop n key <> VNaN) ->
  default_isUpdateCB (_filterKeysFrom km (use_keys_flat u ++ [])) c n = false.
Proof.
  intros Hsame. apply not_true_is_false. rewrite default_isUpdateCB_true.
  intros (key & Hcar & Hneq). destruct (Hsame key Hcar) as [Heq Hnan].
  rewrite Heq, loose_eq_refl in Hneq; done.
Qed.

Lemma carried_field_true (n : item) key :
  carried_field km u [] n key = true ->
  key ∈ km.*1 /\ (key ∉ use_keys_flat u) /\ has_prop n key = true.
Proof.
  unfold carried_field. intros H. apply andb_true_iff in H as [H H3].
  apply andb_true_iff in H as [H1 H2].
  apply bool_decide_eq_true in H1. apply bool_decide_eq_true in H2.
  rewrite app_nil_r in H2. done.
Qed.

Lemma carried_field_use_key (n : item) key :
  key ∈ use_keys_flat u -> carried_field km u [] n key = false.
Proof.
  intros Hk. unfold carried_field. rewrite app_nil_r.
  rewrite (bool_decide_eq_false_2 (key ∉ use_keys_flat u)) by (by intros ?).
  by rewrite andb_false_r.
Qed.

(** The record the default update makes of a current record [c] read from
    row [r] and a well-formed incoming record [n] with the same hash. *)
Lemma updated_record sh r (n : item) :
  let c := row_record km r (region_row sh (lastDataColumn_of km) r) in
  let c' := default_updateCB (_filterKeysFrom km (use_keys_flat u ++ [])) c n in
  well_formed_incoming km u n = true ->
  to_string (hf c) = to_string (hf n) ->
  item_row c' = Some (Z.of_nat r) /\
  (forall k, k ∈ km.*1 -> has_prop c' k = true /\ cell_norm (prop c' k) = prop c' k) /\
  (forall k, k ∈ use_keys_flat u -> prop c' k = prop c k) /\
  (forall k, carried_field km u [] n k = true -> prop c' k = prop n k) /\
  (exists k, k ∈ km.*1 /\ has_prop c' k = true /\ cell_norm (prop c' k) <> blank).
Proof.
  intros c c' Hwf Hhash.
  destruct (well_formed_incoming_spec km u n Hwf) as (Hw1 & Hw2 & (kb & Hkb & Hhasb & Hnb)).
  assert (Hlook : forall k, c' !! k =
            if carried_field km u [] n k then Some (prop n k) else c !! k).
  { intros k. apply default_updateCB_carried. }
  assert (Hfields : forall k, k ∈ km.*1 ->
            has_prop c' k = true /\ cell_norm (prop c' k) = prop c' k).
  { intros k Hk. unfold has_prop, prop. rewrite Hlook.
    destruct (carried_field km u [] n k) eqn:Hcar.
    - simpl. split; [done|]. apply carried_field_true in Hcar as (? & _ & ?). by apply Hw2.
    - destruct (read_record_field sh r k Hk) as [Hh Hn]. fold c in Hh, Hn.
      unfold has_prop in Hh. unfold prop in Hn. done. }
  assert (Hkeys : forall k, k ∈ use_keys_flat u -> prop c' k = prop c k).
  { intros k Hk. unfold prop. by rewrite Hlook, carried_field_use_key. }
  assert (Hcar : forall k, carried_field km u [] n k = true -> prop c' k = prop n k).
  { intros k Hk. unfold prop at 1. by rewrite Hlook, Hk. }
  split_and!; try done.
  - unfold item_row. rewrite Hlook. unfold carried_field.
    rewrite (bool_decide_eq_false_2 ("row" ∈ km.*1)) by done. cbn [andb].
    unfold c. by rewrite row_record_row.
  - destruct (decide (kb ∈ use_keys_flat u)) as [Hu|Hu].
    + destruct (hash_not_blank c n kb Hhash Hu) as (k' & Hk' & Hnb').
      { apply to_string_length; [by apply Hw2 | done]. }
      exists k'. pose proof (use_keys_fields k' Hk') as Hk'f.
      destruct (Hfields k' Hk'f) as [Hh Hn]. split; [done|]. split; [done|].
      by rewrite Hn, Hkeys.
    + exists kb. destruct (Hfields kb Hkb) as [Hh Hn]. split; [done|]. split; [done|].
      rewrite Hn, Hcar; [done|]. unfold carried_field.
      rewrite app_nil_r, !bool_decide_eq_true_2 by done. by rewrite Hhasb.
Qed.

(** *** The sheet before the first merge and after it *)

Context (d : nat) (S0 : sheet).
Context (o : list (string * item)).
Context (Ho_nd : NoDup o.*1).
Context (Ho_wf : forall h n, obj_get h o = Some n ->
                   h = to_string (hf n) /\ well_formed_incoming km u n = true).

Local Abbreviation W := (lastDataColumn_of km).
Local Abbreviation ck := (_filterKeysFrom km (use_keys_flat u ++ [])).
Local Abbreviation n0 := (S (maxRows S0) - d).
Local Abbreviation current0 :=
  (getDataItemsObject_from km d (getSheetValues S0 d 1 n0 W) no_read_options hf).
Local Abbreviation ms := (merge_plan ck no_merge_options current0 o).

Lemma current0_entry h c :
  obj_get h current0 = Some c ->
  exists r, find_row (row_matches km hf S0 h) d n0 = Some r /\
            c = row_record km r (region_row S0 W r) /\
            to_string (hf c) = h /\ row_is_empty (region_row S0 W r) = false.
Proof.
  rewrite current_get. intros Hc. apply fmap_Some in Hc as (r & Hf & ->).
  exists r. split; [done|]. split; [done|].
  apply find_row_Some in Hf as (_ & _ & Hm & _). unfold row_matches in Hm.
  apply andb_true_iff in Hm as [He Hh]. apply bool_decide_eq_true in Hh.
  split; [done|]. by apply negb_true_iff in He.
Qed.

Lemma update_set_entry h c' :
  obj_get h (itemsToUpdate ms) = Some c' ->
  exists r n,
    find_row (row_matches km hf S0 h) d n0 = Some r /\
    obj_get h o = Some n /\
    c' = default_updateCB ck (row_record km r (region_row S0 W r)) n /\
    to_string (hf (row_record km r (region_row S0 W r))) = to_string (hf n) /\
    well_formed_incoming km u n = true.
Proof.
  destruct (merge_plan_spec ck no_merge_options current0 o Ho_nd) as (HU & _).
  rewrite HU. destruct (obj_get h o) as [n|] eqn:Hn; [|done].
  destruct (obj_get h current0) as [c|] eqn:Hc; [|done]. cbn [default isUpdateCB updateCB no_merge_options].
  destruct (default_isUpdateCB ck c n); [|done]. intros [= <-].
  destruct (current0_entry h c Hc) as (r & Hf & -> & Hh & _).
  destruct (Ho_wf h n Hn) as [Hhn Hwf].
  exists r, n. split_and!; try done. congruence.
Qed.

Lemma insert_set_entry h n :
  obj_get h (itemsToInsert ms) = Some n ->
  obj_get h o = Some n /\ obj_get h current0 = None.
Proof.
  destruct (merge_plan_spec ck no_merge_options current0 o Ho_nd) as (_ & HI & _).
  rewrite HI. destruct (obj_get h o) as [n'|] eqn:Hn; [|done].
  destruct (obj_get h current0) as [c|] eqn:Hc; [done|]. by intros [= <-].
Qed.

(** The row of a record of the update set: a row of the data region that
    matched the hash, and the record to write has some field that is not
    blank. *)
Lemma update_set_row h c' :
  obj_get h (itemsToUpdate ms) = Some c' ->
  exists r, item_row c' = Some (Z.of_nat r) /\ d <= r /\ r < d + n0 /\
            row_matches km hf S0 h r = true /\
            (exists k, k ∈ km.*1 /\ has_prop c' k = true /\ cell_norm (prop c' k) <> blank).
Proof.
  intros Hu. destruct (update_set_entry h c' Hu) as (r & n & Hf & Hn & Hc' & Hh & Hwf).
  destruct (updated_record S0 r n Hwf Hh) as (Hrow0 & _ & _ & _ & Hnb).
  rewrite <- Hc' in Hrow0, Hnb.
  apply find_row_Some in Hf as (H1 & H2 & Hm & _).
  exists r. done.
Qed.

Lemma row_matches_hash sh h1 h2 r :
  row_matches km hf sh h1 r = true -> row_matches km hf sh h2 r = true -> h1 = h2.
Proof.
  unfold row_matches. intros H1 H2.
  apply andb_true_iff in H1 as [_ H1]. apply andb_true_iff in H2 as [_ H2].
  apply bool_decide_eq_true in H1. apply bool_decide_eq_true in H2. congruence.
Qed.

(** The update phase of a merge: every record of the update set is written
    over the schema's columns of its row, and no other row changes. *)
Lemma update_phase st :
  resolved st km -> the_sheet st = S0 ->
  exists S1,
    (if 0 <? updated ms
     then _updateDataItemsByChunks (js_sort cmp_row_minus (obj_values (itemsToUpdate ms)))
     else mret tt) st = (Ok tt, with_sheet st S1) /\
    maxRows S1 = maxRows S0 /\
    (forall h c' r, obj_get h (itemsToUpdate ms) = Some c' ->
       item_row c' = Some (Z.of_nat r) ->
       cells S1 r = row_of_item km VNull c' ++ drop W (cells S0 r)) /\
    (forall r, (forall h c', obj_get h (itemsToUpdate ms) = Some c' ->
                  item_row c' <> Some (Z.of_nat r)) ->
       cells S1 r = cells S0 r).
Proof.
  intros Hres Hsh.
  destruct (merge_plan_spec ck no_merge_options current0 o Ho_nd)
    as (_ & _ & Hcnt & _ & _ & Hund & _).
  destruct (0 <? updated ms) eqn:Hpos.
  - apply Nat.ltb_lt in Hpos.
    set (items := js_sort cmp_row_minus (obj_values (itemsToUpdate ms))).
    assert (Hperm : items ≡ₚ (itemsToUpdate ms).*2) by apply js_sort_perm.
    assert (Hall : forall it, it ∈ items -> exists h, obj_get h (itemsToUpdate ms) = Some it).
    { intros it Hit. rewrite Hperm in Hit.
      apply list_elem_of_fmap in Hit as ([h it'] & -> & Hin).
      exists h. by apply obj_get_elem_NoDup. }
    assert (Hrowof : forall h it r, obj_get h (itemsToUpdate ms) = Some it ->
              item_row it = Some (Z.of_nat r) -> row_nat it = r).
    { intros h it r _ Hr. unfold row_nat. rewrite Hr. apply Nat2Z.id. }
    destruct (updateDataItemsByChunks_writes km items (row_nat <$> items) st Hres Hkm)
      as (S1 & Hrun & Hmax & Hw).
    + intros Hnil. apply (f_equal length) in Hnil. rewrite Hperm, length_fmap in Hnil.
      simpl in Hnil. lia.
    + rewrite Hperm, <- list_fmap_compose.
      apply NoDup_fmap_2_strong; [|by eapply NoDup_fmap_1].
      intros [h1 c1] [h2 c2] H1 H2 Heq. simpl in Heq.
      apply (obj_get_elem_NoDup _ _ _ Hund) in H1, H2.
      destruct (update_set_row h1 c1 H1) as (r1 & Hr1 & _ & _ & Hm1 & _).
      destruct (update_set_row h2 c2 H2) as (r2 & Hr2 & _ & _ & Hm2 & _).
      rewrite (Hrowof _ _ _ H1 Hr1), (Hrowof _ _ _ H2 Hr2) in Heq. subst r2.
      pose proof (row_matches_hash _ _ _ _ Hm1 Hm2). subst h2. congruence.
    + apply Forall2_fmap_r, Forall_Forall2_diag, Forall_forall. intros it Hit.
      destruct (Hall it Hit) as [h Hu]. destruct (update_set_row h it Hu) as (r & Hr & _).
      simpl. by rewrite (Hrowof _ _ _ Hu Hr).
    + exists S1. rewrite Hsh in Hmax, Hw. split; [done|]. split; [done|]. split.
      * intros h c' r Hu Hr.
        assert (Hin : c' ∈ items).
        { rewrite Hperm. apply list_elem_of_fmap. exists (h, c'). split; [done|].
          by apply obj_get_Some_elem. }
        apply list_elem_of_lookup_1 in Hin as [j Hj].
        pose proof (lookup_lt_Some _ _ _ Hj) as Hjlt.
        apply (proj1 (Hw r) j c'); [lia | by rewrite length_fmap | | done].
        by rewrite list_lookup_fmap, Hj, <- (Hrowof _ _ _ Hu Hr).
      * intros r Hno. apply (proj2 (Hw r)). intros j _ _ Hj.
        rewrite list_lookup_fmap in Hj. apply fmap_Some in Hj as (it & Hit & Hrn).
        apply list_elem_of_lookup_2 in Hit. destruct (Hall it Hit) as [h Hu].
        destruct (update_set_row h it Hu) as (r' & Hr' & _).
        apply (Hno h it Hu). rewrite Hr'. by rewrite Hrn, (Hrowof _ _ _ Hu Hr').
  - apply Nat.ltb_ge in Hpos.
    assert (HU0 : itemsToUpdate ms = []) by (apply nil_length_inv; lia).
    exists S0. split; [by rewrite <- Hsh, with_sheet_same|]. split; [done|]. split.
    + intros h c' r Hu. rewrite HU0 in Hu. done.
    + done.
Qed.

Section After.
Context (S2 : sheet) (target : nat).

Local Abbreviation n2 := (S (maxRows S2) - d).
Local Abbreviation current2 :=
  (getDataItemsObject_from km d (getSheetValues S2 d 1 n2 W) no_read_options hf).

Context (HA1u : forall h c' r,
  obj_get h (itemsToUpdate ms) = Some c' -> item_row c' = Some (Z.of_nat r) ->
  region_row S2 W r = cell_norm <$> row_of_item km VNull c').
Context (HA1o : forall r,
  d <= r -> r < target ->
  (forall h c', obj_get h (itemsToUpdate ms) = Some c' -> item_row c' <> Some (Z.of_nat r)) ->
  region_row S2 W r = region_row S0 W r).
Context (HA2 : forall j h n,
  itemsToInsert ms !! j = Some (h, n) ->
  region_row S2 W (target + j) = cell_norm <$> row_of_item km VNull n).
Context (HA3 : forall r,
  target + length (itemsToInsert ms) <= r -> r < d + n2 ->
  row_is_empty (region_row S2 W r) = true).
Context (HA4 : forall r,
  d <= r -> r < d + n0 -> row_is_empty (region_row S0 W r) = false -> r < target).
Context (HA5 : d <= target /\ target <= d + n0 /\
               target + length (itemsToInsert ms) <= d + n2).

(** An updated row, read after the merge, matches the hash it had. *)
Lemma updated_row_matches h c' r h' :
  obj_get h (itemsToUpdate ms) = Some c' -> item_row c' = Some (Z.of_nat r) ->
  row_matches km hf S2 h' r = bool_decide (h = h') /\
  row_matches km hf S0 h r = true.
Proof.
  intros Hu Hr. destruct (update_set_entry h c' Hu) as (r0 & n & Hf & Hn & Hc' & Hh & Hwf).
  destruct (updated_record S0 r0 n Hwf Hh) as (Hrow0 & Hfields & Hkeys & Hcar & Hnb).
  rewrite <- Hc' in Hrow0, Hfields, Hkeys, Hcar, Hnb.
  assert (r0 = r) as -> by (rewrite Hrow0 in Hr; injection Hr; lia).
  apply find_row_Some in Hf as (_ & _ & Hm & _). split; [|done].
  rewrite (written_row_matches S2 r c' h'); [| by eapply HA1u | |done].
  2:{ intros k Hk. apply Hfields. by apply use_keys_fields. }
  rewrite (hash_ext c' (row_record km r (region_row S0 W r))) by done.
  unfold row_matches in Hm. apply andb_true_iff in Hm as [_ Hm].
  apply bool_decide_eq_true in Hm. by rewrite Hm.
Qed.

(** Which rows of the sheet after the merge match a hash: a row that
    matched it before, or the row of an inserted record with that hash. *)
Lemma matching_row_after h r :
  d <= r -> r < d + n2 -> row_matches km hf S2 h r = true ->
  (r < target /\ row_matches km hf S0 h r = true) \/
  (exists j n, itemsToInsert ms !! j = Some (h, n) /\ r = target + j).
Proof.
  intros Hd Hr Hm.
  destruct (decide (r < target)) as [Hlt|Hge].
  - left. split; [done|].
    destruct (decide (Exists (fun e : string * item => item_row e.2 = Some (Z.of_nat r))
                        (itemsToUpdate ms))) as [Hex|Hno].
    + apply Exists_exists in Hex as ([h' c'] & Hin & Hrow'). simpl in Hrow'.
      destruct (merge_plan_spec ck no_merge_options current0 o Ho_nd)
        as (_ & _ & _ & _ & _ & Hund & _).
      pose proof (obj_get_elem_NoDup _ _ _ Hund Hin) as Hget.
      destruct (updated_row_matches h' c' r h Hget Hrow') as [H2 H0].
      rewrite H2 in Hm. apply bool_decide_eq_true in Hm. by subst h'.
    + unfold row_matches in *. rewrite <- (HA1o r Hd Hlt); [done|].
      intros h' c' Hget Hrow'. apply Hno, Exists_exists. exists (h', c').
      split; [by apply obj_get_Some_elem | done].
  - right. destruct (decide (r < target + length (itemsToInsert ms))) as [Hin|Hout].
    + destruct (lookup_lt_is_Some_2 (itemsToInsert ms) (r - target)) as [[h' n] Hj]; [lia|].
      destruct (merge_plan_spec ck no_merge_options current0 o Ho_nd)
        as (_ & _ & _ & _ & _ & _ & Hind).
      pose proof (obj_get_elem_NoDup _ _ _ Hind (list_elem_of_lookup_2 _ _ _ Hj)) as Hget.
      destruct (insert_set_entry h' n Hget) as [Hn _].
      destruct (Ho_wf h' n Hn) as [Hh' Hwf].
      destruct (well_formed_incoming_spec km u n Hwf) as (Hw1 & Hw2 & (kb & Hkb & Hhasb & Hnb)).
      pose proof (HA2 (r - target) h' n Hj) as Hreg.
      replace (target + (r - target)) with r in Hreg by lia.
      rewrite (written_row_matches S2 r n h Hreg) in Hm.
      * apply bool_decide_eq_true in Hm. exists (r - target), n.
        split; [by rewrite Hj, Hh', Hm | lia].
      * intros k Hk. split; [by apply Hw1|]. apply Hw2; [by apply use_keys_fields | by apply Hw1].
      * exists kb. split; [done|]. split; [done|]. by rewrite Hw2.
    + unfold row_matches in Hm. rewrite HA3 in Hm by lia. done.
Qed.

(** After the merge every incoming record finds a current record with its
    hash, and the default comparison finds nothing to update. *)
Lemma second_lookup h n :
  obj_get h o = Some n ->
  exists c2, obj_get h current2 = Some c2 /\ default_isUpdateCB ck c2 n = false.
Proof.
  intros Hn. destruct (Ho_wf h n Hn) as [Hh Hwf].
  destruct (well_formed_incoming_spec km u n Hwf) as (Hw1 & Hw2 & (kb & Hkb & Hhasb & Hnb)).
  destruct (merge_plan_spec ck no_merge_options current0 o Ho_nd)
    as (HU & HI & _ & _ & _ & Hund & Hind).
  destruct HA5 as (Hd_t & Ht_n0 & Ht_n2).
  rewrite current_get.
  destruct (obj_get h current0) as [c|] eqn:Hc.
  - destruct (current0_entry h c Hc) as (r & Hf & Hceq & Hch & Hne).
    pose proof Hf as Hf'. apply find_row_Some in Hf' as (Hr1 & Hr2 & Hm0 & Hlater).
    pose proof (HA4 r Hr1 Hr2 Hne) as Hrt.
    assert (Hfind : find_row (row_matches km hf S2 h) d n2 = Some r ->
      exists c2, (fun r => row_record km r (region_row S2 W r))
                   <$> find_row (row_matches km hf S2 h) d n2 = Some c2 /\
                 c2 = row_record km r (region_row S2 W r)).
    { intros ->. by eexists. }
    specialize (HU h). rewrite Hn, Hc in HU.
    cbn [default isUpdateCB updateCB no_merge_options] in HU.
    assert (Hlater2 : forall r', r < r' -> r' < d + n2 -> row_matches km hf S2 h r' = false).
    { intros r' Hlt Hr'. apply not_true_is_false. intros Hm.
      destruct (matching_row_after h r' ltac:(lia) Hr' Hm) as [[Hr't Hm']|(j & n' & Hj & _)].
      - rewrite Hlater in Hm'; [done | done | lia].
      - pose proof (obj_get_elem_NoDup _ _ _ Hind (list_elem_of_lookup_2 _ _ _ Hj)) as Hget.
        apply insert_set_entry in Hget as [_ Hnone]. congruence. }
    destruct (default_isUpdateCB ck c n) eqn:Hupd.
    + (* the row was updated *)
      set (c' := default_updateCB ck c n) in *.
      rewrite Hceq in Hch.
      destruct (updated_record S0 r n Hwf ltac:(congruence))
        as (Hrow0 & Hfields & Hkeys & Hcar & Hnbc).
      rewrite <- Hceq in Hrow0, Hfields, Hkeys, Hcar, Hnbc. fold c' in Hrow0, Hfields, Hkeys, Hcar, Hnbc.
      destruct (updated_row_matches h c' r h HU Hrow0) as [Hm2 _].
      rewrite bool_decide_eq_true_2 in Hm2 by done.
      destruct Hfind as (c2 & -> & ->).
      { apply find_row_intro; [done | lia | done | done]. }
      eexists. split; [done|].
      apply default_isUpdateCB_false. intros key Hkey.
      pose proof (carried_field_true n key Hkey) as (Hk1 & Hk2 & Hk3).
      split; [|by apply (well_formed_incoming_no_NaN km u n key Hwf)].
      destruct (Hfields key Hk1) as [Hh' Hn'].
      rewrite (written_row_fields S2 r c' key); [by apply Hcar | by eapply HA1u | done | done | done].
    + (* the row was left as it was *)
      assert (Hreg : region_row S2 W r = region_row S0 W r).
      { apply HA1o; [done | done |]. intros h' c'' Hget Hrow'.
        destruct (updated_row_matches h' c'' r h Hget Hrow') as [_ Hm'].
        assert (h' = h).
        { unfold row_matches in Hm0, Hm'.
          apply andb_true_iff in Hm0 as [_ Hm0]. apply andb_true_iff in Hm' as [_ Hm'].
          apply bool_decide_eq_true in Hm0. apply bool_decide_eq_true in Hm'. congruence. }
        subst h'. congruence. }
      destruct Hfind as (c2 & -> & ->).
      { apply find_row_intro; [done | lia | | done].
        unfold row_matches in *. by rewrite Hreg. }
      eexists. split; [done|]. by rewrite Hreg, <- Hceq.
  - specialize (HI h). rewrite Hn, Hc in HI.
    pose proof (obj_get_Some_elem _ _ _ HI) as Hel.
    apply list_elem_of_lookup_1 in Hel as [j Hj].
    pose proof (lookup_lt_Some _ _ _ Hj) as Hjlt.
    pose proof (HA2 j h n Hj) as Hreg.
    assert (Hm2 : row_matches km hf S2 h (target + j) = true).
    { rewrite (written_row_matches S2 (target + j) n h Hreg).
      - by apply bool_decide_eq_true.
      - intros k Hk. split; [by apply Hw1|]. apply Hw2; [by apply use_keys_fields | by apply Hw1].
      - exists kb. split; [done|]. split; [done|]. by rewrite Hw2. }
    rewrite (find_row_intro _ d n2 (target + j)); [| lia | lia | done |].
    + eexists. split; [done|].
      apply default_isUpdateCB_false. intros key Hkey.
      pose proof (carried_field_true n key Hkey) as (Hk1 & Hk2 & Hk3).
      split; [|by apply (well_formed_incoming_no_NaN km u n key Hwf)].
      by rewrite (written_row_fields S2 (target + j) n key Hreg Hk1 Hk3 (Hw2 key Hk1 Hk3)).
    + intros r' Hlt Hr'. apply not_true_is_false. intros Hm.
      destruct (matching_row_after h r' ltac:(lia) Hr' Hm) as [[Hr't Hm']|(j' & n' & Hj' & Hr'eq)].
      * lia.
      * assert (j = j'); [|lia].
        eapply NoDup_lookup; [exact Hind | |].
        -- rewrite list_lookup_fmap, Hj. done.
        -- rewrite list_lookup_fmap, Hj'. done.
Qed.

(** So the sets of a second merge are empty. *)
Lemma second_merge_zero :
  let ms2 := merge_plan ck no_merge_options current2 o in
  updated ms2 = 0 /\ inserted ms2 = 0 /\ deleted ms2 = 0.
Proof.
  intros ms2.
  destruct (merge_plan_spec ck no_merge_options current2 o Ho_nd)
    as (HU & HI & Hu & Hi & Hd & _ & _).
  fold ms2 in HU, HI, Hu, Hi, Hd.
  assert (HU0 : itemsToUpdate ms2 = []).
  { apply obj_all_None_nil. intros h. rewrite HU.
    destruct (obj_get h o) as [n|] eqn:Hn; [|done].
    destruct (second_lookup h n Hn) as (c2 & -> & Hfalse).
    cbn [default isUpdateCB no_merge_options]. by rewrite Hfalse. }
  assert (HI0 : itemsToInsert ms2 = []).
  { apply obj_all_None_nil. intros h. rewrite HI.
    destruct (obj_get h o) as [n|] eqn:Hn; [|done].
    by destruct (second_lookup h n Hn) as (c2 & -> & _). }
  rewrite Hu, Hi, HU0, HI0. split; [done|]. split; [done|]. by apply Hd.
Qed.
End After.

(** The writes of a merge, and the sets of the merge that follows it. *)
Lemma merge_writes_then_plan (sa : store) :
  resolved sa km -> the_sheet sa = S0 -> dataRowFirst sa = d ->
  1 <= d -> d <= maxRows S0 ->
  exists st1,
    merge_writes ms sa = (Ok (mkCounts (updated ms) (inserted ms) (deleted ms)), st1) /\
    resolved st1 km /\ _values st1 = None /\ dataRowFirst st1 = d /\
    let S2 := the_sheet st1 in
    let ms2 := merge_plan ck no_merge_options
                 (getDataItemsObject_from km d
                    (getSheetValues S2 d 1 (S (maxRows S2) - d) W) no_read_options hf) o in
    updated ms2 = 0 /\ inserted ms2 = 0 /\ deleted ms2 = 0.
Proof.
  intros Hres Hsh Hd H1 Hdmax.
  destruct (merge_plan_spec ck no_merge_options current0 o Ho_nd)
    as (_ & _ & _ & Hicnt & Hdel & Hund & Hind).
  destruct (update_phase sa Hres Hsh) as (S1 & Hrun1 & Hmax1 & Hupd & Hother).
  set (sb := with_sheet sa S1) in *.
  assert (Hresb : resolved sb km) by by apply resolved_with_sheet.
  destruct (insert_phase km (itemsToInsert ms) (inserted ms) sb Hresb Hkm Hicnt)
    as (S2 & Hrun2 & Hmax2 & Hbefore & Hnew & Hafter & Ht1 & Ht2 & Hcontent).
  { simpl. rewrite Hmax1, Hd. done. }
  change (the_sheet sb) with S1 in *. change (dataRowFirst sb) with (dataRowFirst sa) in *.
  rewrite Hd in *.
  set (target := if getLastRow S1 <? d then d else getLastRow S1 + 1) in *.
  eexists. split.
  { unfold merge_writes. rewrite bind_M, Hrun1. rewrite bind_M, Hrun2.
    rewrite (Hdel eq_refl). cbn [Nat.ltb Nat.leb]. reflexivity. }
  split; [done|]. split; [done|]. split; [done|].
  cbn [the_sheet with_values with_sheet].
  (* live rows lie before the target *)
  assert (HA4 : forall r, d <= r -> r < d + n0 ->
            row_is_empty (region_row S0 W r) = false -> r < target).
  { intros r Hr1 Hr2 Hne. apply Hcontent; [lia | lia |].
    destruct (decide (Exists (fun e : string * item => item_row e.2 = Some (Z.of_nat r))
                        (itemsToUpdate ms))) as [Hex|Hno].
    - apply Exists_exists in Hex as ([h c'] & Hin & Hrow'). simpl in Hrow'.
      pose proof (obj_get_elem_NoDup _ _ _ Hund Hin) as Hget.
      destruct (update_set_row h c' Hget) as (r' & _ & _ & _ & _ & (k & Hk & Hhas & Hnb)).
      apply (row_not_empty_has_content S1 W r).
      rewrite (region_row_written S1 W r _ _ (Hupd h c' r Hget Hrow'))
        by apply length_row_of_item.
      by apply (written_row_not_empty c' k).
    - rewrite Hother.
      + by apply (row_not_empty_has_content S0 W r).
      + intros h c' Hget Hrow'. apply Hno, Exists_exists. exists (h, c').
        split; [by apply obj_get_Some_elem | done]. }
  apply (second_merge_zero S2 target).
  - (* updated rows *)
    intros h c' r Hget Hrow'.
    destruct (update_set_row h c' Hget) as (r' & Hr' & Hr1 & Hr2 & Hm & _).
    assert (r' = r) as -> by (rewrite Hr' in Hrow'; injection Hrow'; lia).
    assert (Hlt : r < target).
    { apply HA4; [done | done |]. unfold row_matches in Hm.
      apply andb_true_iff in Hm as [Hm _]. by apply negb_true_iff in Hm. }
    apply (region_row_written S2 W r _ (drop W (cells S0 r))); [|apply length_row_of_item].
    rewrite Hbefore by done. by apply (Hupd h).
  - (* the other rows before the target *)
    intros r Hr1 Hr2 Hno. apply region_row_ext.
    rewrite Hbefore by done. by apply Hother.
  - (* inserted rows *)
    intros j h n Hj. destruct (Hnew j h n Hj) as [cs Hcs].
    apply (region_row_written S2 W _ _ cs Hcs), length_row_of_item.
  - (* after the inserted rows *)
    intros r Hr1 Hr2. rewrite (region_row_no_content S2 W r).
    + apply row_is_empty_blank.
    + apply Hafter; [done | lia].
  - exact HA4.
  - rewrite Hmax2, Hmax1. lia.
Qed.
End Idempotence.

(** ** A merge after a merge *)

(** Reading the current records on a store whose values are not cached. *)
Lemma getDataItemsObject_fresh st km u hf opts :
  resolved st km -> _values st = None -> addressable (lastDataColumn_of km) = true ->
  _getKeysHashFunction km u = Ok hf ->
  let v := getSheetValues (the_sheet st) (dataRowFirst st) 1
             (S (maxRows (the_sheet st)) - dataRowFirst st) (lastDataColumn_of km) in
  getDataItemsObject u opts st
  = (Ok (getDataItemsObject_from km (dataRowFirst st) v opts hf), with_values st (Some v)).
Proof.
  intros Hres Hv Ha Hhf v. unfold getDataItemsObject.
  rewrite bind_M, (resolved_keys _ _ Hres).
  rewrite bind_M, (values_fresh st km Hres Hv Ha). fold v.
  rewrite bind_M. cbn [get_store]. rewrite bind_M. unfold lift at 1. rewrite Hhf.
  reflexivity.
Qed.

Lemma merge_sets_fresh st km u hf X o :
  resolved st km -> _values st = None -> addressable (lastDataColumn_of km) = true ->
  _getKeysHashFunction km u = Ok hf ->
  incoming_object km (ItemsArray X) u None = Ok o ->
  let v := getSheetValues (the_sheet st) (dataRowFirst st) 1
             (S (maxRows (the_sheet st)) - dataRowFirst st) (lastDataColumn_of km) in
  merge_sets (ItemsArray X) u no_merge_options st
  = (Ok (merge_plan (_filterKeysFrom km (use_keys_flat u ++ [])) no_merge_options
           (getDataItemsObject_from km (dataRowFirst st) v no_read_options hf) o),
     with_values st (Some v)).
Proof.
  intros Hres Hv Ha Hhf Hin v. unfold merge_sets.
  rewrite bind_M.
  rewrite (getDataItemsObject_fresh st km u hf _ Hres Hv Ha Hhf). fold v.
  rewrite bind_M, (resolved_keys _ km) by by apply resolved_with_values.
  rewrite bind_M. unfold lift at 1.
  change (merge_keyCB no_merge_options) with (@None (value -> value)).
  rewrite Hin. reflexivity.
Qed.




(** A record whose fields are all the empty string is written to a row
    that reads as empty, so the next merge does not find it and inserts it
    again. *)
Example blank_record_is_inserted_again :
  let st := sample_store [[VStr "A"; VNum 5]] in
  let X := [record [("sku", blank); ("qty", blank)]] in
  let st1 := (mergeDataItems (ItemsArray X) (UseKey "sku") no_merge_options st).2 in
  (mergeDataItems (ItemsArray X) (UseKey "sku") no_merge_options st).1
    = Ok (mkCounts 0 1 0) /\
  (mergeDataItems (ItemsArray X) (UseKey "sku") no_merge_options st1).1
    = Ok (mkCounts 0 1 0).
Proof. split; vm_compute; reflexivity. Qed.

(** A record without its key field hashes to [undefined]; the row written
    for it reads the empty string under the key, so the next merge inserts
    the record again. *)
Example record_without_key_is_inserted_again :
  let st := sample_store [[VStr "A"; VNum 5]] in
  let X := [record [("qty", VNum 3)]] in
  let st1 := (mergeDataItems (ItemsArray X) (UseKey "sku") no_merge_options st).2 in
  (mergeDataItems (ItemsArray X) (UseKey "sku") no_merge_options st).1
    = Ok (mkCounts 0 1 0) /\
  (mergeDataItems (ItemsArray X) (UseKey "sku") no_merge_options st1).1
    = Ok (mkCounts 0 1 0).
Proof. split; vm_compute; reflexivity. Qed.

(** An object of records is taken as it is, keyed by whatever the caller
    keyed it with: under a key that is not the hash, a record the sheet
    already holds is inserted by every merge. *)
Example caller_keyed_object_is_inserted_again :
  let st := sample_store [[VStr "A"; VNum 5]] in
  let X := ItemsObject [("k1", record [("sku", VStr "A"); ("qty", VNum 5)])] in
  let st1 := (mergeDataItems X (UseKey "sku") no_merge_options st).2 in
  (mergeDataItems X (UseKey "sku") no_merge_options st).1 = Ok (mkCounts 0 1 0) /\
  (mergeDataItems X (UseKey "sku") no_merge_options st1).1 = Ok (mkCounts 0 1 0).
Proof. split; vm_compute; reflexivity. Qed.

(** * Further properties *)

(** ** Explicit schema from an array of names *)

Lemma obj_set_fresh {A} k (a : A) o : obj_get k o = None -> obj_set k a o = o ++ [(k, a)].
Proof.
  induction o as [|[k' a'] o IH]; simpl; [done|].
  destruct (decide (k = k')); [done|]. intros H. by rewrite IH.
Qed.

Lemma keys_of_array_positions names : forall i acc,
  NoDup names -> (forall n, n ∈ names -> obj_get n acc = None) ->
  keys_of_array i names acc
  = Ok (acc ++ imap (fun j n => (n, OffNum (inject_Z (Z.of_nat (i + j))))) names).
Proof.
  induction names as [|name names IH]; intros i acc Hnd Hfresh; simpl.
  - by rewrite app_nil_r.
  - apply NoDup_cons in Hnd as [Hni Hnd].
    unfold obj_has. rewrite (Hfresh name) by left.
    rewrite IH; [|done|].
    + rewrite obj_set_fresh by (apply Hfresh; left).
      rewrite <- app_assoc. simpl. rewrite Nat.add_0_r. do 3 f_equal.
      apply imap_ext. intros j n _. simpl. do 4 f_equal. lia.
    + intros n Hn. rewrite obj_get_set. destruct (decide (name = n)) as [->|]; [done|].
      apply Hfresh. by right.
Qed.

(** X1. An array of names is accepted as the schema exactly when it is not
    empty and holds no name twice, and then each name gets its position in
    the array as its offset. The names are assumed to be none of those an
    empty object inherits. *)
Theorem validateAndSetKeys_array_positions (names : list string) :
  Forall (fun n => n ∉ object_prototype_names) names ->
  forall km,
    _validateAndSetKeys (KeysArray names) = Ok km <->
    names <> [] /\ NoDup names /\
    km = imap (fun i n => (n, OffNum (inject_Z (Z.of_nat i)))) names.
Proof.
  intros _ km. split.
  - intros H. destruct names as [|n0 names]; [done|]. split; [done|].
    destruct (decide (NoDup (n0 :: names))) as [Hnd|Hdup].
    + split; [done|]. unfold _validateAndSetKeys in H.
      rewrite (keys_of_array_positions (n0 :: names) 0 []) in H; [|done|done].
      injection H as <-. done.
    + unfold _validateAndSetKeys in H.
      rewrite (keys_of_array_not_unique (n0 :: names) 0 []) in H; [done|by left].
  - intros (Hne & Hnd & ->). destruct names as [|n0 names]; [done|].
    unfold _validateAndSetKeys.
    by rewrite (keys_of_array_positions (n0 :: names) 0 []).
Qed.

Lemma validateAndSetKeys_array_positions_witness :
  _validateAndSetKeys (KeysArray ["sku"; "qty"])
  = Ok [("sku", OffNum (inject_Z 0)); ("qty", OffNum (inject_Z 1))].
Proof.
  apply (validateAndSetKeys_array_positions ["sku"; "qty"]).
  - repeat constructor; apply (bool_decide_unpack _); vm_compute; exact I.
  - split; [done|]. split; [|reflexivity].
    apply (bool_decide_unpack _). vm_compute. exact I.
Defined.

(** ** Schema discovery from the header row *)

Lemma header_reduce_names cs : forall idx acc name,
  name ∈ (header_reduce idx cs acc).*1 <->
  name ∈ acc.*1 \/ exists v, v ∈ cs /\ truthy v = true /\ to_string v = name.
Proof.
  induction cs as [|c cs IH]; intros idx acc name; simpl.
  - split; [by left|]. intros [?|(v & Hv & _)]; [done|]. by apply elem_of_nil in Hv.
  - rewrite IH. destruct (truthy c) eqn:Hc.
    + rewrite obj_set_names. split.
      * intros [[->|?]|(v & Hv & Ht & Hn)]; [right|by left|right].
        -- exists c. split; [left|done].
        -- exists v. split; [by right|done].
      * intros [?|(v & Hv & Ht & Hn)]; [left; by right|].
        apply elem_of_cons in Hv as [->|Hv]; [left; by left|].
        right. by exists v.
    + split.
      * intros [?|(v & Hv & Ht & Hn)]; [by left|]. right. exists v. split; [by right|done].
      * intros [?|(v & Hv & Ht & Hn)]; [by left|].
        apply elem_of_cons in Hv as [->|Hv]; [congruence|]. right. by exists v.
Qed.

Lemma header_reduce_NoDup cs : forall idx acc,
  NoDup acc.*1 -> NoDup (header_reduce idx cs acc).*1.
Proof.
  induction cs as [|c cs IH]; intros idx acc Hnd; simpl; [done|].
  apply IH. destruct (truthy c); [by apply obj_set_NoDup | done].
Qed.

(** The last cell of [cs] that names [name], counted from [idx]. *)
Lemma header_reduce_get cs : forall idx acc name i,
  obj_get name (header_reduce idx cs acc) = Some i <->
  (exists j v, i = idx + j /\ cs !! j = Some v /\ truthy v = true /\ to_string v = name /\
     forall j' v', j < j' -> cs !! j' = Some v' -> truthy v' = true -> to_string v' <> name) \/
  (obj_get name acc = Some i /\
     forall j v, cs !! j = Some v -> truthy v = true -> to_string v <> name).
Proof.
  induction cs as [|c cs IH]; intros idx acc name i; simpl.
  - split.
    + intros H. right. split; [done|]. intros j v Hj. done.
    + intros [(j & v & _ & Hj & _)|[H _]]; [done|done].
  - rewrite IH. split.
    + intros [(j & v & -> & Hj & Ht & Hn & Hlast)|[Hacc Hno]].
      * left. exists (S j), v. split; [lia|]. split; [done|]. split; [done|]. split; [done|].
        intros [|j'] v' Hlt Hj'; [lia|]. simpl in Hj'. apply (Hlast j' v'); [lia|done].
      * destruct (truthy c) eqn:Hc.
        -- rewrite obj_get_set in Hacc. destruct (decide (to_string c = name)) as [Heq|Hne].
           ++ injection Hacc as <-. left. exists 0, c.
              split; [lia|]. split; [done|]. split; [done|]. split; [done|].
              intros [|j'] v' Hlt Hj'; [lia|]. simpl in Hj'. by apply (Hno j' v').
           ++ right. split; [done|]. intros [|j] v Hj Ht; simpl in Hj.
              ** injection Hj as <-. done.
              ** by apply (Hno j v).
        -- right. split; [done|]. intros [|j] v Hj Ht; simpl in Hj.
           ++ injection Hj as <-. congruence.
           ++ by apply (Hno j v).
    + intros [(j & v & -> & Hj & Ht & Hn & Hlast)|[Hacc Hno]].
      * destruct j as [|j]; simpl in Hj.
        -- injection Hj as <-. right. rewrite Ht. rewrite obj_get_set.
           rewrite decide_True by done. split; [f_equal; lia|].
           intros j v Hj Htv. apply (Hlast (S j) v); [lia|done|done].
        -- left. exists j, v. split; [lia|]. split; [done|]. split; [done|]. split; [done|].
           intros j' v' Hlt Hj'. apply (Hlast (S j') v'); [lia|done].
      * right. split.
        -- destruct (truthy c) eqn:Hc; [|done]. rewrite obj_get_set.
           rewrite decide_False; [done|]. apply (Hno 0 c); done.
        -- intros j v Hj. apply (Hno (S j) v). done.
Qed.

(** X2. Schema discovery reads the header row cell by cell: a cell that is
    truthy names a field at its index; when two cells carry the same name
    the field gets the index of the last one; and the discovery fails with
    the no-keys error exactly when no truthy cell carries a name other
    than [row]. No header cell is assumed to read [__proto__]. *)
Theorem getKeysFromSheet_fields (st : store) :
  let header := cell_norm <$> cells (the_sheet st) (keysRow st) in
  Forall (fun v => to_string v <> "__proto__") header ->
  match _getKeysFromSheet st with
  | Ok km =>
      NoDup km.*1 /\
      (exists v, v ∈ header /\ truthy v = true /\ to_string v <> "row") /\
      forall name i,
        obj_get name km = Some i <->
        exists v, header !! i = Some v /\ truthy v = true /\ to_string v = name /\
          forall j v', i < j -> header !! j = Some v' -> truthy v' = true ->
            to_string v' <> name
  | Err e =>
      e = ErrNoKeys /\ Forall (fun v => truthy v = true -> to_string v = "row") header
  end.
Proof.
  intros header _. unfold _getKeysFromSheet. fold header. cbv zeta.
  destruct (_isItemHasData_keys (header_reduce 0 header [])) eqn:Hhas.
  - split; [apply header_reduce_NoDup; constructor|]. split.
    + unfold _isItemHasData_keys in Hhas. apply existsb_exists in Hhas as ([k i] & Hin & Hk).
      simpl in Hk. apply negb_true_iff, bool_decide_eq_false in Hk.
      assert (Hname : k ∈ (header_reduce 0 header []).*1).
      { apply list_elem_of_fmap. exists (k, i). split; [done|]. by apply list_elem_of_In. }
      apply header_reduce_names in Hname as [Hnil|(v & Hv & Ht & Hn)].
      * by apply elem_of_nil in Hnil.
      * exists v. split; [done|]. split; [done|]. congruence.
    + intros name i. rewrite header_reduce_get. split.
      * intros [(j & v & -> & Hj & Ht & Hn & Hlast)|[Hnil _]]; [|done].
        exists v. done.
      * intros (v & Hi & Ht & Hn & Hlast). left. exists i, v. done.
  - split; [done|]. apply Forall_forall. intros v Hv Ht.
    unfold _isItemHasData_keys in Hhas.
    destruct (decide (to_string v = "row")) as [|Hne]; [done|]. exfalso.
    assert (Hname : to_string v ∈ (header_reduce 0 header []).*1).
    { apply header_reduce_names. right. by exists v. }
    apply list_elem_of_fmap in Hname as ([k i] & Hk & Hin). simpl in Hk. subst k.
    assert (existsb (fun kv : string * nat => negb (bool_decide (kv.1 = "row")))
              (header_reduce 0 header []) = true); [|congruence].
    apply existsb_exists. exists (to_string v, i). split; [by apply list_elem_of_In|].
    simpl. apply negb_true_iff. by apply bool_decide_eq_false.
Qed.

Lemma getKeysFromSheet_fields_witness :
  let st := sample_store [] in
  match _getKeysFromSheet st with
  | Ok km =>
      NoDup km.*1 /\
      (exists v, v ∈ cell_norm <$> cells (the_sheet st) (keysRow st) /\
                 truthy v = true /\ to_string v <> "row") /\
      forall name i,
        obj_get name km = Some i <->
        exists v, (cell_norm <$> cells (the_sheet st) (keysRow st)) !! i = Some v /\
          truthy v = true /\ to_string v = name /\
          forall j v', i < j ->
            (cell_norm <$> cells (the_sheet st) (keysRow st)) !! j = Some v' ->
            truthy v' = true -> to_string v' <> name
  | Err e =>
      e = ErrNoKeys /\
      Forall (fun v => truthy v = true -> to_string v = "row")
        (cell_norm <$> cells (the_sheet st) (keysRow st))
  end.
Proof.
  apply (getKeysFromSheet_fields (sample_store [])).
  repeat constructor; vm_compute; discriminate.
Defined.

(** ** The hash of a record *)

Lemma string_app_assoc (a b c : string) : (a +:+ b) +:+ c = a +:+ (b +:+ c).
Proof.
  induction a as [|x a IH]; [done|].
  change (String x ((a +:+ b) +:+ c) = String x (a +:+ (b +:+ c))). by rewrite IH.
Qed.

Lemma hash_fold_concat (g : string -> string) rest : forall s k,
  foldl (fun hash key => hash +:+ "|" +:+ g key) (s +:+ g k) rest
  = s +:+ String.concat "|" (g <$> k :: rest).
Proof.
  induction rest as [|k' rest IH]; intros s k.
  - reflexivity.
  - cbn [foldl]. rewrite <- string_app_assoc.
    rewrite (IH ((s +:+ g k) +:+ "|") k').
    rewrite !fmap_cons.
    change (String.concat "|" (g k :: g k' :: (g <$> rest)))
      with (g k +:+ "|" +:+ String.concat "|" (g k' :: (g <$> rest))).
    by rewrite !string_app_assoc.
Qed.

Lemma check_key_list_Ok km ks :
  check_key_list km ks = Ok tt -> forall k, k ∈ ks -> k ∈ km.*1.
Proof.
  induction ks as [|k0 ks IH]; simpl; intros H k Hk; [by apply elem_of_nil in Hk|].
  unfold check_key in H. destruct (obj_has k0 km) eqn:Hhas; [|done]. simpl in H.
  apply elem_of_cons in Hk as [->|Hk]; [by apply obj_has_names | by apply IH].
Qed.

Lemma check_key_list_Err km ks e :
  check_key_list km ks = Err e -> exists k, e = ErrNoSuchKey k /\ k ∈ ks /\ k ∉ km.*1.
Proof.
  induction ks as [|k0 ks IH]; simpl; intros H; [done|].
  unfold check_key in H. destruct (obj_has k0 km) eqn:Hhas; simpl in H.
  - destruct (IH H) as (k & -> & Hk & Hno). exists k. split; [done|]. split; [by right|done].
  - injection H as <-. exists k0. split; [done|]. split; [left|].
    rewrite <- obj_has_names. congruence.
Qed.

(** X3. A hash function is made exactly when [useKeys] names at least one
    field and every name is a field of the schema; the first name that is
    not a field is reported, and an empty array is reported as invalid.
    The key of a record is then the text of its key fields joined by bars;
    an array of one name hashes like the name alone. The names are assumed
    to be none of those an empty object inherits. *)
Theorem getKeysHashFunction_spec (km : keymap) (u : use_keys) :
  Forall (fun k => k ∉ object_prototype_names) (use_keys_flat u) ->
  match _getKeysHashFunction km u with
  | Ok hf =>
      use_keys_flat u <> [] /\
      (forall k, k ∈ use_keys_flat u -> k ∈ km.*1) /\
      (forall it : item,
         to_string (hf it)
         = String.concat "|" ((fun k => to_string (prop it k)) <$> use_keys_flat u))
  | Err e =>
      (u = UseKeyArray [] /\ e = ErrInvalidKeys) \/
      (exists k, e = ErrNoSuchKey k /\ k ∈ use_keys_flat u /\ k ∉ km.*1)
  end.
Proof.
  intros _. unfold _getKeysHashFunction.
  destruct (_checkKeys km u) as [[]|e] eqn:Hck; simpl.
  - pose proof (checkKeys_names km u Hck) as Hnames.
    destruct u as [key|[|k0 [|k1 rest]]]; simpl.
    + split; [done|]. split; [done|]. done.
    + done.
    + split; [done|]. split; [done|]. done.
    + split; [done|]. split; [done|]. intros it. unfold hash_concat. cbn [to_string].
      apply (hash_fold_concat (fun k => to_string (prop it k)) (k1 :: rest) EmptyString k0).
  - destruct u as [key|[|k0 ks]]; simpl in Hck.
    + unfold check_key in Hck. destruct (obj_has key km) eqn:Hhas; [done|].
      injection Hck as <-. right. exists key. split; [done|]. split; [simpl; left|].
      rewrite <- obj_has_names. congruence.
    + injection Hck as <-. by left.
    + right. apply (check_key_list_Err km (k0 :: ks) e Hck).
Qed.

Lemma getKeysHashFunction_spec_witness :
  match _getKeysHashFunction [("sku", 0); ("size", 1); ("qty", 2)]
          (UseKeyArray ["sku"; "size"]) with
  | Ok hf =>
      use_keys_flat (UseKeyArray ["sku"; "size"]) <> [] /\
      (forall k, k ∈ use_keys_flat (UseKeyArray ["sku"; "size"]) ->
         k ∈ [("sku", 0); ("size", 1); ("qty", 2)].*1) /\
      (forall it : item,
         to_string (hf it)
         = String.concat "|" ((fun k => to_string (prop it k))
                                <$> use_keys_flat (UseKeyArray ["sku"; "size"])))
  | Err e =>
      (UseKeyArray ["sku"; "size"] = UseKeyArray [] /\ e = ErrInvalidKeys) \/
      (exists k, e = ErrNoSuchKey k /\ k ∈ use_keys_flat (UseKeyArray ["sku"; "size"]) /\
                 k ∉ [("sku", 0); ("size", 1); ("qty", 2)].*1)
  end.
Proof.
  apply (getKeysHashFunction_spec [("sku", 0); ("size", 1); ("qty", 2)]
           (UseKeyArray ["sku"; "size"])).
  repeat constructor; apply (bool_decide_unpack _); vm_compute; exact I.
Defined.

(** ** Column letters, for every column number *)

Lemma letter_loop_label fuel : forall n acc,
  1 <= n -> n <= fuel -> digits26_nonzero_go fuel n = true ->
  letter_loop fuel n acc = column_label_go fuel n acc.
Proof.
  induction fuel as [|fuel IH]; intros n acc H1 Hle Hnz; [lia|].
  cbn [letter_loop column_label_go digits26_nonzero_go] in *.
  apply andb_true_iff in Hnz as [Hr Hq].
  apply negb_true_iff, Nat.eqb_neq in Hr.
  destruct n as [|m]; [lia|].
  pose proof (Nat.div_mod_eq (S m) 26) as Hdm.
  pose proof (Nat.mod_upper_bound (S m) 26 ltac:(lia)) as Hub.
  assert (Hmq : m / 26 = S m / 26).
  { symmetry. apply (Nat.div_unique m 26 (S m / 26) (S m mod 26 - 1)); lia. }
  assert (Hmr : 65 + m mod 26 = 64 + S m mod 26).
  { assert (m mod 26 = S m mod 26 - 1); [|lia].
    symmetry. apply (Nat.mod_unique m 26 (S m / 26) (S m mod 26 - 1)); lia. }
  unfold fromCharCode64. rewrite Hmq, Hmr.
  destruct (0 <? S m / 26) eqn:Hpos.
  - apply Nat.ltb_lt in Hpos. apply IH; [lia| |done].
    assert (S m / 26 < S m) by (apply Nat.div_lt; lia). lia.
  - apply Nat.ltb_ge in Hpos. assert (S m / 26 = 0) as -> by lia.
    destruct fuel; reflexivity.
Qed.

Lemma column_label_go_upper fuel : forall n acc,
  Forall (fun c => 65 <= nat_of_ascii c) (String.list_ascii_of_string acc) ->
  Forall (fun c => 65 <= nat_of_ascii c) (String.list_ascii_of_string (column_label_go fuel n acc)).
Proof.
  induction fuel as [|fuel IH]; intros n acc Hacc; simpl; [done|].
  destruct n as [|m]; [done|]. apply IH. simpl. constructor; [|done].
  rewrite nat_ascii_embedding; [lia|].
  pose proof (Nat.mod_upper_bound m 26 ltac:(lia)). lia.
Qed.

Lemma letter_loop_keeps fuel : forall n acc c,
  c ∈ String.list_ascii_of_string acc -> c ∈ String.list_ascii_of_string (letter_loop fuel n acc).
Proof.
  induction fuel as [|fuel IH]; intros n acc c Hc; [done|]. cbn [letter_loop].
  destruct (0 <? n / 26); [apply IH|]; cbn [String.list_ascii_of_string]; by right.
Qed.

Lemma letter_loop_at fuel : forall n acc,
  1 <= n -> n <= fuel -> digits26_nonzero_go fuel n = false ->
  "@"%char ∈ String.list_ascii_of_string (letter_loop fuel n acc).
Proof.
  induction fuel as [|fuel IH]; intros n acc H1 Hle Hz; [lia|].
  cbn [letter_loop digits26_nonzero_go] in *.
  destruct (n mod 26 =? 0) eqn:Hr.
  - apply Nat.eqb_eq in Hr. rewrite Hr.
    destruct (0 <? n / 26); [apply letter_loop_keeps|];
      cbn [String.list_ascii_of_string]; left.
  - cbn [negb andb] in Hz. destruct (0 <? n / 26) eqn:Hpos; [|done].
    apply Nat.ltb_lt in Hpos. apply IH; [lia| |done].
    assert (n / 26 < n) by (apply Nat.div_lt; lia). lia.
Qed.

(** X4. For every column number from 1 on, [letter] returns the label the
    spreadsheet uses exactly when the number is 26 or no digit of the
    number in base 26 is zero: 1 to 51 are right, 52 is the first that is
    wrong, and so is every later multiple of 26. *)
Theorem letter_is_label_iff (n : nat) :
  1 <= n ->
  (letter n = Ok (column_label n) <-> n = 26 \/ digits26_nonzero n = true).
Proof.
  intros H1. unfold letter.
  rewrite (proj2 (Nat.ltb_ge n 1)) by lia.
  destruct (n <? 27) eqn:H27.
  - apply Nat.ltb_lt in H27. split.
    + intros _. destruct (decide (n = 26)) as [|Hne]; [by left|right].
      unfold digits26_nonzero. destruct n as [|m]; [lia|]. cbn [digits26_nonzero_go].
      rewrite (Nat.mod_small (S m) 26) by lia. rewrite (Nat.div_small (S m) 26) by lia.
      reflexivity.
    + intros _. f_equal.
      assert (Hcase : n ∈ seq 1 26) by (apply elem_of_seq; lia).
      clear H1 H27. revert n Hcase. apply Forall_forall.
      vm_compute. repeat constructor.
  - apply Nat.ltb_ge in H27. split.
    + intros Heq. right. injection Heq as Heq.
      destruct (digits26_nonzero n) eqn:Hnz; [done|]. exfalso.
      pose proof (letter_loop_at n n EmptyString H1 (le_n _) Hnz) as Hat.
      rewrite Heq in Hat.
      pose proof (column_label_go_upper n n EmptyString ltac:(constructor)) as Hup.
      rewrite Forall_forall in Hup. specialize (Hup _ Hat). vm_compute in Hup. lia.
    + intros [->|Hnz]; [lia|]. f_equal.
      by apply letter_loop_label.
Qed.

Lemma letter_is_label_iff_witness :
  (letter 53 = Ok (column_label 53) <-> 53 = 26 \/ digits26_nonzero 53 = true) /\
  (letter 702 = Ok (column_label 702) <-> 702 = 26 \/ digits26_nonzero 702 = true).
Proof. split; [apply (letter_is_label_iff 53) | apply (letter_is_label_iff 702)]; lia. Defined.

(** ** The block of cells written for a collection of records *)

(** X5. The block built for a collection of records is rectangular: one
    row per record, in the order of the collection, each as wide as the
    schema's last column. When no two fields share an offset, the cell at
    a field's offset holds the record's value for the field if the record
    has the field and the default value otherwise, and every cell that is
    no field's offset holds the default value. The field names are assumed
    to be none of those every object inherits. *)
Theorem parseDataToArray_rectangular (km : keymap) (dataItems : data_items) (dv : value) :
  NoDup km.*2 ->
  plain_names km.*1 = true ->
  let rows := _parseDataToArray km dataItems dv in
  length rows = length (items_list dataItems) /\
  Forall (fun row => length row = lastDataColumn_of km) rows /\
  forall i it, items_list dataItems !! i = Some it ->
    exists row, rows !! i = Some row /\
      (forall k off, (k, off) ∈ km ->
         row !! off = Some (if has_prop it k then prop it k else dv)) /\
      (forall j, j < lastDataColumn_of km -> j ∉ km.*2 -> row !! j = Some dv).
Proof.
  intros Hnd _ rows. unfold rows, _parseDataToArray. split; [by rewrite length_fmap|].
  split.
  - apply Forall_fmap, Forall_forall. intros it _. apply length_row_of_item.
  - intros i it Hi. exists (row_of_item km dv it). split; [by rewrite list_lookup_fmap, Hi|].
    split.
    + intros k off Hin. by apply row_of_item_lookup.
    + intros j Hj Hno. unfold row_of_item. rewrite foldl_set_other by done.
      by apply lookup_replicate_2.
Qed.

Lemma parseDataToArray_rectangular_witness :
  let km := [("sku", 0); ("qty", 2)] in
  let rows := _parseDataToArray km (ItemsArray [record [("sku", VStr "A")]]) VNull in
  length rows = 1 /\
  Forall (fun row => length row = lastDataColumn_of km) rows /\
  forall i it, [record [("sku", VStr "A")]] !! i = Some it ->
    exists row, rows !! i = Some row /\
      (forall k off, (k, off) ∈ km ->
         row !! off = Some (if has_prop it k then prop it k else VNull)) /\
      (forall j, j < lastDataColumn_of km -> j ∉ km.*2 -> row !! j = Some VNull).
Proof.
  apply (parseDataToArray_rectangular [("sku", 0); ("qty", 2)]
           (ItemsArray [record [("sku", VStr "A")]]) VNull).
  - apply (bool_decide_unpack _). vm_compute. exact I.
  - vm_compute. reflexivity.
Defined.

(** ** Reading the records *)

Lemma omap_fmap_list {A B C} (f : B -> option C) (g : A -> B) (l : list A) :
  omap f (g <$> l) = omap (fun x => f (g x)) l.
Proof. induction l as [|x l IH]; csimpl; [done|]. by rewrite IH. Qed.

(** The values a store reads, whether they are cached or not. *)
Lemma values_Ok_of_sheet st km :
  resolved st km -> addressable (lastDataColumn_of km) = true ->
  cache_coherent st km = true ->
  exists st1,
    values st = (Ok (getSheetValues (the_sheet st) (dataRowFirst st) 1
                       (S (maxRows (the_sheet st)) - dataRowFirst st)
                       (lastDataColumn_of km)), st1) /\
    resolved st1 km /\ the_sheet st1 = the_sheet st /\ dataRowFirst st1 = dataRowFirst st /\
    keysRow st1 = keysRow st.
Proof.
  intros Hres Ha Hc. destruct (_values st) as [v|] eqn:Hv.
  - exists st. unfold cache_coherent in Hc. rewrite Hv in Hc.
    apply bool_decide_eq_true in Hc. unfold values. rewrite Hv, Hc. done.
  - eexists. split; [apply (values_fresh st km Hres Hv Ha)|]. done.
Qed.

Lemma keys_fst_Ok st km :
  (keys st).1 = Ok km -> exists st0, keys st = (Ok km, st0).
Proof. destruct (keys st) as [r st0]. simpl. intros ->. by exists st0. Qed.

Lemma cache_coherent_keys st km st0 :
  keys st = (Ok km, st0) -> cache_coherent st km = true -> cache_coherent st0 km = true.
Proof.
  intros Hk Hc. destruct (keys_Ok _ _ _ Hk) as (Hsh & Hv & Hd & _).
  unfold cache_coherent in *. by rewrite Hv, Hsh, Hd.
Qed.



(** The records of that sheet: the empty row 3 is skipped. *)
Example getDataItems_skips_empty_row :
  (getDataItems no_read_options
     (sample_store [[VStr "A"; VNum 5]; []; [VStr "B"; VNum 1]])).1
  = Ok [record [("sku", VStr "A"); ("qty", VNum 5); ("row", VNum 2)];
        record [("sku", VStr "B"); ("qty", VNum 1); ("row", VNum 4)]].
Proof. vm_compute. reflexivity. Qed.



(** ** Inserting records *)

Lemma setValues_rows_dv km dv (l : list item) row :
  km <> [] -> l <> [] ->
  forall st, _setValues row 1 (row_of_item km dv <$> l) st
             = (Ok true, with_sheet st (setValues (the_sheet st) row 1 (row_of_item km dv <$> l))).
Proof.
  intros Hkm Hl st. destruct l as [|x l]; [done|]. rewrite fmap_cons.
  destruct (row_of_item km dv x) as [|v vs] eqn:Hrow; [|done].
  apply (f_equal length) in Hrow. rewrite length_row_of_item in Hrow.
  pose proof (lastDataColumn_pos km Hkm). simpl in Hrow. lia.
Qed.

Lemma insertDataItems_with_append km (dataItems : data_items) dv st :
  resolved st km -> km <> [] -> items_list dataItems <> [] ->
  let sh := the_sheet st in
  let lastRow := getLastRow sh in
  let first := dataRowFirst st in
  let vals := row_of_item km (default_param dv VNull) <$> items_list dataItems in
  insertDataItems_with dataItems dv false st
  = (Ok tt,
     with_values
       (with_sheet st
          (setValues (insertRowsAfter sh (if lastRow <? first then first else lastRow)
                        (length (items_list dataItems)))
             (if lastRow <? first then first else lastRow + 1) 1 vals))
       None).
Proof.
  intros Hres Hkm Hl sh lastRow first vals. unfold insertDataItems_with.
  rewrite bind_M, (resolved_keys _ _ Hres). unfold _parseDataToArray. fold vals.
  destruct vals as [|v0 vals'] eqn:Hvals.
  { apply (f_equal length) in Hvals. unfold vals in Hvals. rewrite length_fmap in Hvals.
    destruct (items_list dataItems); [done|simpl in Hvals; lia]. }
  rewrite <- Hvals. rewrite bind_M. cbn [get_store]. cbv zeta.
  rewrite bind_M, bind_M. unfold on_sheet at 1.
  unfold vals at 1. rewrite (setValues_rows_dv km _ (items_list dataItems)) by done.
  unfold vals. rewrite !length_fmap. reflexivity.
Qed.

Lemma record_at_field sh km row k off :
  NoDup km.*1 -> "row" ∉ km.*1 -> (k, off) ∈ km ->
  record_at sh km row !! k
  = Some (let v := read_cell sh row (S off) in if strict_eq v blank then VNull else v).
Proof.
  intros Hnd Hrow Hin. unfold record_at, _parseRowValuesToItem.
  assert (Hk : k ∈ km.*1) by (apply list_elem_of_fmap; by exists (k, off)).
  rewrite lookup_insert_ne by (intros <-; done).
  rewrite (foldl_insert_NoDup
             (fun kv => let v := default VUndef (_ !! kv.2) in
                        if strict_eq v blank then VNull else v) km _ k off Hnd Hin).
  cbn [snd]. rewrite (lookup_getSheetValues sh row 1 1 _ 0) by lia. cbn [default].
  rewrite Nat.add_0_r.
  change (read_cell sh row <$> seq 1 (lastDataColumn_of km))
    with (region_row sh (lastDataColumn_of km) row).
  unfold id. rewrite lookup_region_row by (by eapply offset_lt_width). reflexivity.
Qed.

(** X8. Appending a non-empty array of records: [insertDataItems] without
    [growUp] adds one row per record after the last row that has content
    (from the first data row on, if no row has content that far), so no
    row that had content is moved or overwritten. Read back with
    [getDataItemByRow], the [j]-th new row gives the [j]-th record: under
    each field of the schema its value as the sheet stores it, or the
    default value if the record has not got the field, with null in place
    of the empty string. The schema has some field, no field name and no
    column twice, no field named [row] and no field named like a member
    every object inherits; the first data row is a row of the sheet. *)
Theorem insertDataItems_append (st : store) (km : keymap) (X : list item) (dv : value) :
  (keys st).1 = Ok km ->
  km <> [] ->
  NoDup km.*1 -> NoDup km.*2 -> ("row" ∉ km.*1) -> plain_names km.*1 = true ->
  1 <= dataRowFirst st ->
  dataRowFirst st <= maxRows (the_sheet st) ->
  X <> [] ->
  let sh := the_sheet st in
  let target := if getLastRow sh <? dataRowFirst st then dataRowFirst st
                else getLastRow sh + 1 in
  let st1 := (insertDataItems_with (ItemsArray X) dv false st).2 in
  (insertDataItems_with (ItemsArray X) dv false st).1 = Ok tt /\
  maxRows (the_sheet st1) = maxRows sh + length X /\
  (forall r, 1 <= r -> r <= maxRows sh -> row_has_content (cells sh r) = true -> r < target) /\
  (forall r, r < target -> cells (the_sheet st1) r = cells sh r) /\
  (forall j x, X !! j = Some x ->
     exists c,
       (getDataItemByRow (target + j) st1).1 = Ok c /\
       item_row c = Some (Z.of_nat (target + j)) /\
       forall k, k ∈ km.*1 ->
         c !! k = Some (let v := cell_norm (if has_prop x k then prop x k
                                            else default_param dv VNull) in
                        if strict_eq v blank then VNull else v)).
Proof.
  intros Hk Hkm Hnames Hoffs Hrow _ H1 Hd HX sh target st1.
  destruct (keys_fst_Ok st km Hk) as [st0 Hk0].
  destruct (keys_Ok _ _ _ Hk0) as (Hsh0 & _ & Hd0 & _ & _ & Hres0).
  set (vals := row_of_item km (default_param dv VNull) <$> X).
  assert (Hlen : length vals = length X) by (unfold vals; by rewrite length_fmap).
  assert (Hd' : dataRowFirst st <= maxRows sh) by done.
  assert (Hrun : insertDataItems_with (ItemsArray X) dv false st
    = (Ok tt, with_values (with_sheet st0
         (setValues (insertRowsAfter sh
            (if getLastRow sh <? dataRowFirst st then dataRowFirst st else getLastRow sh)
            (length X)) target 1 vals)) None)).
  { pose proof (insertDataItems_with_append km (ItemsArray X) dv st0 Hres0 Hkm HX) as Ha.
    cbv zeta in Ha. cbn [items_list] in Ha. rewrite Hsh0, Hd0 in Ha. fold sh vals in Ha.
    etrans; [|exact Ha]. unfold insertDataItems_with. rewrite !bind_M, Hk0.
    by rewrite (resolved_keys _ _ Hres0). }
  unfold st1. rewrite Hrun. cbn [fst snd the_sheet with_values with_sheet].
  split; [done|]. split; [cbn [maxRows setValues insertRowsAfter]; done|]. split.
  { intros r Hr1 Hr2 Hc.
    by apply (insert_target_after_content sh (dataRowFirst st) 0 [] Hd' eq_refl). }
  split.
  { intros r Hr. by apply (insert_cells_before sh (dataRowFirst st) (length X) vals Hd' Hlen). }
  intros j x Hj.
  set (st2 := with_values (with_sheet st0 _) None).
  assert (Hres2 : resolved st2 km) by done.
  rewrite (getDataItemByRow_Ok st2 km st2 _ (resolved_keys _ _ Hres2)).
  eexists. split; [reflexivity|]. split; [by apply parseRowValuesToItem_row|].
  intros k Hkin. apply list_elem_of_fmap in Hkin as ([k' off] & -> & Hin). cbn [fst].
  rewrite (record_at_field _ km _ k' off Hnames Hrow Hin). f_equal. cbv zeta.
  destruct (insert_cells_new sh (dataRowFirst st) (length X) vals Hd' Hlen j
              (row_of_item km (default_param dv VNull) x)) as [cs Hcs].
  { unfold vals. by rewrite list_lookup_fmap, Hj. }
  unfold st2. cbn [the_sheet with_values with_sheet]. fold target in Hcs.
  unfold read_cell. rewrite Hcs.
  pose proof (offset_lt_width km k' off Hin) as Hoff.
  rewrite lookup_app_l by (rewrite length_row_of_item; lia).
  rewrite (row_of_item_lookup km _ x k' off Hoffs Hin). cbn [default]. reflexivity.
Qed.

Lemma insertDataItems_append_witness :
  let st := sample_store [[VStr "A"; VNum 5]] in
  let km := [("sku", 0); ("qty", 1)] in
  let X := [record [("sku", VStr "B")]] in
  let st1 := (insertDataItems_with (ItemsArray X) VUndef false st).2 in
  (insertDataItems_with (ItemsArray X) VUndef false st).1 = Ok tt /\
  maxRows (the_sheet st1) = maxRows (the_sheet st) + length X /\
  (forall r, 1 <= r -> r <= maxRows (the_sheet st) ->
     row_has_content (cells (the_sheet st) r) = true -> r < 3) /\
  (forall r, r < 3 -> cells (the_sheet st1) r = cells (the_sheet st) r) /\
  (forall j x, X !! j = Some x ->
     exists c,
       (getDataItemByRow (3 + j) st1).1 = Ok c /\
       item_row c = Some (Z.of_nat (3 + j)) /\
       forall k, k ∈ km.*1 ->
         c !! k = Some (let v := cell_norm (if has_prop x k then prop x k
                                            else default_param VUndef VNull) in
                        if strict_eq v blank then VNull else v)).
Proof.
  intros st km X st1.
  apply (insertDataItems_append st km X VUndef).
  - vm_compute. reflexivity.
  - done.
  - apply (bool_decide_unpack _). vm_compute. exact I.
  - apply (bool_decide_unpack _). vm_compute. exact I.
  - apply (bool_decide_unpack _). vm_compute. exact I.
  - vm_compute. reflexivity.
  - cbn. lia.
  - cbn. lia.
  - done.
Defined.

(** The record read back from the new row of that sheet. *)
Example insertDataItems_append_reads_back :
  let st := sample_store [[VStr "A"; VNum 5]] in
  let st1 := (insertDataItems_with (ItemsArray [record [("sku", VStr "B")]]) VUndef false st).2 in
  (getDataItemByRow 3 st1).1
  = Ok (record [("sku", VStr "B"); ("qty", VNull); ("row", VNum 3)]).
Proof. vm_compute. reflexivity. Qed.

(** [insertDataItems] called with one argument is [insertDataItems_with]
    at its defaults. *)
Lemma insertDataItems_defaults (dataItems : data_items) (st : store) :
  insertDataItems dataItems st = insertDataItems_with dataItems VUndef false st.
Proof.
  unfold insertDataItems, insertDataItems_with. rewrite !bind_M.
  destruct (keys st) as [[km|e] st0]; [|done]. cbn [default_param].
  destruct (_parseDataToArray km dataItems VNull) as [|v vs] eqn:Hv; [done|].
  rewrite !bind_M. cbn [get_store]. cbv zeta. rewrite !bind_M.
  unfold on_sheet at 1 2. rewrite !bind_M.
  destruct (_setValues _ 1 (v :: vs) _) as [[b|e] s]; done.
Qed.

(** X9. Inserting at the top: with [growUp] set, [insertDataItems] opens
    one row per record at the first data row and writes the records there
    in order; the rows above keep their place and every row from the first
    data row on moves down by the number of records, with its cells as
    they were. *)
Theorem insertDataItems_grow_up (st : store) (km : keymap) (X : list item) (dv : value) :
  (keys st).1 = Ok km ->
  km <> [] ->
  plain_names km.*1 = true ->
  1 <= dataRowFirst st ->
  dataRowFirst st <= maxRows (the_sheet st) ->
  X <> [] ->
  let sh := the_sheet st in
  let d := dataRowFirst st in
  let sh1 := the_sheet (insertDataItems_with (ItemsArray X) dv true st).2 in
  (insertDataItems_with (ItemsArray X) dv true st).1 = Ok tt /\
  _values (insertDataItems_with (ItemsArray X) dv true st).2 = None /\
  maxRows sh1 = maxRows sh + length X /\
  (forall r, r < d -> cells sh1 r = cells sh r) /\
  (forall r, d <= r -> cells sh1 (r + length X) = cells sh r) /\
  (forall j x, X !! j = Some x ->
     cells sh1 (d + j) = row_of_item km (default_param dv VNull) x).
Proof.
  intros Hk Hkm _ H1 Hd HX sh d sh1.
  destruct (keys_fst_Ok st km Hk) as [st0 Hk0].
  destruct (keys_Ok _ _ _ Hk0) as (Hsh0 & _ & Hd0 & _ & _ & Hres0).
  set (vals := row_of_item km (default_param dv VNull) <$> X).
  assert (Hlen : length vals = length X) by (unfold vals; by rewrite length_fmap).
  assert (Hrun : insertDataItems_with (ItemsArray X) dv true st
    = (Ok tt, with_values (with_sheet st0
         (setValues (insertRowsBefore sh d (length X)) d 1 vals)) None)).
  { unfold insertDataItems_with. rewrite bind_M, Hk0.
    unfold _parseDataToArray. cbn [items_list]. fold vals.
    clear Hlen.
    destruct vals as [|v0 vals'] eqn:Hvals.
    { apply (f_equal length) in Hvals. unfold vals in Hvals. rewrite length_fmap in Hvals.
      destruct X; [done|simpl in Hvals; lia]. }
    rewrite <- Hvals. rewrite bind_M. cbn [get_store]. cbv zeta.
    rewrite bind_M, bind_M. unfold on_sheet at 1.
    unfold vals at 1. rewrite (setValues_rows_dv km _ X) by done.
    unfold vals. rewrite !length_fmap, Hd0, Hsh0. reflexivity. }
  unfold sh1. rewrite Hrun. cbn [fst snd the_sheet with_values with_sheet _values].
  split; [done|]. split; [done|]. split; [done|].
  split; [|split].
  - intros r Hr. rewrite cells_setValues.
    rewrite (proj2 (Nat.leb_gt d r)) by done. cbn [andb insertRowsBefore cells].
    by rewrite (proj2 (Nat.ltb_lt r d)).
  - intros r Hr. rewrite cells_setValues.
    destruct X as [|x0 X']; [done|].
    rewrite (proj2 (Nat.ltb_ge (r + length (x0 :: X')) (d + length vals))) by lia.
    rewrite andb_false_r. cbn [insertRowsBefore cells].
    rewrite (proj2 (Nat.ltb_ge (r + length (x0 :: X')) d)) by lia.
    rewrite (proj2 (Nat.ltb_ge (r + length (x0 :: X')) (d + length (x0 :: X')))) by lia.
    f_equal. lia.
  - intros j x Hj. pose proof (lookup_lt_Some _ _ _ Hj) as Hjlt.
    rewrite cells_setValues.
    rewrite (proj2 (Nat.leb_le d (d + j))) by lia.
    rewrite (proj2 (Nat.ltb_lt (d + j) (d + length vals))) by lia.
    cbn [andb insertRowsBefore cells].
    replace (d + j - d) with j by lia. unfold vals at 1 2.
    rewrite list_lookup_fmap, Hj. cbn [fmap option_fmap option_map default].
    rewrite (proj2 (Nat.ltb_ge (d + j) d)) by lia.
    rewrite (proj2 (Nat.ltb_lt (d + j) (d + length X))) by lia.
    by rewrite drop_nil, app_nil_r.
Qed.

Lemma insertDataItems_grow_up_witness :
  let st := sample_store [[VStr "A"; VNum 5]] in
  let km := [("sku", 0); ("qty", 1)] in
  let X := [record [("sku", VStr "B")]] in
  let sh1 := the_sheet (insertDataItems_with (ItemsArray X) VUndef true st).2 in
  (insertDataItems_with (ItemsArray X) VUndef true st).1 = Ok tt /\
  _values (insertDataItems_with (ItemsArray X) VUndef true st).2 = None /\
  maxRows sh1 = maxRows (the_sheet st) + length X /\
  (forall r, r < 2 -> cells sh1 r = cells (the_sheet st) r) /\
  (forall r, 2 <= r -> cells sh1 (r + length X) = cells (the_sheet st) r) /\
  (forall j x, X !! j = Some x ->
     cells sh1 (2 + j) = row_of_item km (default_param VUndef VNull) x).
Proof.
  intros st km X sh1.
  apply (insertDataItems_grow_up st km X VUndef).
  - vm_compute. reflexivity.
  - done.
  - vm_compute. reflexivity.
  - cbn. lia.
  - cbn. lia.
  - done.
Defined.

(** ** Replacing the data *)

Lemma keys_same_header st st' :
  frozen_keys st' = frozen_keys st -> _keys st' = _keys st ->
  keysRow st' = keysRow st ->
  cells (the_sheet st') (keysRow st) = cells (the_sheet st) (keysRow st) ->
  (keys st').1 = (keys st).1.
Proof.
  intros Hf Hk Hr Hc. unfold keys. rewrite Hf, Hk.
  destruct (frozen_keys st); [done|]. destruct (_keys st); [done|].
  unfold _getKeysFromSheet. rewrite Hr, Hc.
  by destruct (_isItemHasData_keys _).
Qed.

(** What [_fit] leaves: a sheet that ends one row after the [n] data rows,
    and that row is the row the sheet ended with. *)
Lemma fit_effect (n : nat) (st : store) :
  1 <= dataRowFirst st -> dataRowFirst st <= maxRows (the_sheet st) ->
  let sh := the_sheet st in
  let d := dataRowFirst st in
  exists st',
    _fit n false st = (Ok tt, st') /\
    frozen_keys st' = frozen_keys st /\ _keys st' = _keys st /\
    keysRow st' = keysRow st /\ dataRowFirst st' = d /\
    maxRows (the_sheet st') = d + n /\
    (forall r, r < d + n -> r < maxRows sh -> cells (the_sheet st') r = cells sh r) /\
    (forall r, r < d + n -> maxRows sh <= r -> cells (the_sheet st') r = []) /\
    cells (the_sheet st') (d + n) = cells sh (maxRows sh) /\
    calls (the_sheet st')
    = calls sh ++
      (if d + n <? maxRows sh then [DeleteRows (d + n) (maxRows sh - (d + n))]
       else if maxRows sh <? d + n then [InsertRowsAfter (maxRows sh - 1) (d + n - maxRows sh)]
       else []).
Proof.
  intros H1 Hd sh d. unfold _fit. rewrite bind_M. cbn [get_store]. cbv zeta.
  fold sh d.
  set (M := maxRows sh) in *.
  change (1 <= d) in H1. change (d <= M) in Hd.
  replace (Z.of_nat M - 1 - Z.of_nat d + 1 - Z.of_nat n)%Z
    with (Z.of_nat M - Z.of_nat d - Z.of_nat n)%Z by lia.
  destruct (Z.of_nat M - Z.of_nat d - Z.of_nat n =? 0)%Z eqn:Hz.
  - apply Z.eqb_eq in Hz. assert (M = d + n) by lia. cbn [negb].
    exists st. split; [done|]. split; [done|]. split; [done|]. split; [done|].
    split; [done|]. split; [done|]. split; [done|]. split; [intros; lia|].
    split; [fold sh; by subst M; f_equal|].
    rewrite (proj2 (Nat.ltb_ge (d + n) M)) by lia.
    rewrite (proj2 (Nat.ltb_ge M (d + n))) by lia. by rewrite app_nil_r.
  - apply Z.eqb_neq in Hz. cbn [negb].
    destruct (0 <? Z.of_nat M - Z.of_nat d - Z.of_nat n)%Z eqn:Hpos.
    + apply Z.ltb_lt in Hpos. rewrite bind_M. unfold on_sheet at 1.
      replace (Z.to_nat (Z.of_nat M - 1 - (Z.of_nat M - Z.of_nat d - Z.of_nat n) + 1))
        with (d + n) by lia.
      replace (Z.to_nat (Z.of_nat M - Z.of_nat d - Z.of_nat n)) with (M - (d + n)) by lia.
      eexists. split; [reflexivity|].
      cbn [frozen_keys _keys keysRow dataRowFirst the_sheet with_values with_sheet
           deleteRows maxRows cells calls].
      fold sh d M.
      split; [done|]. split; [done|]. split; [done|]. split; [done|].
      split; [lia|]. split.
      { intros r Hr _. by rewrite (proj2 (Nat.ltb_lt r (d + n))). }
      split; [intros; lia|]. split.
      { rewrite Nat.ltb_irrefl. f_equal. lia. }
      by rewrite (proj2 (Nat.ltb_lt (d + n) M)) by lia.
    + apply Z.ltb_ge in Hpos. rewrite bind_M. unfold on_sheet at 1.
      replace (Z.to_nat (Z.of_nat M - 1)) with (M - 1) by lia.
      replace (Z.to_nat (- (Z.of_nat M - Z.of_nat d - Z.of_nat n))) with (d + n - M) by lia.
      eexists. split; [reflexivity|].
      cbn [frozen_keys _keys keysRow dataRowFirst the_sheet with_values with_sheet
           insertRowsAfter maxRows cells calls].
      fold sh d M.
      split; [done|]. split; [done|]. split; [done|]. split; [done|].
      split; [lia|]. split.
      { intros r _ Hr. by rewrite (proj2 (Nat.leb_le r (M - 1))) by lia. }
      split.
      { intros r Hr HM. rewrite (proj2 (Nat.leb_gt r (M - 1))) by lia.
        by rewrite (proj2 (Nat.leb_le r (M - 1 + (d + n - M)))) by lia. }
      split.
      { rewrite (proj2 (Nat.leb_gt (d + n) (M - 1))) by lia.
        rewrite (proj2 (Nat.leb_gt (d + n) (M - 1 + (d + n - M)))) by lia.
        f_equal. lia. }
      rewrite (proj2 (Nat.ltb_ge (d + n) M)) by lia.
      by rewrite (proj2 (Nat.ltb_lt M (d + n))) by lia.
Qed.

(** X10. [replaceData] leaves a sheet that ends one row below the new
    records: the records are written from the first data row on, one per
    row and in order, the rows above stay as they were, and the row right
    below the records is the row the sheet ended with before, cells
    included: the last row of the sheet is not replaced. The cache of
    values is dropped. *)
Theorem replaceData_layout (st : store) (km : keymap) (dataItems : data_items) (dv : value) :
  (keys st).1 = Ok km ->
  km <> [] ->
  plain_names km.*1 = true ->
  1 <= keysRow st ->
  keysRow st < dataRowFirst st ->
  dataRowFirst st <= maxRows (the_sheet st) ->
  let sh := the_sheet st in
  let d := dataRowFirst st in
  let X := items_list dataItems in
  let res := replaceData dataItems dv st in
  let sh1 := the_sheet res.2 in
  res.1 = Ok tt /\
  _values res.2 = None /\
  maxRows sh1 = d + length X /\
  (forall r, r < d -> cells sh1 r = cells sh r) /\
  (forall j x, X !! j = Some x ->
     exists cs, cells sh1 (d + j) = row_of_item km (default_param dv VNull) x ++ cs) /\
  cells sh1 (d + length X) = cells sh (maxRows sh).
Proof.
  intros Hk Hkm _ Hr1 Hkr Hd sh d X res sh1.
  destruct (fit_effect (length X) st ltac:(lia) Hd)
    as (st' & Hfit & Hfk & Hkk & Hkrow & Hd' & Hmax & Hold & Hnew & Hlast & _).
  fold sh d in Hmax, Hold, Hnew, Hlast, Hd'.
  assert (Hk' : (keys st').1 = Ok km).
  { rewrite (keys_same_header st st' Hfk Hkk Hkrow); [done|].
    apply Hold; [lia|]. fold d. unfold sh in *. lia. }
  destruct (keys_fst_Ok st' km Hk') as [st0 Hk0].
  destruct (keys_Ok _ _ _ Hk0) as (Hsh0 & _ & Hd0 & _ & _ & Hres0).
  set (vals := row_of_item km (default_param dv VNull) <$> X).
  assert (Hrun : res = (Ok tt,
    with_values (with_sheet st0 (if decide (X = []) then the_sheet st'
                                 else setValues (the_sheet st') d 1 vals)) None)).
  { unfold res, replaceData. fold X. rewrite bind_M, Hfit, bind_M, Hk0.
    rewrite bind_M. cbn [get_store]. rewrite Hd0, Hd'.
    unfold _parseDataToArray. fold X vals. rewrite bind_M.
    destruct (decide (X = [])) as [HX|HX].
    - unfold vals. rewrite HX. cbn [fmap list_fmap _setValues]. cbn [mret M_ret].
      unfold resetCache. rewrite <- Hsh0. by rewrite with_sheet_same.
    - unfold vals. rewrite (setValues_rows_dv km _ X) by done.
      unfold resetCache. by rewrite Hsh0. }
  unfold sh1. rewrite Hrun. cbn [fst snd the_sheet with_values with_sheet _values].
  split; [done|]. split; [done|].
  destruct (decide (X = [])) as [HX|HX].
  - split; [done|]. split.
    + intros r Hr. apply Hold; [lia|]. unfold sh in *. fold d in Hd. lia.
    + split; [|done]. intros j x Hj. rewrite HX in Hj. done.
  - assert (Hlen : length vals = length X) by (unfold vals; by rewrite length_fmap).
    split; [done|]. split; [|split].
    + intros r Hr. rewrite cells_setValues.
      rewrite (proj2 (Nat.leb_gt d r)) by done. cbn [andb].
      apply Hold; [lia|]. unfold sh in *. fold d in Hd. lia.
    + intros j x Hj. pose proof (lookup_lt_Some _ _ _ Hj) as Hjlt.
      rewrite cells_setValues.
      rewrite (proj2 (Nat.leb_le d (d + j))) by lia.
      rewrite (proj2 (Nat.ltb_lt (d + j) (d + length vals))) by lia.
      cbn [andb]. replace (d + j - d) with j by lia. unfold vals at 1 2.
      rewrite list_lookup_fmap, Hj. cbn [fmap option_fmap option_map default].
      by eexists.
    + rewrite cells_setValues.
      rewrite (proj2 (Nat.ltb_ge (d + length X) (d + length vals))) by lia.
      by rewrite andb_false_r.
Qed.

Lemma replaceData_layout_witness :
  let st := sample_store [[VStr "A"; VNum 1]; [VStr "B"; VNum 2]; [VStr "C"; VNum 3]] in
  let km := [("sku", 0); ("qty", 1)] in
  let X := [record [("sku", VStr "N"); ("qty", VNum 9)]] in
  let res := replaceData (ItemsArray X) VUndef st in
  let sh1 := the_sheet res.2 in
  res.1 = Ok tt /\
  _values res.2 = None /\
  maxRows sh1 = 2 + length X /\
  (forall r, r < 2 -> cells sh1 r = cells (the_sheet st) r) /\
  (forall j x, X !! j = Some x ->
     exists cs, cells sh1 (2 + j) = row_of_item km (default_param VUndef VNull) x ++ cs) /\
  cells sh1 (2 + length X) = cells (the_sheet st) (maxRows (the_sheet st)).
Proof.
  intros st km X res sh1.
  apply (replaceData_layout st km (ItemsArray X) VUndef).
  - vm_compute. reflexivity.
  - done.
  - vm_compute. reflexivity.
  - cbn. lia.
  - cbn. lia.
  - cbn. lia.
Defined.

(** On that sheet of three records the one new record is followed by the
    old last record. *)
Example replaceData_keeps_last_row :
  let st := sample_store [[VStr "A"; VNum 1]; [VStr "B"; VNum 2]; [VStr "C"; VNum 3]] in
  let st1 := (replaceData (ItemsArray [record [("sku", VStr "N"); ("qty", VNum 9)]])
                VUndef st).2 in
  (getDataItems no_read_options st1).1
  = Ok [record [("sku", VStr "N"); ("qty", VNum 9); ("row", VNum 2)];
        record [("sku", VStr "C"); ("qty", VNum 3); ("row", VNum 3)]].
Proof. vm_compute. reflexivity. Qed.

(** X11. [replaceData] resizes the sheet before it reads the schema: on a
    store whose schema cannot be found it fails with the error of the
    schema, and by then the rows between the new end of the data and the
    last row have been deleted. *)
Theorem replaceData_resizes_before_failing (st : store) (dataItems : data_items)
    (dv : value) (e : error) :
  (keys st).1 = Err e ->
  1 <= keysRow st ->
  keysRow st < dataRowFirst st ->
  dataRowFirst st + length (items_list dataItems) < maxRows (the_sheet st) ->
  let sh := the_sheet st in
  let n := length (items_list dataItems) in
  let res := replaceData dataItems dv st in
  res.1 = Err e /\
  maxRows (the_sheet res.2) = dataRowFirst st + n /\
  calls (the_sheet res.2)
  = calls sh ++ [DeleteRows (dataRowFirst st + n) (maxRows sh - (dataRowFirst st + n))].
Proof.
  intros Hk Hr1 Hkr Hlt sh n res.
  destruct (fit_effect n st ltac:(lia) ltac:(lia))
    as (st' & Hfit & Hfk & Hkk & Hkrow & Hd' & Hmax & Hold & _ & _ & Hcalls).
  cbv zeta in Hcalls. unfold n in Hcalls.
  rewrite (proj2 (Nat.ltb_lt _ _) Hlt) in Hcalls.
  assert (Hk' : (keys st').1 = Err e).
  { rewrite (keys_same_header st st' Hfk Hkk Hkrow); [done|]. apply Hold; lia. }
  unfold res, replaceData. rewrite bind_M. fold n. rewrite Hfit, bind_M.
  destruct (keys st') as [r st0] eqn:Hk0. simpl in Hk'. subst r.
  cbn [fst snd].
  assert (Hsh : the_sheet st0 = the_sheet st').
  { unfold keys in Hk0. destruct (frozen_keys st'); [done|]. destruct (_keys st'); [done|].
    destruct (_getKeysFromSheet st'); [done|]. by injection Hk0 as _ <-. }
  rewrite Hsh. done.
Qed.

Lemma replaceData_resizes_before_failing_witness :
  let st := mkStore 1 2 None None None
              {| maxRows := 5;
                 cells := fun r => match r with
                                   | 3 => [VStr "A"; VNum 1]
                                   | 4 => [VStr "B"; VNum 2]
                                   | _ => []
                                   end;
                 calls := [] |} in
  let res := replaceData (ItemsArray [record [("sku", VStr "N")]]) VUndef st in
  res.1 = Err ErrNoKeys /\
  maxRows (the_sheet res.2) = 2 + 1 /\
  calls (the_sheet res.2) = [DeleteRows (2 + 1) (5 - (2 + 1))].
Proof.
  intros st res.
  apply (replaceData_resizes_before_failing st
           (ItemsArray [record [("sku", VStr "N")]]) VUndef ErrNoKeys).
  - vm_compute. reflexivity.
  - cbn. lia.
  - cbn. lia.
  - cbn. lia.
Defined.

(** ** Where the rows are after a bulk delete *)

(** The sheet after the calls issued for the chunks. *)
Lemma issue_deletes_fold chunks : forall st,
  exists us,
    mapM issue_delete chunks st
    = (Ok us, with_sheet st
         (foldl (fun sh ch => deleteRows sh (Z.to_nat (firstRow ch))
                                (Z.to_nat (lastRow ch - firstRow ch + 1)))
                (the_sheet st) chunks)).
Proof.
  induction chunks as [|ch rest IH]; intros st.
  - exists []. simpl. by destruct st.
  - destruct (IH (with_sheet st (deleteRows (the_sheet st) (Z.to_nat (firstRow ch))
                                   (Z.to_nat (lastRow ch - firstRow ch + 1)))))
      as (us & Hrun).
    exists (tt :: us).
    change (mapM issue_delete (ch :: rest)) with
      (issue_delete ch ≫= fun y => mapM issue_delete rest ≫= fun k => mret (y :: k)).
    rewrite bind_M. unfold issue_delete at 1, on_sheet. rewrite bind_M, Hrun. reflexivity.
Qed.

Lemma length_filter_all {A} (P : A -> Prop) `{forall x, Decision (P x)} (l : list A) :
  Forall P l -> length (filter P l) = length l.
Proof.
  induction 1 as [|x l Hx Hl IH]; [done|].
  rewrite filter_cons_True by done. simpl. by rewrite IH.
Qed.

Lemma length_filter_none {A} (P : A -> Prop) `{forall x, Decision (P x)} (l : list A) :
  Forall (fun x => ~ P x) l -> length (filter P l) = 0.
Proof.
  induction 1 as [|x l Hx Hl IH]; [done|].
  by rewrite filter_cons_False.
Qed.

Lemma rows_below_app D C r : rows_below (D ++ C) r = rows_below D r + rows_below C r.
Proof. unfold rows_below. by rewrite filter_app, length_app. Qed.

(** Distinct rows above [b] leave room below a row that is none of them. *)
Lemma rows_below_bound (D : list Z) (b : Z) (r : nat) :
  NoDup D -> (forall x, x ∈ D -> (b < x)%Z) -> Z.of_nat r ∉ D -> (b < Z.of_nat r)%Z ->
  (Z.of_nat (rows_below D r) + b + 1 <= Z.of_nat r)%Z.
Proof.
  intros Hnd Hab Hr Hbr. unfold rows_below.
  set (F := filter (fun x => (x < Z.of_nat r)%Z) D).
  assert (HF : F ⊆+ seqZ (b + 1) (Z.of_nat r - b - 1)).
  { apply NoDup_submseteq; [by apply NoDup_filter|].
    intros x Hx. apply list_elem_of_filter in Hx as [Hlt Hx].
    apply elem_of_seqZ. specialize (Hab x Hx). lia. }
  apply submseteq_length in HF. rewrite length_seqZ in HF. lia.
Qed.

Lemma rows_below_none (D : list Z) (r : nat) :
  (forall x, x ∈ D -> (Z.of_nat r <= x)%Z) -> rows_below D r = 0.
Proof.
  intros H. apply length_filter_none, Forall_forall. intros x Hx. specialize (H x Hx). lia.
Qed.

(** One call of [deleteRows] for a run of rows below all the rows deleted
    so far. *)
Lemma delete_run_step (sh0 shi : sheet) (D : list Z) (a b : Z) :
  (1 <= a)%Z -> (a <= b)%Z -> NoDup D -> (forall x, x ∈ D -> (b < x)%Z) ->
  maxRows shi = maxRows sh0 - length D ->
  (forall r, Z.of_nat r ∉ D -> cells shi (r - rows_below D r) = cells sh0 r) ->
  let C := seqZ a (b - a + 1) in
  let sh' := deleteRows shi (Z.to_nat a) (Z.to_nat (b - a + 1)) in
  maxRows sh' = maxRows sh0 - length (D ++ C) /\
  (forall r, Z.of_nat r ∉ D ++ C -> cells sh' (r - rows_below (D ++ C) r) = cells sh0 r).
Proof.
  intros H1 Hab Hnd Habove Hmax Hcells C sh'.
  assert (HlenC : length C = Z.to_nat (b - a + 1)) by (unfold C; apply length_seqZ).
  split.
  - unfold sh'. cbn [deleteRows maxRows]. rewrite Hmax, length_app, HlenC. lia.
  - intros r Hr. rewrite not_elem_of_app in Hr. destruct Hr as [HrD HrC].
    rewrite rows_below_app. unfold sh'. cbn [deleteRows cells].
    assert (HC : ~ (a <= Z.of_nat r < a + (b - a + 1))%Z).
    { intros Hin. apply HrC. unfold C. by apply elem_of_seqZ. }
    destruct (decide (Z.of_nat r < a)%Z) as [Hlt|Hge].
    + rewrite (rows_below_none C r).
      2:{ intros x Hx. unfold C in Hx. apply elem_of_seqZ in Hx. lia. }
      rewrite (rows_below_none D r).
      2:{ intros x Hx. specialize (Habove x Hx). lia. }
      rewrite (proj2 (Nat.ltb_lt (r - (0 + 0)) (Z.to_nat a))) by lia.
      rewrite <- (Hcells r HrD). rewrite (rows_below_none D r); [f_equal; lia|].
      intros x Hx. specialize (Habove x Hx). lia.
    + assert (Hbr : (b < Z.of_nat r)%Z) by lia.
      pose proof (rows_below_bound D b r Hnd Habove HrD Hbr) as Hbound.
      assert (HbC : rows_below C r = Z.to_nat (b - a + 1)).
      { unfold rows_below. rewrite length_filter_all; [done|].
        apply Forall_forall. intros x Hx. unfold C in Hx. apply elem_of_seqZ in Hx. lia. }
      rewrite HbC.
      rewrite (proj2 (Nat.ltb_ge _ _)) by lia.
      rewrite <- (Hcells r HrD). f_equal. lia.
Qed.

Lemma delete_runs_fold (sh0 : sheet) chunks : forall (shi : sheet) (D : list Z),
  NoDup D ->
  descending_chunks chunks ->
  Forall (fun ch => (1 <= firstRow ch)%Z /\ (firstRow ch <= lastRow ch)%Z) chunks ->
  (forall ch x, ch ∈ chunks -> x ∈ D -> (lastRow ch < x)%Z) ->
  maxRows shi = maxRows sh0 - length D ->
  (forall r, Z.of_nat r ∉ D -> cells shi (r - rows_below D r) = cells sh0 r) ->
  let D' := D ++ mjoin ((fun ch => seqZ (firstRow ch) (lastRow ch - firstRow ch + 1))
                           <$> chunks) in
  let sh' := foldl (fun sh ch => deleteRows sh (Z.to_nat (firstRow ch))
                                   (Z.to_nat (lastRow ch - firstRow ch + 1))) shi chunks in
  NoDup D' /\
  maxRows sh' = maxRows sh0 - length D' /\
  (forall r, Z.of_nat r ∉ D' -> cells sh' (r - rows_below D' r) = cells sh0 r).
Proof.
  induction chunks as [|ch rest IH]; intros shi D Hnd Hdesc Hwf Habove Hmax Hcells.
  - simpl. rewrite app_nil_r. done.
  - apply StronglySorted_inv in Hdesc as [Hdesc Hhd].
    apply Forall_cons in Hwf as [[H1 Hab] Hwf].
    destruct (delete_run_step sh0 shi D (firstRow ch) (lastRow ch) H1 Hab Hnd
                (fun x Hx => Habove ch x ltac:(left) Hx) Hmax Hcells) as [Hmax' Hcells'].
    rewrite fmap_cons. cbn [mjoin list_join foldl]. rewrite app_assoc.
    apply IH; try done.
    + apply NoDup_app. split; [done|]. split; [|apply NoDup_seqZ].
      intros x HxD HxC. apply elem_of_seqZ in HxC.
      specialize (Habove ch x ltac:(left) HxD). lia.
    + intros ch' x Hch' Hx. apply elem_of_app in Hx as [Hx|Hx].
      * apply (Habove ch' x); [by right|done].
      * apply elem_of_seqZ in Hx. rewrite Forall_forall in Hhd.
        specialize (Hhd ch' Hch'). simpl in Hhd. lia.
Qed.

(** X12. After a bulk delete of records obtained from the table (an
    object of records, or an array of instances of [DBItem]: what
    [_checkDBItems] lets pass) with pairwise distinct rows of the sheet,
    the sheet is shorter by the number of the records, and every row that
    was not deleted is still there with its cells, moved up by the number
    of deleted rows that were above it. *)
Theorem deleteDataItems_survivors (st : store) (dbItems : db_items) (rows : list Z) :
  is_ok (_checkDBItems dbItems) = true ->
  rows_of (db_items_list dbItems) = Some rows ->
  rows <> [] ->
  NoDup rows ->
  Forall (fun x => (1 <= x)%Z /\ (x <= Z.of_nat (maxRows (the_sheet st)))%Z) rows ->
  let sh := the_sheet st in
  let sh1 := the_sheet (deleteDataItems dbItems st).2 in
  (deleteDataItems dbItems st).1 = Ok tt /\
  _values (deleteDataItems dbItems st).2 = None /\
  maxRows sh1 = maxRows sh - length rows /\
  forall r, Z.of_nat r ∉ rows -> cells sh1 (r - rows_below rows r) = cells sh r.
Proof.
  intros Hcheck Hrows Hne Hnd Hrange sh sh1.
  destruct (js_sort_rows _ _ Hrows Hnd) as (s & Hs & Hperm & Hsorted).
  assert (Hsne : s <> []).
  { intros ->. apply Permutation_nil_l in Hperm. congruence. }
  destruct (delete_chunks_runs rows s Hperm Hsne Hsorted) as (Hruns & Hdesc & Hcover).
  set (chunks := delete_chunks s) in *.
  assert (Hwf : Forall (fun ch => (1 <= firstRow ch)%Z /\ (firstRow ch <= lastRow ch)%Z) chunks).
  { rewrite Forall_forall in Hruns. rewrite Forall_forall in Hrange.
    apply Forall_forall. intros ch Hch.
    destruct (Hruns ch Hch) as (Hab & Hin & _). split; [|done].
    apply (Hrange (firstRow ch)). apply Hin; lia. }
  destruct (delete_runs_fold sh chunks sh [] ltac:(constructor) Hdesc Hwf)
    as (HndD & HmaxD & HcellsD).
  { intros ch x _ Hx. by apply elem_of_nil in Hx. }
  { simpl. lia. }
  { intros r _. unfold rows_below. simpl. f_equal. lia. }
  cbn [app] in HndD, HmaxD, HcellsD.
  set (D := mjoin ((fun ch => seqZ (firstRow ch) (lastRow ch - firstRow ch + 1)) <$> chunks))
    in *.
  assert (HD : D ≡ₚ rows).
  { apply NoDup_Permutation; [done|done|]. intros x. unfold D. split.
    - intros Hx. apply list_elem_of_join in Hx as (l & Hx & Hl).
      apply list_elem_of_fmap in Hl as (ch & -> & Hch).
      apply elem_of_seqZ in Hx. rewrite Forall_forall in Hruns.
      destruct (Hruns ch Hch) as (_ & Hin & _). apply Hin; lia.
    - intros Hx. destruct (Hcover x Hx) as (ch & Hch & Ha & Hb).
      apply list_elem_of_join. exists (seqZ (firstRow ch) (lastRow ch - firstRow ch + 1)).
      split; [apply elem_of_seqZ; lia|]. apply list_elem_of_fmap. by exists ch. }
  assert (Hrun : deleteDataItems dbItems st
    = (Ok tt, with_values (with_sheet st
         (foldl (fun sh ch => deleteRows sh (Z.to_nat (firstRow ch))
                                (Z.to_nat (lastRow ch - firstRow ch + 1))) sh chunks)) None)).
  { unfold deleteDataItems. rewrite bind_M. unfold lift at 1.
    destruct (_checkDBItems dbItems) as [kind|e]; [|done].
    destruct (js_sort cmp_row_gt (db_items_list dbItems)) as [|x sl] eqn:Hsl.
    { rewrite rows_of_nil in Hs. congruence. }
    rewrite bind_M. unfold _deleteDataItemsByChunks.
    destruct (rows_while_reverse _ _ Hs) as [-> Hlen]. rewrite bind_M.
    destruct (issue_deletes_fold chunks st) as (us & Hrun). fold chunks.
    rewrite Hrun, Hlen, Nat.ltb_irrefl. reflexivity. }
  unfold sh1. rewrite Hrun. cbn [fst snd the_sheet _values with_values with_sheet].
  split; [done|]. split; [done|]. split.
  - rewrite HmaxD. by rewrite HD.
  - intros r Hr. assert (Hb : rows_below rows r = rows_below D r).
    { unfold rows_below. by rewrite HD. }
    rewrite Hb. apply HcellsD. by rewrite HD.
Qed.

Lemma deleteDataItems_survivors_witness :
  let st := sample_store [[VStr "A"]; [VStr "B"]; [VStr "C"]; [VStr "D"]; [VStr "E"]] in
  let dbItems := from_table ((fun r => record [("row", VNum r)]) <$> [5; 2; 3]%Z) in
  let sh1 := the_sheet (deleteDataItems dbItems st).2 in
  (deleteDataItems dbItems st).1 = Ok tt /\
  _values (deleteDataItems dbItems st).2 = None /\
  maxRows sh1 = maxRows (the_sheet st) - 3 /\
  forall r, Z.of_nat r ∉ [5; 2; 3]%Z ->
    cells sh1 (r - rows_below [5; 2; 3]%Z r) = cells (the_sheet st) r.
Proof.
  intros st dbItems sh1.
  apply (deleteDataItems_survivors st dbItems [5; 2; 3]%Z).
  - reflexivity.
  - reflexivity.
  - discriminate.
  - apply (bool_decide_unpack _). vm_compute. exact I.
  - repeat constructor; cbn; lia.
Defined.

(** On that sheet rows 4 and 6 move up to rows 2 and 3. *)
Example deleteDataItems_moves_rows_up :
  let st := sample_store [[VStr "A"]; [VStr "B"]; [VStr "C"]; [VStr "D"]; [VStr "E"]] in
  let sh1 := the_sheet (deleteDataItems
               (from_table ((fun r => record [("row", VNum r)]) <$> [5; 2; 3]%Z)) st).2 in
  (cells sh1 1, cells sh1 2, cells sh1 3)
  = ([VStr "sku"; VStr "qty"], [VStr "C"], [VStr "E"]).
Proof. vm_compute. reflexivity. Qed.

(** ** Writing records back to their rows *)

(** X13. [_updateDataItemsByChunks], given a non-empty array of records
    with pairwise distinct rows of the sheet in any order, writes every
    record over the schema's columns of its own row and leaves the cells
    to the right of them, every other row and the length of the sheet as
    they were. The field names are assumed to be none of those every
    object inherits. *)
Theorem updateDataItemsByChunks_rows (st : store) (km : keymap) (items : list item)
    (nrows : list nat) :
  (keys st).1 = Ok km ->
  km <> [] ->
  plain_names km.*1 = true ->
  items <> [] ->
  NoDup nrows ->
  Forall (fun r => 1 <= r /\ r <= maxRows (the_sheet st)) nrows ->
  Forall2 (fun it r => item_row it = Some (Z.of_nat r)) items nrows ->
  let sh := the_sheet st in
  let res := _updateDataItemsByChunks items st in
  let sh1 := the_sheet res.2 in
  res.1 = Ok tt /\
  maxRows sh1 = maxRows sh /\
  (forall j r it, nrows !! j = Some r -> items !! j = Some it ->
     cells sh1 r = row_of_item km VNull it ++ drop (lastDataColumn_of km) (cells sh r)) /\
  (forall r, r ∉ nrows -> cells sh1 r = cells sh r).
Proof.
  intros Hk Hkm _ Hne Hnd _ Hrows sh res sh1.
  destruct (keys_fst_Ok st km Hk) as [st0 Hk0].
  destruct (keys_Ok _ _ _ Hk0) as (Hsh0 & _ & _ & _ & _ & Hres0).
  destruct (updateDataItemsByChunks_writes km items nrows st0 Hres0 Hkm Hne Hnd Hrows)
    as (sh' & Hrun & Hmax & Hw).
  assert (Hsame : res = _updateDataItemsByChunks items st0).
  { unfold res, _updateDataItemsByChunks. destruct items as [|x items]; [done|].
    cbv zeta. rewrite (bind_M keys _ st), (bind_M keys _ st0), Hk0.
    by rewrite (resolved_keys _ _ Hres0). }
  unfold sh1. rewrite Hsame, Hrun. cbn [fst snd the_sheet with_sheet].
  rewrite Hsh0 in Hmax, Hw. fold sh in Hmax, Hw.
  pose proof (Forall2_length _ _ _ Hrows) as Hlen.
  split; [done|]. split; [done|]. split.
  - intros j r it Hr Hit. pose proof (lookup_lt_Some _ _ _ Hr) as Hj.
    apply (proj1 (Hw r) j it); [lia|done|done|done].
  - intros r Hr. apply (proj2 (Hw r)). intros j _ _ Hj. apply Hr.
    by eapply list_elem_of_lookup_2.
Qed.

Lemma updateDataItemsByChunks_rows_witness :
  let st := sample_store [[VStr "A"; VNum 1]; [VStr "B"; VNum 2]; [VStr "C"; VNum 3]] in
  let km := [("sku", 0); ("qty", 1)] in
  let items := [record [("qty", VNum 9); ("row", VNum 4)];
                record [("qty", VNum 7); ("row", VNum 2)]] in
  let res := _updateDataItemsByChunks items st in
  let sh1 := the_sheet res.2 in
  res.1 = Ok tt /\
  maxRows sh1 = maxRows (the_sheet st) /\
  (forall j r it, [4; 2] !! j = Some r -> items !! j = Some it ->
     cells sh1 r = row_of_item km VNull it
                   ++ drop (lastDataColumn_of km) (cells (the_sheet st) r)) /\
  (forall r, r ∉ [4; 2] -> cells sh1 r = cells (the_sheet st) r).
Proof.
  intros st km items res sh1.
  apply (updateDataItemsByChunks_rows st km items [4; 2]).
  - vm_compute. reflexivity.
  - done.
  - vm_compute. reflexivity.
  - done.
  - apply (bool_decide_unpack _). vm_compute. exact I.
  - repeat constructor; cbn; lia.
  - repeat constructor.
Defined.

(** ** Reading with fields left out *)

Lemma getDataItems_denote (st : store) (km : keymap) (opts : read_options) :
  (keys st).1 = Ok km ->
  addressable (lastDataColumn_of km) = true ->
  cache_coherent st km = true ->
  itemCB opts = None ->
  let sh := the_sheet st in
  let W := lastDataColumn_of km in
  (getDataItems opts st).1
  = Ok (omap (fun r =>
                let c := row_record km r (region_row sh W r) in
                if row_is_empty (region_row sh W r) then None
                else if match filterCB opts with Some g => negb (g c) | None => false end
                     then None
                     else Some (output_item km (ignoreKeys opts) c))
             (seq (dataRowFirst st) (S (maxRows sh) - dataRowFirst st))).
Proof.
  intros Hk Ha Hc Hcb sh W.
  destruct (keys_fst_Ok st km Hk) as [st0 Hk0].
  destruct (keys_Ok _ _ _ Hk0) as (Hsh0 & _ & Hd0 & _ & _ & Hres0).
  destruct (values_Ok_of_sheet st0 km Hres0 Ha (cache_coherent_keys _ _ _ Hk0 Hc))
    as (st1 & Hv & _ & _ & Hd1 & _).
  unfold getDataItems, getDataItemsArray.
  rewrite bind_M, Hk0, bind_M, Hv, bind_M. cbn [get_store]. cbn [mret M_ret fst].
  rewrite Hd1, Hsh0, Hd0. fold sh W. rewrite region_entries, omap_fmap_list, Hcb.
  reflexivity.
Qed.

Lemma NoDup_filter_names (km : keymap) (P : string * nat -> Prop)
    `{forall kv, Decision (P kv)} :
  NoDup km.*1 -> NoDup (filter P km).*1.
Proof.
  induction km as [|[k off] km IH]; [done|].
  rewrite fmap_cons. intros Hnd. apply NoDup_cons in Hnd as [Hni Hnd].
  destruct (decide (P (k, off))).
  - rewrite filter_cons_True by done. rewrite fmap_cons. apply NoDup_cons.
    split; [|by apply IH]. intros Hin. apply Hni.
    apply list_elem_of_fmap in Hin as (kv & Hk & Hin).
    apply list_elem_of_filter in Hin as [_ Hin].
    apply list_elem_of_fmap. by exists kv.
  - rewrite filter_cons_False by done. by apply IH.
Qed.

Lemma output_item_fields km ig r cs k :
  NoDup km.*1 -> "row" ∉ km.*1 ->
  let c := row_record km r cs in
  output_item km (Some ig) c !! k
  = if decide (k = "row") then c !! "row"
    else if bool_decide (k ∈ ig) then None else c !! k.
Proof.
  intros Hnd Hrow c. unfold output_item.
  destruct (decide (k = "row")) as [->|Hne].
  - rewrite lookup_insert_eq. unfold prop, c. by rewrite row_record_row.
  - rewrite lookup_insert_ne by done.
    destruct (decide (k ∈ (_filterKeysFrom km ig).*1)) as [Hin|Hout].
    + pose proof Hin as Hin'. apply filterKeysFrom_names in Hin' as [Hk Hig].
      rewrite bool_decide_eq_false_2 by done.
      apply list_elem_of_fmap in Hin as ([k' off] & -> & Hin). cbn [fst].
      rewrite (foldl_insert_NoDup (fun kv => prop c kv.1) _ _ k' off); [|  |done].
      * cbn [fst]. unfold prop.
        destruct (field_offset km k' Hk) as [off' Hoff'].
        unfold c. rewrite (row_record_field km r cs k' off') by done. done.
      * unfold _filterKeysFrom. by apply NoDup_filter_names.
    + rewrite foldl_insert_other by done.
      unfold new_DBItem. rewrite lookup_singleton_ne by done.
      destruct (bool_decide (k ∈ ig)) eqn:Hig; [done|].
      apply bool_decide_eq_false in Hig. symmetry. apply row_record_other; [done|].
      intros Hk. apply Hout. by apply filterKeysFrom_names.
Qed.



(** ** The rows a merge leaves alone *)

Section MergeRows.
Context (km : keymap) (u : use_keys) (hf : item -> value).
Context (Hkm : km <> []) (Hrow : "row" ∉ km.*1).
Context (d : nat) (S0 : sheet).
Context (o : list (string * item)) (Ho_nd : NoDup o.*1).

Local Abbreviation W' := (lastDataColumn_of km).
Local Abbreviation ck' := (_filterKeysFrom km (use_keys_flat u ++ [])).
Local Abbreviation cur0 :=
  (getDataItemsObject_from km d (getSheetValues S0 d 1 (S (maxRows S0) - d) W')
     no_read_options hf).
Local Abbreviation ms' := (merge_plan ck' no_merge_options cur0 o).

(** A record of the update set stays on the row it was read from, a row
    of the data region that matches the hash of an incoming record. *)
Lemma update_set_row_any h c' :
  obj_get h (itemsToUpdate ms') = Some c' ->
  exists r, item_row c' = Some (Z.of_nat r) /\ d <= r /\
            row_matches km hf S0 h r = true /\ obj_has h o = true.
Proof.
  destruct (merge_plan_spec ck' no_merge_options cur0 o Ho_nd) as (HU & _).
  rewrite HU. unfold obj_has. destruct (obj_get h o) as [n|] eqn:Hn; [|done].
  destruct (obj_get h cur0) as [c|] eqn:Hc; [|done].
  cbn [default isUpdateCB updateCB no_merge_options].
  destruct (default_isUpdateCB ck' c n); [|done]. intros [= <-].
  destruct (current0_entry km hf d S0 h c Hc) as (r & Hf & -> & _ & _).
  apply find_row_Some in Hf as (Hr1 & _ & Hm & _).
  exists r. split; [|done]. unfold item_row. rewrite default_updateCB_lookup.
  rewrite bool_decide_eq_false_2.
  - cbn [andb]. by rewrite row_record_row.
  - intros Hin. apply filterKeysFrom_names in Hin as [Hin _]. done.
Qed.

Lemma update_phase_rows st :
  resolved st km -> the_sheet st = S0 ->
  exists S1,
    (if 0 <? updated ms'
     then _updateDataItemsByChunks (js_sort cmp_row_minus (obj_values (itemsToUpdate ms')))
     else mret tt) st = (Ok tt, with_sheet st S1) /\
    maxRows S1 = maxRows S0 /\
    (forall r, r < d -> cells S1 r = cells S0 r) /\
    (forall r, (forall h, obj_has h o = true -> row_matches km hf S0 h r = false) ->
       cells S1 r = cells S0 r).
Proof.
  intros Hres Hsh.
  destruct (merge_plan_spec ck' no_merge_options cur0 o Ho_nd)
    as (_ & _ & Hcnt & _ & _ & Hund & _).
  assert (Hno : forall S1,
    (forall r, (forall h c', obj_get h (itemsToUpdate ms') = Some c' ->
                  item_row c' <> Some (Z.of_nat r)) -> cells S1 r = cells S0 r) ->
    (forall r, r < d -> cells S1 r = cells S0 r) /\
    (forall r, (forall h, obj_has h o = true -> row_matches km hf S0 h r = false) ->
       cells S1 r = cells S0 r)).
  { intros S1 Hother. split.
    - intros r Hr. apply Hother. intros h c' Hu Hrc.
      destruct (update_set_row_any h c' Hu) as (r' & Hr' & Hd' & _).
      rewrite Hr' in Hrc. injection Hrc as Hrc. lia.
    - intros r Hun. apply Hother. intros h c' Hu Hrc.
      destruct (update_set_row_any h c' Hu) as (r' & Hr' & _ & Hm & Hin).
      rewrite Hr' in Hrc. injection Hrc as Hrc. apply Nat2Z.inj in Hrc. subst r'.
      rewrite (Hun h Hin) in Hm. done. }
  destruct (0 <? updated ms') eqn:Hpos.
  - apply Nat.ltb_lt in Hpos.
    set (items := js_sort cmp_row_minus (obj_values (itemsToUpdate ms'))).
    assert (Hperm : items ≡ₚ (itemsToUpdate ms').*2) by apply js_sort_perm.
    assert (Hall : forall it, it ∈ items -> exists h, obj_get h (itemsToUpdate ms') = Some it).
    { intros it Hit. rewrite Hperm in Hit.
      apply list_elem_of_fmap in Hit as ([h it'] & -> & Hin).
      exists h. by apply obj_get_elem_NoDup. }
    assert (Hrowof : forall (it : item) r, item_row it = Some (Z.of_nat r) -> row_nat it = r).
    { intros it r Hr. unfold row_nat. rewrite Hr. apply Nat2Z.id. }
    destruct (updateDataItemsByChunks_writes km items (row_nat <$> items) st Hres Hkm)
      as (S1 & Hrun & Hmax & Hw).
    + intros Hnil. apply (f_equal length) in Hnil. rewrite Hperm, length_fmap in Hnil.
      simpl in Hnil. lia.
    + rewrite Hperm, <- list_fmap_compose.
      apply NoDup_fmap_2_strong; [|by eapply NoDup_fmap_1].
      intros [h1 c1] [h2 c2] H1 H2 Heq. simpl in Heq.
      apply (obj_get_elem_NoDup _ _ _ Hund) in H1, H2.
      destruct (update_set_row_any h1 c1 H1) as (r1 & Hr1 & _ & Hm1 & _).
      destruct (update_set_row_any h2 c2 H2) as (r2 & Hr2 & _ & Hm2 & _).
      rewrite (Hrowof _ _ Hr1), (Hrowof _ _ Hr2) in Heq. subst r2.
      pose proof (row_matches_hash _ _ _ _ _ _ Hm1 Hm2). subst h2. congruence.
    + apply Forall2_fmap_r, Forall_Forall2_diag, Forall_forall. intros it Hit.
      destruct (Hall it Hit) as [h Hu].
      destruct (update_set_row_any h it Hu) as (r & Hr & _).
      simpl. by rewrite (Hrowof _ _ Hr).
    + exists S1. rewrite Hsh in Hmax, Hw. split; [done|]. split; [done|].
      apply Hno. intros r Hnone. apply (proj2 (Hw r)). intros j _ _ Hj.
      rewrite list_lookup_fmap in Hj. apply fmap_Some in Hj as (it & Hit & Hrn).
      apply list_elem_of_lookup_2 in Hit. destruct (Hall it Hit) as [h Hu].
      destruct (update_set_row_any h it Hu) as (r' & Hr' & _).
      apply (Hnone h it Hu). rewrite Hr'. by rewrite Hrn, (Hrowof _ _ Hr').
  - exists S0. split; [by rewrite <- Hsh, with_sheet_same|]. split; [done|].
    by apply Hno.
Qed.
End MergeRows.



(** ** The two ways to insert *)

Lemma row_of_item_norm km (it : item) :
  Forall2 (fun a b => cell_norm a = cell_norm b)
    (row_of_item km blank it) (row_of_item km VNull it).
Proof.
  unfold row_of_item.
  assert (H0 : Forall2 (fun a b => cell_norm a = cell_norm b)
                 (replicate (lastDataColumn_of km) blank)
                 (replicate (lastDataColumn_of km) VNull)).
  { by apply Forall2_replicate. }
  revert H0. generalize (replicate (lastDataColumn_of km) blank).
  generalize (replicate (lastDataColumn_of km) VNull).
  generalize (lastDataColumn_of km). intros _.
  induction km as [|[k off] km IH]; intros rb ra H0; [done|].
  cbn [foldl fst snd]. apply IH. destruct (has_prop it k); [|done].
  by apply Forall2_insert.
Qed.

Lemma read_cell_setValues_norm sh row (va vb : list (list value)) r c :
  Forall2 (Forall2 (fun a b => cell_norm a = cell_norm b)) va vb ->
  read_cell (setValues sh row 1 va) r c = read_cell (setValues sh row 1 vb) r c.
Proof.
  intros H. destruct c as [|j]; [done|]. unfold read_cell. rewrite !cells_setValues.
  rewrite (Forall2_length _ _ _ H).
  destruct ((row <=? r) && (r <? row + length vb)); [|done].
  destruct (va !! (r - row)) as [ra|] eqn:Ha.
  - destruct (Forall2_lookup_l _ _ _ _ _ H Ha) as (rb & Hb & Hrow). rewrite Hb.
    cbn [default]. unfold id. pose proof (Forall2_length _ _ _ Hrow) as Hlen.
    destruct (decide (j < length ra)) as [Hj|Hj].
    + rewrite !lookup_app_l by lia.
      destruct (lookup_lt_is_Some_2 ra j Hj) as [a Haj].
      destruct (Forall2_lookup_l _ _ _ _ _ Hrow Haj) as (b & Hbj & Hab).
      by rewrite Haj, Hbj.
    + rewrite !lookup_app_r by lia. by rewrite Hlen.
  - assert (vb !! (r - row) = None) as ->.
    { apply lookup_ge_None. apply lookup_ge_None in Ha.
      by rewrite <- (Forall2_length _ _ _ H). }
    done.
Qed.

(** X16. [insert] differs from [insertDataItems] only in the value it
    writes where a record has no field, the empty string instead of null,
    and the sheet reads both as the empty string: called without a default
    value, the two return alike and leave sheets of the same length whose
    cells all read the same. *)
Theorem insert_reads_like_insertDataItems (st : store) (dataItems : data_items)
    (growUp : bool) :
  let a := insert dataItems VUndef growUp st in
  let b := insertDataItems_with dataItems VUndef growUp st in
  a.1 = b.1 /\
  _values a.2 = _values b.2 /\
  maxRows (the_sheet a.2) = maxRows (the_sheet b.2) /\
  forall r c, read_cell (the_sheet a.2) r c = read_cell (the_sheet b.2) r c.
Proof.
  intros a b.
  assert (Hgen : forall dv : value,
    insertDataItems_with dataItems dv growUp st
    = match keys st with
      | (Ok km, st0) =>
          let vals := row_of_item km (default_param dv VNull) <$> items_list dataItems in
          match vals with
          | [] => (Ok tt, st0)
          | [] :: _ =>
              (Ok tt, with_values
                 (with_sheet st0
                    (if growUp
                     then insertRowsBefore (the_sheet st0) (dataRowFirst st0) (length vals)
                     else insertRowsAfter (the_sheet st0)
                            (if getLastRow (the_sheet st0) <? dataRowFirst st0
                             then dataRowFirst st0 else getLastRow (the_sheet st0))
                            (length vals))) None)
          | _ =>
              (Ok tt, with_values
                 (with_sheet st0
                    (if growUp
                     then setValues
                            (insertRowsBefore (the_sheet st0) (dataRowFirst st0) (length vals))
                            (dataRowFirst st0) 1 vals
                     else setValues
                            (insertRowsAfter (the_sheet st0)
                               (if getLastRow (the_sheet st0) <? dataRowFirst st0
                                then dataRowFirst st0 else getLastRow (the_sheet st0))
                               (length vals))
                            (if getLastRow (the_sheet st0) <? dataRowFirst st0
                             then dataRowFirst st0 else getLastRow (the_sheet st0) + 1)
                            1 vals)) None)
          end
      | (Err e, st0) => (Err e, st0)
      end).
  { intros dv. unfold insertDataItems_with. rewrite bind_M.
    destruct (keys st) as [[km|e] st0]; [|done]. unfold _parseDataToArray. cbv zeta.
    destruct (row_of_item km (default_param dv VNull) <$> items_list dataItems)
      as [|[|v vs] rest]; [done| |]; by destruct growUp. }
  unfold a, b, insert. rewrite !Hgen.
  change (default_param (default_param VUndef blank) VNull) with blank.
  change (default_param VUndef VNull) with VNull.
  destruct (keys st) as [[km|e] st0]; [|done]. cbv zeta.
  destruct (items_list dataItems) as [|x l] eqn:Hl; [done|].
  set (va := row_of_item km blank <$> x :: l).
  set (vb := row_of_item km VNull <$> x :: l).
  assert (Hab : Forall2 (Forall2 (fun a b => cell_norm a = cell_norm b)) va vb).
  { unfold va, vb. apply Forall2_fmap, Forall_Forall2_diag, Forall_forall.
    intros it _. apply row_of_item_norm. }
  assert (Hlen : length va = length vb) by (by apply Forall2_length in Hab).
  destruct va as [|ra va'] eqn:Hva; [done|]. destruct vb as [|rb vb'] eqn:Hvb; [done|].
  pose proof (Forall2_cons_1 _ _ _ _ _ Hab) as [Hrow _].
  pose proof (Forall2_length _ _ _ Hrow) as Hrlen.
  rewrite Hlen.
  destruct ra as [|v1 r1]; destruct rb as [|v2 r2]; try done.
  cbn [fst snd _values the_sheet with_values with_sheet].
  split; [done|]. split; [done|].
  destruct growUp; (split; [done|]); intros r c; by apply read_cell_setValues_norm.
Qed.

(** ** A control key given as a string *)

Lemma chars_of_one s c : c ∈ chars_of s -> exists a, c = String a EmptyString.
Proof.
  induction s as [|a s IH]; simpl; intros H; [by apply elem_of_nil in H|].
  apply elem_of_cons in H as [->|H]; [by exists a | by apply IH].
Qed.

Lemma record_at_other sh km row key :
  key <> "row" -> key ∉ km.*1 -> record_at sh km row !! key = None.
Proof.
  intros Hne Hno. unfold record_at, _parseRowValuesToItem.
  rewrite lookup_insert_ne by done.
  rewrite (foldl_insert_other
             (fun kv => let v := default VUndef (_ !! kv.2) in
                        if strict_eq v blank then VNull else v)) by done.
  unfold new_DBItem. by rewrite lookup_singleton_ne.
Qed.



(** The row holds A and the caller's record says Z: with the control key
    in an array the update is refused, with the control key as a string it
    is carried out. *)
Example updateDataItemByRow_array_and_string_control :
  let st := sample_store [[VStr "A"; VNum 5]] in
  let dataItem := record [("sku", VStr "Z"); ("qty", VNum 9)] in
  (updateDataItemByRow 2 dataItem (Some (UseKeyArray ["sku"])) None st).1 = Ok false /\
  (updateDataItemByRow 2 dataItem (Some (UseKey "sku")) None st).1 = Ok true /\
  cells (the_sheet (updateDataItemByRow 2 dataItem (Some (UseKey "sku")) None st).2) 2
  = [VStr "A"; VNum 9].
Proof. split_and!; vm_compute; reflexivity. Qed.

(** ** One write for each run of rows *)

Lemma write_chunks_calls km (items : list item) (chunks : list chunk) :
  km <> [] ->
  Forall (fun ch => chunk_items items ch <> []) chunks ->
  forall st, exists st',
    write_chunks km items chunks st = (Ok tt, st') /\
    calls (the_sheet st') = calls (the_sheet st) ++ (write_call km items <$> chunks).
Proof.
  intros Hkm. induction 1 as [|ch chunks Hch _ IH]; intros st.
  - exists st. split; [done|]. by rewrite app_nil_r.
  - cbn [write_chunks]. rewrite bind_M. unfold _parseDataToArray. cbn [items_list].
    fold (chunk_items items ch).
    rewrite (setValues_rows km (chunk_items items ch)) by done.
    destruct (IH (with_sheet st (setValues (the_sheet st) (Z.to_nat (firstRow ch)) 1
                                   (row_of_item km VNull <$> chunk_items items ch))))
      as (st' & Hrun & Hcalls).
    exists st'. split; [done|]. rewrite Hcalls. cbn [the_sheet with_sheet setValues calls].
    rewrite fmap_cons, <- app_assoc. reflexivity.
Qed.

Lemma StronglySorted_reverse_flip {A} (R : A -> A -> Prop) (l : list A) :
  StronglySorted R l -> StronglySorted (fun a b => R b a) (reverse l).
Proof.
  induction 1 as [|x l Hl IH Hall]; [apply SSorted_nil|].
  rewrite reverse_cons. apply StronglySorted_app_2; [|done|].
  - intros a b Ha Hb. apply list_elem_of_singleton in Hb as ->.
    rewrite elem_of_reverse in Ha. rewrite Forall_forall in Hall. by apply Hall.
  - apply SSorted_cons; [apply SSorted_nil | apply Forall_nil_2].
Qed.

(** On rows sorted upwards the update loop builds exactly the maximal
    runs, lowest first. *)
Lemma group_asc_props (L : list Z) rows : forall i cur,
  StronglySorted Z.lt (lastRow cur :: rows) ->
  (firstRow cur <= lastRow cur)%Z ->
  (forall x, (firstRow cur <= x)%Z -> (x <= lastRow cur)%Z -> x ∈ L) ->
  (firstRow cur - 1)%Z ∉ L ->
  (forall x, x ∈ L -> (lastRow cur < x)%Z -> x ∈ rows) ->
  (forall x, x ∈ rows -> x ∈ L) ->
  Forall (fun ch => maximal_run L (firstRow ch) (lastRow ch)) (group_asc i cur rows) /\
  ascending_chunks (group_asc i cur rows) /\
  Forall (fun ch => (firstRow cur <= firstRow ch)%Z) (group_asc i cur rows) /\
  (forall x, x ∈ L -> (firstRow cur <= x)%Z ->
     exists ch, ch ∈ group_asc i cur rows /\ (firstRow ch <= x)%Z /\ (x <= lastRow ch)%Z).
Proof.
  induction rows as [|row rest IH]; intros i cur Hsorted Hle Hrange Hfirst Habove Hsub.
  - simpl. split; [|split; [|split]].
    + apply Forall_singleton. repeat split; try done.
      intros Hin. apply Habove in Hin; [|lia]. by apply elem_of_nil in Hin.
    + apply SSorted_cons; [apply SSorted_nil | apply Forall_nil_2].
    + apply Forall_singleton. lia.
    + intros x Hx Hxle. exists cur. split; [apply list_elem_of_here|].
      destruct (decide (lastRow cur < x)%Z) as [Hlt|Hge]; [|lia].
      apply Habove in Hx; [|done]. by apply elem_of_nil in Hx.
  - apply StronglySorted_inv in Hsorted as [Hsorted Hall].
    apply Forall_cons in Hall as [Hrow Hall].
    assert (Hrest : forall x, x ∈ rest -> (row < x)%Z).
    { intros x Hx. apply StronglySorted_inv in Hsorted as [_ Hr].
      rewrite Forall_forall in Hr. by apply Hr. }
    assert (HrowL : row ∈ L) by (apply Hsub, list_elem_of_here).
    simpl. destruct (row - lastRow cur =? 1)%Z eqn:Hgap; simpl.
    + apply Z.eqb_eq in Hgap.
      destruct (IH (S i) (mkChunk (firstRow cur) row (indexes cur ++ [i])))
        as (Hmax & Hasc & Hfirsts & Hcover); simpl; try done.
      * lia.
      * intros x Hx1 Hx2. destruct (decide (x = row)) as [->|Hne]; [done|].
        apply Hrange; lia.
      * intros x Hx Hlt. assert (Hin : x ∈ row :: rest) by (apply Habove; [done | lia]).
        apply elem_of_cons in Hin as [->|Hin]; [lia | done].
      * intros x Hx. by apply Hsub, list_elem_of_further.
    + apply Z.eqb_neq in Hgap.
      destruct (IH (S i) (mkChunk row row [i])) as (Hmax & Hasc & Hfirsts & Hcover);
        simpl; try done.
      * intros x Hx1 Hx2. by replace x with row by lia.
      * intros Hin. assert (Hin' : (row - 1)%Z ∈ row :: rest) by (apply Habove; [done | lia]).
        apply elem_of_cons in Hin' as [Heq|Hin']; [lia|]. apply Hrest in Hin'. lia.
      * intros x Hx Hlt. assert (Hin : x ∈ row :: rest) by (apply Habove; [done | lia]).
        apply elem_of_cons in Hin as [->|Hin]; [lia | done].
      * intros x Hx. by apply Hsub, list_elem_of_further.
      * simpl in Hfirsts, Hcover. split; [|split; [|split]].
        -- apply Forall_cons. split; [|done]. repeat split; try done.
           intros Hin. assert (Hin' : (lastRow cur + 1)%Z ∈ row :: rest)
             by (apply Habove; [done | lia]).
           apply elem_of_cons in Hin' as [Heq|Hin']; [lia|]. apply Hrest in Hin'. lia.
        -- apply SSorted_cons; [done|].
           eapply Forall_impl; [exact Hfirsts|]. simpl. lia.
        -- apply Forall_cons. split; [lia|].
           eapply Forall_impl; [exact Hfirsts|]. simpl. lia.
        -- intros x Hx Hxle.
           destruct (decide (lastRow cur < x)%Z) as [Hlt|Hge].
           ++ assert (Hin : x ∈ row :: rest) by (by apply Habove).
              destruct (Hcover x Hx) as (ch & Hch & Hb).
              { apply elem_of_cons in Hin as [->|Hin]; [lia|]. apply Hrest in Hin. lia. }
              exists ch. split; [by apply list_elem_of_further | done].
           ++ exists cur. split; [apply list_elem_of_here | lia].
Qed.

Section UpdateRuns.
Context (items : list item) (nrows : list nat).
Context (Hrows : Forall2 (fun it r => item_row it = Some (Z.of_nat r)) items nrows).

Lemma chunk_holds_run (ch : chunk) i0 k f :
  indexes ch = seq i0 k -> 1 <= k -> i0 + k <= length nrows ->
  firstRow ch = Z.of_nat f -> lastRow ch = Z.of_nat (f + k - 1) ->
  (forall t, t < k -> nrows !! (i0 + t) = Some (f + t)) ->
  chunk_items items ch <> [] /\ holds_run items ch.
Proof.
  intros Hidx Hk Hle Hfirst Hlast Hrun.
  pose proof (Forall2_length _ _ _ Hrows) as Hlen.
  assert (Hci : chunk_items items ch = take k (drop i0 items)).
  { unfold chunk_items. rewrite Hidx. apply omap_lookup_seq. lia. }
  assert (Hcl : length (chunk_items items ch) = k).
  { rewrite Hci, length_take, length_drop. lia. }
  split.
  - intros Hnil. rewrite Hnil in Hcl. simpl in Hcl. lia.
  - unfold holds_run. rewrite Hfirst, Hlast.
    replace (Z.to_nat (Z.of_nat (f + k - 1) - Z.of_nat f + 1)) with k by lia.
    apply Forall2_same_length_lookup_2; [by rewrite length_seq|].
    intros t it y Hit Hy. apply lookup_seq in Hy as [-> Ht]. simpl.
    rewrite Hci, lookup_take_lt, lookup_drop in Hit by done.
    destruct (Forall2_lookup_l _ _ _ _ _ Hrows Hit) as (r & Hr & Hir).
    rewrite Hrun in Hr by done. injection Hr as <-. rewrite Hir. f_equal. lia.
Qed.

Lemma group_asc_holds_runs rest : forall cur i i0 k f,
  rest = drop i (Z.of_nat <$> nrows) ->
  indexes cur = seq i0 k -> 1 <= k -> i0 + k = i -> i <= length nrows ->
  firstRow cur = Z.of_nat f -> lastRow cur = Z.of_nat (f + k - 1) ->
  (forall t, t < k -> nrows !! (i0 + t) = Some (f + t)) ->
  Forall (fun ch => chunk_items items ch <> [] /\ holds_run items ch)
         (group_asc i cur rest).
Proof.
  induction rest as [|row rest IH]; intros cur i i0 k f Hrest Hidx Hk Hi Hile Hfirst Hlast Hrun.
  - cbn [group_asc]. apply Forall_singleton.
    apply (chunk_holds_run cur i0 k f); try done. lia.
  - assert (Hrow : exists r', nrows !! i = Some r' /\ row = Z.of_nat r' /\
                              rest = drop (S i) (Z.of_nat <$> nrows)).
    { assert (Hl : (Z.of_nat <$> nrows) !! i = Some row).
      { rewrite <- (Nat.add_0_r i), <- lookup_drop, <- Hrest. done. }
      rewrite list_lookup_fmap in Hl. destruct (nrows !! i) as [r'|] eqn:Hr'; [|done].
      exists r'. split; [done|]. split; [by injection Hl|].
      replace (S i) with (i + 1) by lia. by rewrite <- drop_drop, <- Hrest. }
    destruct Hrow as (r' & Hr' & -> & Hrest').
    assert (Hlt : i < length nrows) by (by eapply lookup_lt_Some).
    cbn [group_asc]. rewrite Hlast.
    destruct (negb (Z.of_nat r' - Z.of_nat (f + k - 1) =? 1)%Z) eqn:Hgap.
    + apply Forall_cons. split.
      * apply (chunk_holds_run cur i0 k f); try done. lia.
      * apply (IH (mkChunk (Z.of_nat r') (Z.of_nat r') [i]) (S i) i 1 r');
          simpl; try done; try lia.
        intros t Ht. replace t with 0 by lia. by rewrite !Nat.add_0_r.
    + apply negb_false_iff, Z.eqb_eq in Hgap.
      assert (r' = f + k) by lia. subst r'.
      apply (IH (mkChunk (firstRow cur) (Z.of_nat (f + k)) (indexes cur ++ [i]))
                (S i) i0 (S k) f); cbn [indexes firstRow lastRow]; try done; try lia.
      * rewrite Hidx, seq_S. by rewrite Hi.
      * intros t Ht. destruct (decide (t = k)) as [->|Hne]; [by rewrite Hi|].
        apply Hrun. lia.
Qed.
End UpdateRuns.

(** X18. [_updateDataItemsByChunks], given records in ascending order of
    their rows, issues one write for each maximal run of consecutive rows
    and none besides, lowest run first: the write starts at the first row
    of the run and carries the records of the run, one for each row, in
    order. The field names are assumed to be none of those every object
    inherits. *)
Theorem updateDataItemsByChunks_one_write_per_run (st : store) (km : keymap)
    (items : list item) (nrows : list nat) :
  (keys st).1 = Ok km ->
  km <> [] ->
  plain_names km.*1 = true ->
  items <> [] ->
  StronglySorted lt nrows ->
  Forall (fun r => 1 <= r /\ r <= maxRows (the_sheet st)) nrows ->
  Forall2 (fun it r => item_row it = Some (Z.of_nat r)) items nrows ->
  let rows := Z.of_nat <$> nrows in
  let res := _updateDataItemsByChunks items st in
  exists chunks,
    res.1 = Ok tt /\
    calls (the_sheet res.2) = calls (the_sheet st) ++ (write_call km items <$> chunks) /\
    length chunks = run_count rows /\
    Forall (fun ch => maximal_run rows (firstRow ch) (lastRow ch)) chunks /\
    ascending_chunks chunks /\
    Forall (holds_run items) chunks.
Proof.
  intros Hk Hkm _ Hne Hsorted _ Hrows rows res.
  destruct (keys_fst_Ok st km Hk) as [st0 Hk0].
  destruct (keys_Ok _ _ _ Hk0) as (Hsh0 & _).
  pose proof (Forall2_length _ _ _ Hrows) as Hlen.
  destruct items as [|x items]; [done|].
  destruct nrows as [|r0 nrows]; [done|].
  set (cur := mkChunk (Z.of_nat r0) (Z.of_nat r0) [0]).
  set (chunks := group_asc 1 cur (Z.of_nat <$> nrows)).
  assert (Hsz : StronglySorted Z.lt (Z.of_nat r0 :: (Z.of_nat <$> nrows))).
  { change (StronglySorted Z.lt (Z.of_nat <$> r0 :: nrows)).
    clear -Hsorted. induction Hsorted as [|a l _ IH Hall]; [apply SSorted_nil|].
    rewrite fmap_cons. apply SSorted_cons; [done|].
    apply Forall_fmap. eapply Forall_impl; [exact Hall|]. simpl. lia. }
  assert (Hhigher : forall x, x ∈ Z.of_nat <$> nrows -> (Z.of_nat r0 < x)%Z).
  { intros y Hy. apply StronglySorted_inv in Hsz as [_ Hall].
    rewrite Forall_forall in Hall. by apply Hall. }
  destruct (group_asc_props rows (Z.of_nat <$> nrows) 1 cur)
    as (Hmax & Hasc & _ & Hcover); simpl; try done.
  { intros y Hy1 Hy2. replace y with (Z.of_nat r0) by lia. apply list_elem_of_here. }
  { intros Hin. apply elem_of_cons in Hin as [Heq|Hin]; [lia|].
    apply Hhigher in Hin. lia. }
  { intros y Hy Hlt. apply elem_of_cons in Hy as [->|Hy]; [lia | done]. }
  { intros y Hy. by apply list_elem_of_further. }
  pose proof (group_asc_holds_runs (x :: items) (r0 :: nrows) Hrows
                (Z.of_nat <$> nrows) cur 1 0 1 r0) as Hruns.
  simpl in Hruns. specialize (Hruns eq_refl eq_refl).
  assert (Hruns' : Forall (fun ch => chunk_items (x :: items) ch <> []
                                     /\ holds_run (x :: items) ch) chunks).
  { apply Hruns; try lia; try done.
    intros t Ht. replace t with 0 by lia. simpl. f_equal. lia. }
  destruct (write_chunks_calls km (x :: items) chunks Hkm) with (st := st0)
    as (st' & Hrun & Hcalls).
  { eapply Forall_impl; [exact Hruns'|]. by intros ch [? _]. }
  assert (Hres : res = (Ok tt, st')).
  { destruct (rows_while_of _ _ (rows_of_Forall2 _ _ Hrows)) as [Hwhile Hlen'].
    unfold res, _updateDataItemsByChunks. cbv zeta. rewrite Hwhile, Hlen', Nat.ltb_irrefl.
    rewrite bind_M, Hk0. rewrite fmap_cons. unfold update_chunks.
    pose proof (update_chunks_loop_spec (Z.of_nat <$> nrows) 1 [] cur) as Hspec.
    simpl in Hspec. unfold cur in Hspec. rewrite Hspec, bind_M.
    fold cur. fold chunks. by rewrite Hrun. }
  exists chunks. rewrite Hres. cbn [fst snd]. rewrite Hcalls, Hsh0.
  split; [done|]. split; [done|]. split; [|split; [done|split; [done|]]].
  - rewrite <- length_reverse. apply chunks_count.
    + by apply Forall_reverse.
    + apply (StronglySorted_reverse_flip _ _ Hasc).
    + intros y Hy. destruct (Hcover y Hy) as (ch & Hch & Hb).
      { simpl. apply elem_of_cons in Hy as [->|Hy]; [lia|]. apply Hhigher in Hy. lia. }
      exists ch. split; [by apply elem_of_reverse | done].
  - eapply Forall_impl; [exact Hruns'|]. by intros ch [_ ?].
Qed.

Lemma updateDataItemsByChunks_one_write_per_run_witness :
  let st := sample_store [[VStr "A"; VNum 1]; [VStr "B"; VNum 2]; [VStr "C"; VNum 3];
                          [VStr "D"; VNum 4]] in
  let km := [("sku", 0); ("qty", 1)] in
  let items := [record [("qty", VNum 7); ("row", VNum 2)];
                record [("qty", VNum 8); ("row", VNum 3)];
                record [("qty", VNum 9); ("row", VNum 5)]] in
  let rows := Z.of_nat <$> [2; 3; 5] in
  let res := _updateDataItemsByChunks items st in
  exists chunks,
    res.1 = Ok tt /\
    calls (the_sheet res.2) = calls (the_sheet st) ++ (write_call km items <$> chunks) /\
    length chunks = run_count rows /\
    Forall (fun ch => maximal_run rows (firstRow ch) (lastRow ch)) chunks /\
    ascending_chunks chunks /\
    Forall (holds_run items) chunks.
Proof.
  intros st km items rows res.
  apply (updateDataItemsByChunks_one_write_per_run st km items [2; 3; 5]).
  - vm_compute. reflexivity.
  - done.
  - vm_compute. reflexivity.
  - done.
  - repeat constructor; lia.
  - repeat constructor; cbn; lia.
  - repeat constructor.
Defined.

(** Rows 2, 3 and 5 are two runs: two writes, the first of two rows. *)
Example updateDataItemsByChunks_two_runs :
  let st := sample_store [[VStr "A"; VNum 1]; [VStr "B"; VNum 2]; [VStr "C"; VNum 3];
                          [VStr "D"; VNum 4]] in
  let items := [record [("qty", VNum 7); ("row", VNum 2)];
                record [("qty", VNum 8); ("row", VNum 3)];
                record [("qty", VNum 9); ("row", VNum 5)]] in
  calls (the_sheet (_updateDataItemsByChunks items st).2)
  = calls (the_sheet st)
    ++ [SetValues 2 1 [[VNull; VNum 7]; [VNull; VNum 8]]; SetValues 5 1 [[VNull; VNum 9]]].
Proof. vm_compute. reflexivity. Qed.

(** ** Identity in a merge *)

Lemma parse_items_keys hf cb l : forall acc o,
  parse_items hf cb l acc = Ok o ->
  Forall (fun kv : string * item => kv.1 = hash_key hf cb kv.2) acc ->
  Forall (fun kv : string * item => kv.1 = hash_key hf cb kv.2) o /\
  (forall h, obj_has h acc = true -> obj_has h o = true) /\
  (forall n, n ∈ l -> obj_has (hash_key hf cb n) o = true).
Proof.
  induction l as [|x l IH]; intros acc o; simpl.
  - intros [= <-] Hacc. split; [done|]. split; [done|].
    intros n Hn. by apply elem_of_nil in Hn.
  - fold (hash_key hf cb x).
    destruct (obj_has (hash_key hf cb x) acc) eqn:Hhas; [done|].
    intros Hp Hacc. destruct (IH _ _ Hp) as (Ho & Hmono & Hall).
    { apply Forall_forall. intros [h n] Hel. apply obj_set_elem in Hel as [[= -> ->]|Hel].
      - done.
      - rewrite Forall_forall in Hacc. by apply (Hacc (h, n)). }
    split; [done|]. split.
    + intros h Hh. apply Hmono. rewrite obj_has_set, Hh. apply orb_true_r.
    + intros n Hn. apply elem_of_cons in Hn as [->|Hn]; [|by apply Hall].
      apply Hmono. rewrite obj_has_set. by rewrite bool_decide_eq_true_2.
Qed.




(** ** Point update, cell by cell *)

Lemma record_at_read_field sh km row key :
  NoDup km.*1 -> "row" ∉ km.*1 ->
  prop (record_at sh km row) key = read_field sh km row key.
Proof.
  intros Hnd Hrow. unfold prop, read_field.
  destruct (decide (key = "row")) as [->|Hne].
  - unfold record_at, _parseRowValuesToItem. by rewrite lookup_insert_eq.
  - destruct (obj_get key km) as [off|] eqn:Hg.
    + apply obj_get_Some_elem in Hg.
      rewrite (record_at_field sh km row key off) by done.
      cbn [default]. by rewrite strict_eq_blank.
    + apply obj_get_None_names in Hg. by rewrite record_at_other.
Qed.

Lemma control_mismatch_cells sh km row dataItem controlKeys :
  NoDup km.*1 -> "row" ∉ km.*1 ->
  control_mismatch (Some (UseKeyArray controlKeys)) (record_at sh km row) dataItem
  = control_differs sh km row dataItem controlKeys.
Proof.
  intros Hnd Hrow. unfold control_mismatch, control_differs, for_of.
  induction controlKeys as [|k ks IH]; [done|].
  cbn [existsb]. by rewrite IH, record_at_read_field.
Qed.

(** C5, as the code has it. A point update of a row of the sheet with a
    list of control keys, on a store whose schema has some field, no field
    name or column twice, no field named [row], and no field or control
    key named like a member every object inherits. The row is read cell
    by cell. If some control field of the row is not strictly equal to the
    caller's, the call returns false and the sheet, its calls included, is
    as before. Otherwise the call returns true after exactly one write, of
    the columns 1 to the last column of the schema of that row; the cached
    values are dropped; no other row and no cell to the right changes;
    the cell of a schema field reads the caller's value if the caller's
    record carries the field and the field is neither a control key nor
    ignored, and reads as before if not; and a cell of the written
    columns that belongs to no field reads empty. *)
Theorem updateDataItemByRow_cells (st st1 : store) (km : keymap) (row : nat)
    (dataItem : item) (controlKeys : list string) (ignoreKeys : option use_keys) :
  keys st = (Ok km, st1) ->
  km <> [] ->
  NoDup km.*1 ->
  NoDup km.*2 ->
  "row" ∉ km.*1 ->
  plain_names (km.*1 ++ controlKeys) = true ->
  1 <= row ->
  row <= maxRows (the_sheet st) ->
  let sh := the_sheet st in
  let call := updateDataItemByRow row dataItem (Some (UseKeyArray controlKeys)) ignoreKeys st in
  let sh' := the_sheet call.2 in
  (control_differs sh km row dataItem controlKeys = true ->
     call.1 = Ok false /\ sh' = sh) /\
  (control_differs sh km row dataItem controlKeys = false ->
     call.1 = Ok true /\
     _values call.2 = None /\
     maxRows sh' = maxRows sh /\
     (exists block, length block = lastDataColumn_of km /\
                    calls sh' = calls sh ++ [SetValues row 1 [block]]) /\
     (forall r, r <> row -> cells sh' r = cells sh r) /\
     (forall c, lastDataColumn_of km < c -> read_cell sh' row c = read_cell sh row c) /\
     (forall key off, (key, off) ∈ km ->
        read_cell sh' row (S off) =
        if has_prop dataItem key && bool_decide (key ∉ controlKeys ++ flat_opt ignoreKeys)
        then cell_norm (prop dataItem key)
        else read_cell sh row (S off)) /\
     (forall j, j < lastDataColumn_of km -> j ∉ km.*2 -> read_cell sh' row (S j) = blank)).
Proof.
  intros Hk Hne Hnd Hoffs Hrow _ _ _ sh call sh'.
  destruct (updateDataItemByRow_written st st1 km row dataItem controlKeys ignoreKeys
              Hk Hne Hrow) as [Hmis Hok].
  rewrite control_mismatch_cells in Hmis, Hok by done.
  split; [exact Hmis|].
  intros Hno. destruct (Hok Hno) as (written & Hres & Hsh & Hvals & Hw).
  set (R := row_of_item km VNull written) in *.
  assert (HR : length R = lastDataColumn_of km) by apply length_row_of_item.
  assert (Hsh' : sh' = setValues sh row 1 [R]) by exact Hsh.
  clearbody sh'. subst sh'.
  assert (Hcells : cells (setValues sh row 1 [R]) row = R ++ drop (lastDataColumn_of km) (cells sh row)).
  { rewrite cells_setValues. cbn [length].
    replace ((row <=? row) && (row <? row + 1)) with true
      by (symmetry; apply andb_true_iff; split; [apply Nat.leb_le | apply Nat.ltb_lt]; lia).
    rewrite Nat.sub_diag. change (default [] ([R] !! 0)) with R. by rewrite HR. }
  split; [done|]. split; [done|]. split; [done|].
  split; [by exists R|].
  split.
  { intros r Hr. rewrite cells_setValues. cbn [length].
    replace ((row <=? r) && (r <? row + 1)) with false; [done|].
    symmetry. apply andb_false_iff.
    destruct (Nat.leb_spec row r); [right; apply Nat.ltb_ge; lia | by left]. }
  split.
  { intros [|j] Hc; [lia|]. unfold read_cell. rewrite Hcells.
    rewrite lookup_app_r by lia. rewrite lookup_drop. do 3 f_equal. lia. }
  split.
  { intros key off Hin. unfold read_cell at 1. rewrite Hcells.
    pose proof (offset_lt_width km key off Hin) as Hlt.
    rewrite lookup_app_l by lia.
    unfold R. rewrite (row_of_item_lookup km VNull written key off Hoffs Hin).
    cbn [default].
    assert (Hkey : key ∈ field_names km).
    { apply list_elem_of_fmap. by exists (key, off). }
    pose proof (Hw key) as Hwk.
    rewrite (bool_decide_eq_true_2 _ Hkey) in Hwk. cbn [andb] in Hwk.
    rewrite (record_at_field _ km row key off Hnd Hrow Hin) in Hwk. cbv zeta in Hwk.
    rewrite andb_comm.
    destruct (bool_decide (key ∉ controlKeys ++ flat_opt ignoreKeys) && has_prop dataItem key).
    - unfold has_prop, prop at 1. rewrite Hwk. cbn [default].
      by rewrite bool_decide_eq_true_2 by by eexists.
    - unfold has_prop, prop at 1. rewrite Hwk. cbn [default].
      rewrite bool_decide_eq_true_2 by by eexists.
      fold sh. rewrite strict_eq_blank.
      destruct (bool_decide (read_cell sh row (S off) = blank)) eqn:Hb.
      + apply bool_decide_eq_true in Hb. by rewrite Hb.
      + apply cell_norm_read. }
  intros j Hj Hnot. unfold read_cell. rewrite Hcells.
  rewrite lookup_app_l by lia. unfold R, row_of_item.
  rewrite (foldl_set_other written km _ j Hnot).
  by rewrite lookup_replicate_2.
Qed.

Lemma updateDataItemByRow_cells_witness :
  let st := sample_store [[VStr "A"; VNum 5]] in
  let km := [("sku", 0); ("qty", 1)] in
  let dataItem := record [("sku", VStr "A"); ("qty", VNum 9)] in
  let sh := the_sheet st in
  let call := updateDataItemByRow 2 dataItem (Some (UseKeyArray ["sku"])) None st in
  let sh' := the_sheet call.2 in
  (control_differs sh km 2 dataItem ["sku"] = true ->
     call.1 = Ok false /\ sh' = sh) /\
  (control_differs sh km 2 dataItem ["sku"] = false ->
     call.1 = Ok true /\
     _values call.2 = None /\
     maxRows sh' = maxRows sh /\
     (exists block, length block = lastDataColumn_of km /\
                    calls sh' = calls sh ++ [SetValues 2 1 [block]]) /\
     (forall r, r <> 2 -> cells sh' r = cells sh r) /\
     (forall c, lastDataColumn_of km < c -> read_cell sh' 2 c = read_cell sh 2 c) /\
     (forall key off, (key, off) ∈ km ->
        read_cell sh' 2 (S off) =
        if has_prop dataItem key && bool_decide (key ∉ ["sku"] ++ flat_opt None)
        then cell_norm (prop dataItem key)
        else read_cell sh 2 (S off)) /\
     (forall j, j < lastDataColumn_of km -> j ∉ km.*2 -> read_cell sh' 2 (S j) = blank)).
Proof.
  intros st km dataItem sh call sh'.
  apply (updateDataItemByRow_cells st (with_keys st (Some km)) km 2 dataItem ["sku"] None).
  - reflexivity.
  - done.
  - apply (bool_decide_unpack _). vm_compute. exact I.
  - apply (bool_decide_unpack _). vm_compute. exact I.
  - apply (bool_decide_unpack _). vm_compute. exact I.
  - vm_compute. reflexivity.
  - lia.
  - cbn. lia.
Defined.

(** The witness's update, cell by cell: the row A, 5 becomes A, 9 by one
    write. *)
Example updateDataItemByRow_A_9 :
  let st := sample_store [[VStr "A"; VNum 5]] in
  let call := updateDataItemByRow 2 (record [("sku", VStr "A"); ("qty", VNum 9)])
                (Some (UseKeyArray ["sku"])) None st in
  call.1 = Ok true /\
  cells (the_sheet call.2) 2 = [VStr "A"; VNum 9] /\
  calls (the_sheet call.2) = [SetValues 2 1 [[VStr "A"; VNum 9]]].
Proof. split_and!; vm_compute; reflexivity. Qed.

(** C5, counterexample: the header row names [sku] in column 1 and [qty]
    in column 3, and row 2 holds A, a note, 5. The update of row 2 with the
    record A, 9 under the control key [sku] returns true and writes the
    three columns: the note, which is no field of the caller's record, is
    erased. *)
Lemma update_erases_cell_between_fields :
  let dataItem := record [("sku", VStr "A"); ("qty", VNum 9)] in
  let call := updateDataItemByRow 2 dataItem (Some (UseKeyArray ["sku"])) None gap_store in
  (keys gap_store).1 = Ok [("sku", 0); ("qty", 2)] /\
  read_cell (the_sheet gap_store) 2 2 = VStr "note" /\
  has_prop dataItem "note" = false /\
  call.1 = Ok true /\
  calls (the_sheet call.2) = [SetValues 2 1 [[VStr "A"; VNull; VNum 9]]] /\
  read_cell (the_sheet call.2) 2 2 = blank.
Proof. split_and!; vm_compute; reflexivity. Qed.

(** With a field named [row] in the schema, the update of row 2 copies the
    caller's [row] over the row number of the record it read, and the
    write lands on the caller's row: row 3 is overwritten and row 2 stays
    as it was. *)
Example update_with_a_field_named_row :
  let dataItem := record [("sku", VStr "A"); ("row", VNum 3)] in
  let call := updateDataItemByRow 2 dataItem (Some (UseKeyArray ["sku"])) None row_field_store in
  call.1 = Ok true /\
  calls (the_sheet call.2) = [SetValues 3 1 [[VStr "A"; VNum 3]]] /\
  cells (the_sheet call.2) 2 = [VStr "A"; VStr "x"] /\
  cells (the_sheet call.2) 3 = [VStr "A"; VNum 3].
Proof. split_and!; vm_compute; reflexivity. Qed.

(** ** A merge run twice, with a value that equals nothing *)

(** An incoming record that holds NaN in a compared field is an update
    candidate every time: NaN is loosely unequal to every value, itself
    included, so the second merge updates the row again. *)
Example nan_field_is_updated_again :
  let st := sample_store [[VStr "A"; VNum 5]] in
  let X := [record [("sku", VStr "A"); ("qty", VNaN)]] in
  let st1 := (mergeDataItems (ItemsArray X) (UseKey "sku") no_merge_options st).2 in
  (mergeDataItems (ItemsArray X) (UseKey "sku") no_merge_options st).1
    = Ok (mkCounts 1 0 0) /\
  loose_neq VNaN VNaN = true /\
  (mergeDataItems (ItemsArray X) (UseKey "sku") no_merge_options st1).1
    = Ok (mkCounts 1 0 0).
Proof. split_and!; vm_compute; reflexivity. Qed.
